(** * Heap lifecycle of the allocator (src/heap.c): a shallow embedding

    The development follows src/heap.c function by function.  Memory is an
    explicit store: heaps, thread-local descriptors, pages, segments and
    blocks live in finite maps keyed by their address, so that aliasing
    (a heap reached through [tld->heap_backing], a page reached through a
    queue, a block reached through an encoded link) is what it is in C.

    Conventions.
    - Machine words ([size_t], [uintptr_t], pointers) are [N]; [0] is [NULL];
      arithmetic that can wrap is written with [wrap] and [wrap_sub].
    - The build is a release build: [mi_assert*] lines and the
      [MI_DEBUG]/[MI_STAT] blocks expand to nothing.
    - Atomic operations are executed one at a time by the calling thread:
      a compare-and-swap succeeds exactly when the expected value is the
      current one and an exchange returns the current value.
    - Dereferencing an address that the store does not hold has no defined
      result ([None]); so has a pointer walk that exhausts its [fuel], and
      so has the walk of a page queue once a visitor has relinked the pages
      that are still to come (see [visit_queue]).
    - Releasing storage ([mi_free], [_mi_heap_backing_free]) is recorded in
      [freed]; the record stays readable so that the state at the moment of
      release can be inspected. *)

From Stdlib Require Import NArith Lia List Bool.
From stdpp Require Import base option list gmap.

Local Open Scope N_scope.

(** ** Data model *)

(** [mi_collect_t] *)
Inductive mi_collect_t : Type := NORMAL | FORCE | ABANDON.

(** The enumeration constants as C gives them, for [>], [>=] and [==]. *)
Definition mi_collect_rank (c : mi_collect_t) : N :=
  match c with NORMAL => 0 | FORCE => 1 | ABANDON => 2 end.

(** A page queue is the chain [first .. last] of its pages' addresses; the
    address of the queue [heap->pages[i]] is the pair of the heap's address
    and the bin index. *)
Definition mi_page_queue_t : Type := list N.
Definition mi_page_queue_ptr : Type := (N * nat)%type.

(** The fields of [mi_heap_t] that this file reads or writes.  [pages] and
    [pages_free_direct] are C arrays: total on their index range; no index
    above [MI_BIN_FULL] is ever used. *)
Record mi_heap_t : Type := mk_heap {
  tld : N;
  pages_free_direct : nat -> N;
  pages : nat -> mi_page_queue_t;
  thread_delayed_free : N;
  thread_id : N;
  key0 : N;
  key1 : N;
  page_count : N;
  no_reclaim : bool;
  abandoned_next : N
}.

Record mi_tld_t : Type := mk_tld {
  heap_backing : N
}.

(** What the heap code observes of a page. *)
Record mi_page_t : Type := mk_page {
  xheap : N;
  xblock_size : N;
  capacity : N;
  reserved : N;
  used : N;
  free : N;
  local_free : N
}.

Record mi_segment_t : Type := mk_segment {
  seg_cookie : N;
  seg_thread_id : N
}.

(** [mi_heap_area_t] and [mi_heap_area_ex_t] *)
Record mi_heap_area_t : Type := mk_area {
  area_blocks : N;
  area_reserved : N;
  area_committed : N;
  area_used : N;
  area_block_size : N
}.

Record mi_heap_area_ex_t : Type := mk_xarea {
  xarea_area : mi_heap_area_t;
  xarea_page : N
}.

(** Calls that the properties below speak about are recorded as they are
    made. *)
Inductive call : Type :=
| Call_try_reclaim_abandoned (heap : N) (all : bool)
| Call_destroy_pages (heap : N)
| Call_set_default_direct (heap : N)
| Call_free (p : N)
| Call_backing_free (heap : N).

Record world : Type := mk_world {
  heaps : gmap N mi_heap_t;
  tlds : gmap N mi_tld_t;
  page_store : gmap N mi_page_t;
  segments : gmap N mi_segment_t;
  (** the [next] word of every block, as stored (encoded) *)
  blocks : gmap N N;
  (** the process-wide [abandoned] head, an atomic heap pointer *)
  abandoned : N;
  (** the calling thread's default-heap slot *)
  default_heap : N;
  freed : list N;
  calls : list call
}.

(** *** Field updates *)

Definition set_heaps (f : gmap N mi_heap_t -> gmap N mi_heap_t) (w : world) : world :=
  mk_world (f (heaps w)) (tlds w) (page_store w) (segments w) (blocks w)
           (abandoned w) (default_heap w) (freed w) (calls w).
Definition set_page_store (f : gmap N mi_page_t -> gmap N mi_page_t) (w : world) : world :=
  mk_world (heaps w) (tlds w) (f (page_store w)) (segments w) (blocks w)
           (abandoned w) (default_heap w) (freed w) (calls w).
Definition set_blocks (f : gmap N N -> gmap N N) (w : world) : world :=
  mk_world (heaps w) (tlds w) (page_store w) (segments w) (f (blocks w))
           (abandoned w) (default_heap w) (freed w) (calls w).
Definition set_abandoned (a : N) (w : world) : world :=
  mk_world (heaps w) (tlds w) (page_store w) (segments w) (blocks w)
           a (default_heap w) (freed w) (calls w).
Definition set_default_heap (d : N) (w : world) : world :=
  mk_world (heaps w) (tlds w) (page_store w) (segments w) (blocks w)
           (abandoned w) d (freed w) (calls w).
Definition add_freed (p : N) (w : world) : world :=
  mk_world (heaps w) (tlds w) (page_store w) (segments w) (blocks w)
           (abandoned w) (default_heap w) (p :: freed w) (calls w).
Definition add_call (c : call) (w : world) : world :=
  mk_world (heaps w) (tlds w) (page_store w) (segments w) (blocks w)
           (abandoned w) (default_heap w) (freed w) (c :: calls w).

Definition set_pages (f : (nat -> mi_page_queue_t) -> nat -> mi_page_queue_t)
    (h : mi_heap_t) : mi_heap_t :=
  mk_heap (tld h) (pages_free_direct h) (f (pages h)) (thread_delayed_free h)
          (thread_id h) (key0 h) (key1 h) (page_count h) (no_reclaim h)
          (abandoned_next h).
Definition set_pages_free_direct (d : nat -> N) (h : mi_heap_t) : mi_heap_t :=
  mk_heap (tld h) d (pages h) (thread_delayed_free h)
          (thread_id h) (key0 h) (key1 h) (page_count h) (no_reclaim h)
          (abandoned_next h).
Definition set_thread_delayed_free (b : N) (h : mi_heap_t) : mi_heap_t :=
  mk_heap (tld h) (pages_free_direct h) (pages h) b
          (thread_id h) (key0 h) (key1 h) (page_count h) (no_reclaim h)
          (abandoned_next h).
Definition set_page_count (n : N) (h : mi_heap_t) : mi_heap_t :=
  mk_heap (tld h) (pages_free_direct h) (pages h) (thread_delayed_free h)
          (thread_id h) (key0 h) (key1 h) n (no_reclaim h)
          (abandoned_next h).
Definition set_abandoned_next (n : N) (h : mi_heap_t) : mi_heap_t :=
  mk_heap (tld h) (pages_free_direct h) (pages h) (thread_delayed_free h)
          (thread_id h) (key0 h) (key1 h) (page_count h) (no_reclaim h) n.

Definition set_xheap (o : N) (p : mi_page_t) : mi_page_t :=
  mk_page o (xblock_size p) (capacity p) (reserved p) (used p) (free p)
          (local_free p).
Definition set_used (u : N) (p : mi_page_t) : mi_page_t :=
  mk_page (xheap p) (xblock_size p) (capacity p) (reserved p) u (free p)
          (local_free p).

(** ** The computation monad: state, and no result on an undefined step *)

Definition M (A : Type) : Type := world -> option (A * world).

Definition ret {A : Type} (a : A) : M A := fun w => Some (a, w).
Definition bind {A B : Type} (m : M A) (k : A -> M B) : M B :=
  fun w => match m w with
           | Some (a, w') => k a w'
           | None => None
           end.
Definition undefined {A : Type} : M A := fun _ => None.
Definition gets {A : Type} (f : world -> A) : M A := fun w => Some (f w, w).
Definition modify (f : world -> world) : M unit := fun w => Some (tt, f w).
Definition deref {A : Type} (f : world -> option A) : M A :=
  fun w => match f w with Some a => Some (a, w) | None => None end.

Notation "'let*' x ':=' m 'in' k" := (bind m (fun x => k))
  (at level 10, x pattern, m at level 200, k at level 200, only parsing).
Notation "m1 ';;' m2" := (bind m1 (fun _ => m2))
  (at level 100, m2 at level 200, right associativity, only parsing).

(** [*heap] and [heap->f = v] *)
Definition heap_get (heap : N) : M mi_heap_t :=
  deref (fun w => heaps w !! heap).
Definition heap_upd (heap : N) (f : mi_heap_t -> mi_heap_t) : M unit :=
  let* hp := heap_get heap in
  modify (set_heaps <[heap := f hp]>).
Definition tld_get (t : N) : M mi_tld_t :=
  deref (fun w => tlds w !! t).
Definition page_get (page : N) : M mi_page_t :=
  deref (fun w => page_store w !! page).
Definition page_upd (page : N) (f : mi_page_t -> mi_page_t) : M unit :=
  let* pg := page_get page in
  modify (set_page_store <[page := f pg]>).
Definition segment_get (s : N) : M mi_segment_t :=
  deref (fun w => segments w !! s).
Definition record_call (c : call) : M unit := modify (add_call c).

(** ** What the file takes from the rest of the allocator

    Constants, inline helpers and functions that src/heap.c uses and that
    are defined elsewhere (mimalloc-types.h, mimalloc-internal.h, page.c,
    segment.c, os.c, stats.c, init.c).  They are parameters of the
    development; [ExternalsOk] states what the proofs need of them. *)

Class Externals : Type := {
  (** index of the last page queue of a heap, the queue of full pages *)
  MI_BIN_FULL : nat;
  (** [MI_INTPTR_SIZE] is [1 << MI_INTPTR_SHIFT] *)
  MI_INTPTR_SHIFT : N;
  MI_SMALL_PAGE_SIZE : N;
  MI_LARGE_OBJ_SIZE_MAX : N;
  MI_HUGE_OBJ_SIZE_MAX : N;
  (** the encoding behind [mi_block_nextx] and [mi_block_set_nextx]:
      [mi_ptr_encode null p key1 key2] is the word stored for the link [p] *)
  mi_ptr_encode : N -> N -> N -> N -> N;
  mi_ptr_decode : N -> N -> N -> N -> N;
  (** [mi_block_next(page, block)], the link of a block of a page's own
      free list *)
  mi_block_next : N -> N -> world -> N;
  (** address arithmetic on segments and pages *)
  _mi_page_segment : N -> N;
  _mi_page_start : N -> N -> N * N;
  _mi_ptr_segment : N -> N;
  _mi_ptr_cookie : N -> N;
  _mi_segment_page_of : N -> N -> N;
  _mi_is_main_thread : world -> bool;
  (** collaborators that change the state *)
  _mi_deferred_free : N -> bool -> world -> world;
  _mi_heap_delayed_free : N -> world -> world;
  _mi_heap_collect_retired : N -> bool -> world -> world;
  _mi_segment_thread_collect : N -> world -> world;
  _mi_mem_collect : N -> world -> world;
  _mi_stats_done : N -> world -> world;
  _mi_segments_absorb : N -> N -> N -> world -> world;
  _mi_stat_decrease_giant : N -> N -> world -> world;
  _mi_stat_decrease_huge : N -> N -> world -> world;
  _mi_segment_page_free : N -> bool -> N -> world -> world;
  _mi_page_free_collect : N -> bool -> world -> world
}.

Section Heap.
Context {E : Externals}.

Definition MI_INTPTR_SIZE : N := N.shiftl 1 MI_INTPTR_SHIFT.
Definition MI_INTPTR_BITS : N := 8 * MI_INTPTR_SIZE.

(** [size_t] arithmetic *)
Definition wrap (n : N) : N := n mod 2 ^ MI_INTPTR_BITS.
Definition wrap_sub (a b : N) : N :=
  wrap (a + (2 ^ MI_INTPTR_BITS - wrap b)).
Definition UINTPTR_MAX : N := 2 ^ MI_INTPTR_BITS - 1.

(** *** Inline helpers of mimalloc-internal.h *)

(** Modelled from the spec: [mi_heap_is_initialized], an inline helper of
    mimalloc-internal.h; "a heap is initialized iff its tld pointer is
    non-null". *)
Definition mi_heap_is_initialized (heap : N) : M bool :=
  let* hp := heap_get heap in
  ret (negb (tld hp =? 0)).

(** Modelled from the spec: [mi_heap_is_backing], an inline helper of
    mimalloc-internal.h; "the descriptor's heap_backing field names the
    backing heap". *)
Definition mi_heap_is_backing (heap : N) : M bool :=
  let* hp := heap_get heap in
  let* td := tld_get (tld hp) in
  ret (heap_backing td =? heap).

(** Modelled from the spec: [mi_get_default_heap] (mimalloc-internal.h)
    reads the default-heap slot of the calling thread,
    "get_default_heap()". *)
Definition mi_get_default_heap : M N := gets default_heap.

(** Modelled from the spec: [_mi_heap_set_default_direct] (init.c) writes
    that slot, "set_default_heap_direct(h)". *)
Definition _mi_heap_set_default_direct (heap : N) : M unit :=
  record_call (Call_set_default_direct heap);;
  modify (set_default_heap heap).

(** Modelled from the spec: [mi_heap_is_default] (mimalloc-internal.h)
    compares with the default heap of the calling thread. *)
Definition mi_heap_is_default (heap : N) : M bool :=
  let* d := mi_get_default_heap in
  ret (heap =? d).

(** Modelled from the spec: [mi_page_heap] (mimalloc-internal.h) reads the
    page's "owning heap pointer", "page_heap(page)". *)
Definition mi_page_heap (page : N) : M N :=
  let* pg := page_get page in ret (xheap pg).

(** Modelled from the spec: [mi_page_block_size] (mimalloc-internal.h)
    reads the page's "block size", "page_block_size(page)". *)
Definition mi_page_block_size (page : N) : M N :=
  let* pg := page_get page in ret (xblock_size pg).

(** Modelled from the spec: [mi_free] (alloc.c) releases the storage of
    the heap it is given, "then heap is released". *)
Definition mi_free (p : N) : M unit :=
  record_call (Call_free p);;
  modify (add_freed p).

(** Modelled from the spec: [_mi_heap_backing_free] (init.c) releases the
    storage of the backing heap it is given, "the heap is released
    immediately", "release r's storage". *)
Definition _mi_heap_backing_free (heap : N) : M unit :=
  record_call (Call_backing_free heap);;
  modify (add_freed heap).

(** ** Helpers *)

(** [heap_page_visitor_fun]: [arg1] and [arg2] point to data of the caller;
    the visitor gets that data and returns it as it leaves it. *)
Definition heap_page_visitor_fun (A : Type) : Type :=
  N -> mi_page_queue_ptr -> N -> A -> M (bool * A).

(** [t] is the queue [q] from one of its pages on, or its empty end. *)
Fixpoint queue_tail (t q : mi_page_queue_t) : bool :=
  bool_decide (t = q) ||
  match q with
  | [] => false
  | _ :: q' => queue_tail t q'
  end.

(** The [while (page != NULL)] loop of one queue, from [page] on.  A queue
    is a chain of pages in C and the list of these pages here, so that
    [page->next] is what follows [page] in the list of the queue at the
    moment it is read, which is before the visitor runs: [page :: next] is
    the end of the live queue then, and the walk goes on with [next].
    Where a visitor has relinked the pages that are still to come, the
    list of the queue no longer says where the links of these pages lead,
    and the walk has no result. *)
Fixpoint visit_queue {A : Type} (fn : heap_page_visitor_fun A)
    (heap : N) (pq : mi_page_queue_ptr) (q : mi_page_queue_t) (a : A)
    : M (bool * A) :=
  match q with
  | [] => ret (true, a)
  | page :: next =>
      let* hp := heap_get (fst pq) in
      if negb (queue_tail q (pages hp (snd pq))) then undefined else
      let* r := fn heap pq page a in
      if fst r then visit_queue fn heap pq next (snd r)
      else ret (false, snd r)
  end.

(** The [for (i = 0; i <= MI_BIN_FULL; i++)] loop over [bins]; the walk
    of a queue starts at its [first]. *)
Fixpoint visit_bins {A : Type} (fn : heap_page_visitor_fun A)
    (heap : N) (bins : list nat) (a : A) : M (bool * A) :=
  match bins with
  | [] => ret (true, a)
  | i :: bins' =>
      let* hp := heap_get heap in
      let* r := visit_queue fn heap (heap, i) (pages hp i) a in
      if fst r then visit_bins fn heap bins' (snd r)
      else ret (false, snd r)
  end.

(** [mi_heap_visit_pages] *)
Definition mi_heap_visit_pages {A : Type} (heap : N)
    (fn : heap_page_visitor_fun A) (a : A) : M (bool * A) :=
  if heap =? 0 then ret (false, a) else
  let* hp := heap_get heap in
  if page_count hp =? 0 then ret (false, a) else
  visit_bins fn heap (seq 0 (S MI_BIN_FULL)) a.

(** ** Block links *)

(** Modelled from the spec: [mi_block_nextx] (mimalloc-internal.h) reads
    the link of a block, "reading or writing next always encodes against
    these keys".  The first argument is the [null] of the list. *)
Definition mi_block_nextx (null block k0 k1 : N) : M N :=
  let* x := deref (fun w => blocks w !! block) in
  ret (mi_ptr_decode null x k0 k1).

(** Modelled from the spec: [mi_block_set_nextx] (mimalloc-internal.h)
    writes the link of a block, encoded against the keys. *)
Definition mi_block_set_nextx (null block next k0 k1 : N) : M unit :=
  let* _ := deref (fun w => blocks w !! block) in
  modify (set_blocks <[block := mi_ptr_encode null next k0 k1]>).

(** Atomic accesses to [abandoned] and to [heap->thread_delayed_free]:
    [mi_atomic_cas_ptr_*(p, desired, expected)] and
    [mi_atomic_exchange_ptr(p, value)]. *)
Definition cas_abandoned (desired expected : N) : M bool :=
  let* cur := gets abandoned in
  if cur =? expected then modify (set_abandoned desired);; ret true
  else ret false.
Definition exchange_abandoned (value : N) : M N :=
  let* cur := gets abandoned in
  modify (set_abandoned value);; ret cur.
Definition cas_thread_delayed_free (heap desired expected : N) : M bool :=
  let* hp := heap_get heap in
  if thread_delayed_free hp =? expected
  then heap_upd heap (set_thread_delayed_free desired);; ret true
  else ret false.

(** ** Page queues *)

(** Modelled from the spec: [_mi_page_queue_append] (page-queue.c), "splice
    from->pages[i] onto the tail of to->pages[i], adjusting each spliced
    page's owner to `to`"; its result is the number of pages spliced.  The
    queue [append] itself is left as it is; the caller resets it. *)
Definition _mi_page_queue_append (heap : N) (pq append : mi_page_queue_ptr)
    : M N :=
  let* fr := heap_get (fst append) in
  let q := pages fr (snd append) in
  modify (set_page_store
            (fun ps => foldr (fun page => alter (set_xheap heap) page) ps q));;
  heap_upd (fst pq)
    (set_pages (fun pgs j => if Nat.eqb j (snd pq) then pgs j ++ q else pgs j));;
  ret (wrap (N.of_nat (length q))).

(** Modelled from the spec: [_mi_heap_empty] (init.c), the "canonical
    empty-heap template, a zero-valued heap image". *)
Definition _mi_heap_empty : mi_heap_t :=
  mk_heap 0 (fun _ => 0) (fun _ => []) 0 0 0 0 0 false 0.

(** [mi_heap_reset_pages]: zero out the page queues *)
Definition mi_heap_reset_pages (heap : N) : M unit :=
  heap_upd heap (set_pages_free_direct (fun _ => 0));;
  heap_upd heap (set_pages (fun _ => pages _mi_heap_empty));;
  heap_upd heap (set_thread_delayed_free 0);;
  heap_upd heap (set_page_count 0).

(** ** Safe heap delete: [mi_heap_absorb] *)

(** The loop that appends the queues, over [bins]. *)
Fixpoint absorb_queues (heap from : N) (bins : list nat) : M unit :=
  match bins with
  | [] => ret tt
  | i :: bins' =>
      let* pcount := _mi_page_queue_append heap (heap, i) (from, i) in
      heap_upd heap (fun hp => set_page_count (wrap (page_count hp + pcount)) hp);;
      heap_upd from (fun hp => set_page_count (wrap_sub (page_count hp) pcount) hp);;
      absorb_queues heap from bins'
  end.

(** [do first = from->thread_delayed_free
     while (!cas(&from->thread_delayed_free, NULL, first))] *)
Fixpoint absorb_steal (n : nat) (from : N) : M N :=
  match n with
  | O => undefined
  | S n' =>
      let* fr := heap_get from in
      let first := thread_delayed_free fr in
      let* ok := cas_thread_delayed_free from 0 first in
      if ok then ret first else absorb_steal n' from
  end.

(** Find the end and re-encode the list; the result is [last]. *)
Fixpoint absorb_reencode (n : nat) (heap from last : N) : M N :=
  match n with
  | O => undefined
  | S n' =>
      let* fr := heap_get from in
      let* next := mi_block_nextx from last (key0 fr) (key1 fr) in
      if next =? 0 then ret last else
      let* hp := heap_get heap in
      mi_block_set_nextx heap last next (key0 hp) (key1 hp);;
      absorb_reencode n' heap from next
  end.

(** Append to the heap's [thread_delayed_free] list. *)
Fixpoint absorb_append (n : nat) (heap first last : N) : M unit :=
  match n with
  | O => undefined
  | S n' =>
      let* hp := heap_get heap in
      let block := thread_delayed_free hp in
      mi_block_set_nextx heap last block (key0 hp) (key1 hp);;
      let* ok := cas_thread_delayed_free heap first block in
      if ok then ret tt else absorb_append n' heap first last
  end.

(** [mi_heap_absorb]: transfer the pages from one heap to the other *)
Definition mi_heap_absorb (fuel : nat) (heap from : N) : M unit :=
  if from =? 0 then ret tt else
  let* fr := heap_get from in
  if page_count fr =? 0 then ret tt else
  absorb_queues heap from (seq 0 (S MI_BIN_FULL));;
  let* first := absorb_steal fuel from in
  (if negb (first =? 0) then
     let* last := absorb_reencode fuel heap from first in
     absorb_append fuel heap first last
   else ret tt);;
  mi_heap_reset_pages from.

(** ** Heap abandon *)

(** [while (last->abandoned_next != NULL) last = last->abandoned_next] *)
Fixpoint abandoned_last (n : nat) (last : N) : M N :=
  match n with
  | O => undefined
  | S n' =>
      let* hp := heap_get last in
      if abandoned_next hp =? 0 then ret last
      else abandoned_last n' (abandoned_next hp)
  end.

(** [do next = abandoned; last->abandoned_next = next;
     while (!cas(&abandoned, first, next))] *)
Fixpoint prepend_publish (n : nat) (first last : N) : M unit :=
  match n with
  | O => undefined
  | S n' =>
      let* next := gets abandoned in
      heap_upd last (set_abandoned_next next);;
      let* ok := cas_abandoned first next in
      if ok then ret tt else prepend_publish n' first last
  end.

(** [mi_heap_prepend_abandoned] *)
Definition mi_heap_prepend_abandoned (fuel : nat) (first : N) : M unit :=
  if first =? 0 then ret tt else
  let* ok := cas_abandoned first 0 in
  if ok then ret tt else
  let* last := abandoned_last fuel first in
  prepend_publish fuel first last.

(** The [do .. while (reclaim != NULL)] loop that absorbs the heaps. *)
Fixpoint reclaim_all (n : nat) (fuel : nat) (heap reclaim : N) : M unit :=
  match n with
  | O => undefined
  | S n' =>
      let* r := heap_get reclaim in
      let next := abandoned_next r in
      mi_heap_absorb fuel heap reclaim;;
      let* hp := heap_get heap in
      let* r' := heap_get reclaim in
      modify (_mi_segments_absorb (thread_id hp) (tld hp) (tld r'));;
      _mi_heap_backing_free reclaim;;
      if next =? 0 then ret tt else reclaim_all n' fuel heap next
  end.

(** [_mi_heap_try_reclaim_abandoned] *)
Definition _mi_heap_try_reclaim_abandoned (fuel : nat) (heap : N) (all : bool)
    : M unit :=
  record_call (Call_try_reclaim_abandoned heap all);;
  let* hp := heap_get heap in
  if no_reclaim hp then ret tt else
  let* reclaim := gets abandoned in
  if reclaim =? 0 then ret tt else
  let* reclaim := exchange_abandoned 0 in
  if reclaim =? 0 then ret tt else
  (if negb all then
     let* r := heap_get reclaim in
     let next := abandoned_next r in
     heap_upd reclaim (set_abandoned_next 0);;
     mi_heap_prepend_abandoned fuel next
   else ret tt);;
  reclaim_all fuel fuel heap reclaim.

(** ** Collect *)

(** [mi_heap_collect_ex] *)
Definition mi_heap_collect_ex (fuel : nat) (heap : N) (collect : mi_collect_t)
    : M unit :=
  let* init := mi_heap_is_initialized heap in
  if negb init then ret tt else
  modify (_mi_deferred_free heap (mi_collect_rank NORMAL <? mi_collect_rank collect));;
  _mi_heap_try_reclaim_abandoned fuel heap
    (mi_collect_rank collect =? mi_collect_rank FORCE);;
  modify (_mi_heap_delayed_free heap);;
  modify (_mi_heap_collect_retired heap true);;
  (if mi_collect_rank FORCE <=? mi_collect_rank collect then
     let* hp := heap_get heap in
     modify (_mi_segment_thread_collect (tld hp))
   else ret tt);;
  let* main := gets _mi_is_main_thread in
  if (mi_collect_rank FORCE <=? mi_collect_rank collect) && main then
    let* hp := heap_get heap in
    modify (_mi_mem_collect (tld hp))
  else ret tt.

Definition mi_heap_collect (fuel : nat) (heap : N) (force : bool) : M unit :=
  mi_heap_collect_ex fuel heap (if force then FORCE else NORMAL).

Definition mi_collect (fuel : nat) (force : bool) : M unit :=
  let* d := mi_get_default_heap in
  mi_heap_collect fuel d force.

(** [_mi_heap_collect_abandon]: release the resources of a heap that is
    about to be abandoned *)
Definition _mi_heap_collect_abandon (fuel : nat) (heap : N) : M unit :=
  mi_heap_collect_ex fuel heap ABANDON;;
  let* hp := heap_get heap in
  modify (_mi_stats_done (tld hp));;
  let* hp := heap_get heap in
  if page_count hp =? 0 then
    _mi_heap_backing_free heap
  else
    heap_upd heap (set_abandoned_next 0);;
    mi_heap_prepend_abandoned fuel heap.

(** ** Heap free, destroy and delete *)

(** [mi_heap_free]: called from [mi_heap_destroy] and [mi_heap_delete] to
    free the internal heap resources *)
Definition mi_heap_free (heap : N) : M unit :=
  let* backing := mi_heap_is_backing heap in
  if backing then ret tt else
  let* is_default := mi_heap_is_default heap in
  (if is_default then
     let* hp := heap_get heap in
     let* td := tld_get (tld hp) in
     _mi_heap_set_default_direct (heap_backing td)
   else ret tt);;
  mi_free heap.

(** [_mi_heap_page_destroy]; [arg1] and [arg2] are unused. *)
Definition _mi_heap_page_destroy : heap_page_visitor_fun unit :=
  fun heap pq page _ =>
  let* bsize := mi_page_block_size page in
  (if MI_LARGE_OBJ_SIZE_MAX <? bsize then
     let* hp := heap_get heap in
     if MI_HUGE_OBJ_SIZE_MAX <? bsize
     then modify (_mi_stat_decrease_giant (tld hp) bsize)
     else modify (_mi_stat_decrease_huge (tld hp) bsize)
   else ret tt);;
  page_upd page (set_used 0);;
  let* hp := heap_get heap in
  modify (_mi_segment_page_free page false (tld hp));;
  ret (true, tt).

(** [_mi_heap_destroy_pages] *)
Definition _mi_heap_destroy_pages (heap : N) : M unit :=
  record_call (Call_destroy_pages heap);;
  let* _ := mi_heap_visit_pages heap _mi_heap_page_destroy tt in
  mi_heap_reset_pages heap.

(** [mi_heap_delete]: safe delete a heap without freeing any still
    allocated blocks in that heap *)
Definition mi_heap_delete (fuel : nat) (heap : N) : M unit :=
  let* init := mi_heap_is_initialized heap in
  if negb init then ret tt else
  let* backing := mi_heap_is_backing heap in
  (if negb backing then
     let* hp := heap_get heap in
     let* td := tld_get (tld hp) in
     mi_heap_absorb fuel (heap_backing td) heap
   else
     _mi_heap_collect_abandon fuel heap);;
  mi_heap_free heap.

(** [mi_heap_destroy] *)
Definition mi_heap_destroy (fuel : nat) (heap : N) : M unit :=
  let* init := mi_heap_is_initialized heap in
  if negb init then ret tt else
  let* hp := heap_get heap in
  if negb (no_reclaim hp) then
    mi_heap_delete fuel heap
  else
    _mi_heap_destroy_pages heap;;
    mi_heap_free heap.

(** [mi_heap_set_default] *)
Definition mi_heap_set_default (heap : N) : M N :=
  let* init := mi_heap_is_initialized heap in
  if negb init then ret 0 else
  let* old := mi_get_default_heap in
  _mi_heap_set_default_direct heap;;
  ret old.

(** ** Analysis *)

(** [mi_heap_of_block] *)
Definition mi_heap_of_block (p : N) : M N :=
  if p =? 0 then ret 0 else
  let segment := _mi_ptr_segment p in
  let* sg := segment_get segment in
  let valid := _mi_ptr_cookie segment =? seg_cookie sg in
  if negb valid then ret 0 else
  mi_page_heap (_mi_segment_page_of segment p).

(** [mi_heap_contains_block] *)
Definition mi_heap_contains_block (heap p : N) : M bool :=
  let* init := mi_heap_is_initialized heap in
  if negb init then ret false else
  let* owner := mi_heap_of_block p in
  ret (heap =? owner).

(** [mi_heap_page_check_owned]: [arg1] is the pointer [p], [arg2] points to
    the caller's [found]. *)
Definition mi_heap_page_check_owned (p : N) : heap_page_visitor_fun bool :=
  fun heap pq page _ =>
  let segment := _mi_page_segment page in
  let start := fst (_mi_page_start segment page) in
  let* pg := page_get page in
  let* bsize := mi_page_block_size page in
  let end_ := wrap (start + wrap (capacity pg * bsize)) in
  let found := (start <=? p) && (p <? end_) in
  ret (negb found, found).

(** [mi_heap_check_owned] *)
Definition mi_heap_check_owned (heap p : N) : M bool :=
  let* init := mi_heap_is_initialized heap in
  if negb init then ret false else
  if negb (N.land p (MI_INTPTR_SIZE - 1) =? 0) then ret false else
  let* r := mi_heap_visit_pages heap (mi_heap_page_check_owned p) false in
  ret (snd r).

(** [mi_check_owned] *)
Definition mi_check_owned (p : N) : M bool :=
  let* d := mi_get_default_heap in
  mi_heap_check_owned d p.

(** ** Visiting all heap blocks and areas *)

(** [mi_block_visit_fun]: a callback of the client; its [arg] is part of
    the callback. *)
Definition mi_block_visit_fun : Type :=
  N -> mi_heap_area_t -> N -> N -> M bool.

Definition MI_MAX_BLOCKS : N := MI_SMALL_PAGE_SIZE / MI_INTPTR_SIZE.

(** The loop over [page->free] that sets the bit of every free block. *)
Fixpoint free_map_fill (n : nat) (page pstart bsize block : N)
    (free_map : list N) : M (list N) :=
  if block =? 0 then ret free_map else
  match n with
  | O => undefined
  | S n' =>
      if bsize =? 0 then undefined else
      let offset := wrap_sub block pstart in
      let blockidx := offset / bsize in
      let bitidx := blockidx / MI_INTPTR_SIZE in
      let bit := blockidx - bitidx * MI_INTPTR_SIZE in
      match free_map !! N.to_nat bitidx with
      | None => undefined
      | Some m =>
          let* next := gets (mi_block_next page block) in
          free_map_fill n' page pstart bsize next
            (<[N.to_nat bitidx := N.lor m (wrap (N.shiftl 1 bit))]> free_map)
      end
  end.

(** The walk through all blocks that skips the free ones, from index [i];
    [i < page->capacity] is tested before each round. *)
Fixpoint visit_used_blocks (n : nat) (i : N) (visitor : mi_block_visit_fun)
    (page : N) (area : mi_heap_area_t) (pstart bsize : N)
    (free_map : list N) : M bool :=
  let* pg := page_get page in
  if capacity pg <=? i then ret true else
  match n with
  | O => undefined
  | S n' =>
      let bitidx := i / MI_INTPTR_SIZE in
      let bit := i - bitidx * MI_INTPTR_SIZE in
      match free_map !! N.to_nat bitidx with
      | None => undefined
      | Some m =>
          if (bit =? 0) && (m =? UINTPTR_MAX) then
            visit_used_blocks n' (i + (MI_INTPTR_SIZE - 1) + 1) visitor page
              area pstart bsize free_map
          else if N.land m (wrap (N.shiftl 1 bit)) =? 0 then
            let block := wrap (pstart + wrap (i * bsize)) in
            let* owner := mi_page_heap page in
            let* ok := visitor owner area block bsize in
            if negb ok then ret false else
            visit_used_blocks n' (i + 1) visitor page area pstart bsize
              free_map
          else
            visit_used_blocks n' (i + 1) visitor page area pstart bsize
              free_map
      end
  end.

(** [mi_heap_area_visit_blocks]; [xarea] is the address of a local of the
    caller and is not [NULL]. *)
Definition mi_heap_area_visit_blocks (fuel : nat) (xarea : mi_heap_area_ex_t)
    (visitor : mi_block_visit_fun) : M bool :=
  let area := xarea_area xarea in
  let page := xarea_page xarea in
  if page =? 0 then ret true else
  modify (_mi_page_free_collect page true);;
  let* pg := page_get page in
  if used pg =? 0 then ret true else
  let* bsize := mi_page_block_size page in
  let pstart := fst (_mi_page_start (_mi_page_segment page) page) in
  if capacity pg =? 1 then
    let* owner := mi_page_heap page in
    visitor owner area pstart bsize
  else
    let free_map := replicate (N.to_nat (MI_MAX_BLOCKS / MI_INTPTR_SIZE)) 0 in
    let* free_map := free_map_fill fuel page pstart bsize (free pg) free_map in
    visit_used_blocks (N.to_nat (capacity pg)) 0 visitor page area pstart
      bsize free_map.

Definition mi_heap_area_visit_fun : Type := N -> mi_heap_area_ex_t -> M bool.

(** [mi_heap_visit_areas_page]: [arg1] is the area visitor; its [arg] is
    part of it. *)
Definition mi_heap_visit_areas_page (vfun : mi_heap_area_visit_fun)
    : heap_page_visitor_fun unit :=
  fun heap pq page _ =>
  modify (_mi_page_free_collect page false);;
  let* bsize := mi_page_block_size page in
  let* pg := page_get page in
  let xarea :=
    mk_xarea
      (mk_area (fst (_mi_page_start (_mi_page_segment page) page))
               (wrap (reserved pg * bsize))
               (wrap (capacity pg * bsize))
               (used pg)
               bsize)
      page in
  let* ok := vfun heap xarea in
  ret (ok, tt).

(** [mi_heap_visit_areas]: visit all heap pages as areas; the visitor is a
    function pointer that may be [NULL]. *)
Definition mi_heap_visit_areas (heap : N)
    (visitor : option mi_heap_area_visit_fun) : M bool :=
  match visitor with
  | None => ret false
  | Some vfun =>
      let* r := mi_heap_visit_pages heap (mi_heap_visit_areas_page vfun) tt in
      ret (fst r)
  end.

(** [mi_heap_area_visitor], with the fields of [mi_visit_blocks_args_t] *)
Definition mi_heap_area_visitor (fuel : nat) (visit_blocks : bool)
    (visitor : mi_block_visit_fun) : mi_heap_area_visit_fun :=
  fun heap xarea =>
  let* ok := visitor heap (xarea_area xarea) 0
               (area_block_size (xarea_area xarea)) in
  if negb ok then ret false else
  if visit_blocks then mi_heap_area_visit_blocks fuel xarea visitor
  else ret true.

(** [mi_heap_visit_blocks]: visit all blocks in a heap *)
Definition mi_heap_visit_blocks (fuel : nat) (heap : N) (visit_blocks : bool)
    (visitor : mi_block_visit_fun) : M bool :=
  mi_heap_visit_areas heap
    (Some (mi_heap_area_visitor fuel visit_blocks visitor)).

End Heap.

(** ** Heap new

    [mi_heap_get_default], [mi_heap_get_backing] and [mi_heap_new] take the
    thread library (init.c), the allocator (alloc.c) and the random source
    (random.c) from the rest of the allocator. *)
Class Creation : Type := {
  (** [mi_random_ctx_t], and the [random] field of [_mi_heap_empty] *)
  mi_random_ctx_t : Type;
  random_empty : mi_random_ctx_t;
  mi_thread_init : world -> world;
  (** [_mi_thread_id()], the id of the calling thread *)
  _mi_thread_id : N;
  (** [mi_heap_malloc_tp(heap, mi_heap_t)]: the address of the storage, or
      [NULL], and the state the allocation leaves *)
  mi_heap_malloc_tp : N -> world -> N * world;
  (** [_mi_random_split(ctx, ctx_new)], from the two addresses and what
      they hold: what they hold afterwards *)
  _mi_random_split :
    N -> mi_random_ctx_t -> N -> mi_random_ctx_t ->
    mi_random_ctx_t * mi_random_ctx_t;
  (** [_mi_random_next(ctx)]: the word drawn and the context afterwards *)
  _mi_random_next : mi_random_ctx_t -> N * mi_random_ctx_t
}.

Section HeapNew.
Context {C : Creation}.

(** The fields [random] and [cookie] of the heaps, by the address of the
    heap.  Only [mi_heap_new] and [_mi_heap_random_next] touch them. *)
Record heap_seeds : Type := mk_seeds {
  random : gmap N mi_random_ctx_t;
  cookie : gmap N N
}.

Definition set_random
    (f : gmap N mi_random_ctx_t -> gmap N mi_random_ctx_t) (s : heap_seeds)
    : heap_seeds :=
  mk_seeds (f (random s)) (cookie s).
Definition set_cookie (f : gmap N N -> gmap N N) (s : heap_seeds)
    : heap_seeds :=
  mk_seeds (random s) (f (cookie s)).

Definition set_tld (t : N) (h : mi_heap_t) : mi_heap_t :=
  mk_heap t (pages_free_direct h) (pages h) (thread_delayed_free h)
          (thread_id h) (key0 h) (key1 h) (page_count h) (no_reclaim h)
          (abandoned_next h).
Definition set_thread_id (i : N) (h : mi_heap_t) : mi_heap_t :=
  mk_heap (tld h) (pages_free_direct h) (pages h) (thread_delayed_free h)
          i (key0 h) (key1 h) (page_count h) (no_reclaim h)
          (abandoned_next h).
Definition set_key0 (k : N) (h : mi_heap_t) : mi_heap_t :=
  mk_heap (tld h) (pages_free_direct h) (pages h) (thread_delayed_free h)
          (thread_id h) k (key1 h) (page_count h) (no_reclaim h)
          (abandoned_next h).
Definition set_key1 (k : N) (h : mi_heap_t) : mi_heap_t :=
  mk_heap (tld h) (pages_free_direct h) (pages h) (thread_delayed_free h)
          (thread_id h) (key0 h) k (page_count h) (no_reclaim h)
          (abandoned_next h).
Definition set_no_reclaim (b : bool) (h : mi_heap_t) : mi_heap_t :=
  mk_heap (tld h) (pages_free_direct h) (pages h) (thread_delayed_free h)
          (thread_id h) (key0 h) (key1 h) (page_count h) b
          (abandoned_next h).

(** A step that has a result only when the value is there. *)
Definition defined {A : Type} (o : option A) : M A :=
  fun w => match o with Some a => Some (a, w) | None => None end.

(** [mi_heap_get_default] *)
Definition mi_heap_get_default : M N :=
  modify mi_thread_init;;
  mi_get_default_heap.

(** [mi_heap_get_backing] *)
Definition mi_heap_get_backing : M N :=
  let* heap := mi_heap_get_default in
  let* hp := heap_get heap in
  let* td := tld_get (tld hp) in
  ret (heap_backing td).

(** [_mi_heap_random_next]: draws from [heap->random] *)
Definition _mi_heap_random_next (heap : N) (s : heap_seeds)
    : option (N * heap_seeds) :=
  match random s !! heap with
  | Some ctx =>
      let r := _mi_random_next ctx in
      Some (fst r, set_random <[heap := snd r]> s)
  | None => None
  end.

(** [mi_heap_new]; the result is the new heap, or [NULL], and the seeds as
    the call leaves them. *)
Definition mi_heap_new (s : heap_seeds) : M (N * heap_seeds) :=
  let* bheap := mi_heap_get_backing in
  let* heap := (fun w => Some (mi_heap_malloc_tp bheap w)) in
  if heap =? 0 then ret (0, s) else
  (* memcpy(heap, &_mi_heap_empty, sizeof(mi_heap_t)) *)
  modify (set_heaps <[heap := _mi_heap_empty]>);;
  let s := set_cookie <[heap := 0]> (set_random <[heap := random_empty]> s) in
  let* bh := heap_get bheap in
  heap_upd heap (set_tld (tld bh));;
  heap_upd heap (set_thread_id _mi_thread_id);;
  let* ctx := defined (random s !! bheap) in
  let* ctx_new := defined (random s !! heap) in
  let sp := _mi_random_split bheap ctx heap ctx_new in
  let s := set_random (fun r => <[heap := snd sp]> (<[bheap := fst sp]> r)) s in
  let* c := defined (_mi_heap_random_next heap s) in
  let s := set_cookie <[heap := N.lor (fst c) 1]> (snd c) in
  let* k0 := defined (_mi_heap_random_next heap s) in
  heap_upd heap (set_key0 (fst k0));;
  let* k1 := defined (_mi_heap_random_next heap (snd k0)) in
  heap_upd heap (set_key1 (fst k1));;
  heap_upd heap (set_no_reclaim true);;
  ret (heap, snd k1).

End HeapNew.

(** ** Predicates of the specification *)

Section Predicates.
Context {E : Externals}.

(** Invariant 2 of the data model: [page_count] is the number of pages
    linked from the queues [0 .. MI_BIN_FULL]. *)
Definition total_pages (hp : mi_heap_t) : nat :=
  sum_list (map (fun i => length (pages hp i)) (seq 0 (S MI_BIN_FULL))).
Definition page_count_ok (hp : mi_heap_t) : Prop :=
  page_count hp = N.of_nat (total_pages hp).

(** The [page_count] of the receiving heap after the queues [bins] of the
    heap [hpf] were appended to it, as the loop computes it from [c]. *)
Definition absorbed_count (hpf : mi_heap_t) (bins : list nat) (c : N) : N :=
  fold_left (fun c i => wrap (c + wrap (N.of_nat (length (pages hpf i)))))
            bins c.

(** Two records of a heap with the same delayed-free head and keys. *)
Definition same_links (hp hp' : mi_heap_t) : Prop :=
  thread_delayed_free hp' = thread_delayed_free hp /\
  key0 hp' = key0 hp /\ key1 hp' = key1 hp.

(** Where the block area of a page ends: its start plus the size of its
    committed blocks, capacity times block size, both in the arithmetic of
    the machine word. *)
Definition page_area_end (start : N) (pg : mi_page_t) : N :=
  wrap (start + wrap (capacity pg * xblock_size pg)).

(** [p] lies in the block area of [page]: from its start up to the end of
    its committed blocks. *)
Definition in_page_area (w : world) (p : N) (page : N) : bool :=
  match page_store w !! page with
  | Some pg =>
      let start := fst (_mi_page_start (_mi_page_segment page) page) in
      (start <=? p) && (p <? page_area_end start pg)
  | None => false
  end.

(** [p] is the base address of one of the blocks of [page]. *)
Definition block_base (w : world) (p : N) (page : N) : Prop :=
  exists pg i,
    page_store w !! page = Some pg /\ i < capacity pg /\
    p = fst (_mi_page_start (_mi_page_segment page) page) + i * xblock_size pg.

(** The abandoned heaps from [h] on, along [abandoned_next], up to [NULL]. *)
Inductive heap_chain (hs : gmap N mi_heap_t) : N -> list N -> Prop :=
| heap_chain_nil : heap_chain hs 0 []
| heap_chain_cons (h : N) (hp : mi_heap_t) (l : list N) :
    h <> 0 -> hs !! h = Some hp -> heap_chain hs (abandoned_next hp) l ->
    heap_chain hs h (h :: l).

Definition abandoned_stack (w : world) (l : list N) : Prop :=
  heap_chain (heaps w) (abandoned w) l.

(** Every heap of [l] holds at least one page. *)
Definition all_populated (w : world) (l : list N) : Prop :=
  forall h, h ∈ l -> exists hp, heaps w !! h = Some hp /\ 0 < page_count hp.

(** The blocks from [b] on, along the links decoded with [null], [k0] and
    [k1], up to (and without) [q]. *)
Inductive block_seg (bl : gmap N N) (null k0 k1 : N)
    : N -> list N -> N -> Prop :=
| block_seg_nil (q : N) : block_seg bl null k0 k1 q [] q
| block_seg_cons (b x : N) (l : list N) (q : N) :
    b <> 0 -> bl !! b = Some x ->
    block_seg bl null k0 k1 (mi_ptr_decode null x k0 k1) l q ->
    block_seg bl null k0 k1 b (b :: l) q.

(** The storage of [h] is held by the store and has not been released. *)
Definition heap_live (w : world) (h : N) : Prop :=
  is_Some (heaps w !! h) /\ h ∉ freed w.

(** Relations between the state before and after a computation.
    [calls_grow ok]: the calls recorded since are all [ok].
    [quiet S]: nothing was released, abandoned or made default, no heap
    came or went, only the heaps of [S] changed, and no heap changed its
    descriptor, its policy flag or its place in the abandoned list. *)
Definition calls_grow (ok : call -> Prop) (w w' : world) : Prop :=
  exists cs, calls w' = cs ++ calls w /\ Forall ok cs.

Definition same_identity (o o' : option mi_heap_t) : Prop :=
  match o, o' with
  | Some hp, Some hp' =>
      tld hp' = tld hp /\ no_reclaim hp' = no_reclaim hp /\
      abandoned_next hp' = abandoned_next hp /\
      key0 hp' = key0 hp /\ key1 hp' = key1 hp
  | None, None => True
  | _, _ => False
  end.

Definition quiet (S : list N) (w w' : world) : Prop :=
  tlds w' = tlds w /\ abandoned w' = abandoned w /\
  default_heap w' = default_heap w /\ freed w' = freed w /\
  forall x,
    (x ∉ S -> heaps w' !! x = heaps w !! x) /\
    same_identity (heaps w !! x) (heaps w' !! x).

(** [steady]: no heap came or went and no heap changed its descriptor;
    the descriptors are what they were. *)
Definition same_tld (o o' : option mi_heap_t) : Prop :=
  match o, o' with
  | Some hp, Some hp' => tld hp' = tld hp
  | None, None => True
  | _, _ => False
  end.

Definition steady (w w' : world) : Prop :=
  tlds w' = tlds w /\
  forall x, same_tld (heaps w !! x) (heaps w' !! x).

(** [stack_kept h]: an abandoned list of populated heaps without [h] is
    still one afterwards, possibly shorter at its head. *)
Definition stack_kept (h : N) (w w' : world) : Prop :=
  forall l, abandoned_stack w l -> all_populated w l -> h ∉ l ->
  exists l', abandoned_stack w' l' /\ all_populated w' l' /\ (h ∉ l') /\
             (l' `suffix_of` l).

(** [stack_taken h]: of an abandoned list of populated heaps without [h],
    some heaps at its head were taken off and released, one after the
    other; the rest is the abandoned list now, its heaps are populated
    still, and nothing else was released or made the default heap. *)
Definition stack_taken (h : N) (w w' : world) : Prop :=
  forall l, abandoned_stack w l -> all_populated w l -> h ∉ l ->
  exists l1 l2,
    l = l1 ++ l2 /\ abandoned_stack w' l2 /\ all_populated w' l2 /\
    (h ∉ l2) /\ freed w' = rev l1 ++ freed w /\
    default_heap w' = default_heap w.

(** [abandoned_same]: the head of the abandoned list is what it was. *)
Definition abandoned_same (w w' : world) : Prop := abandoned w' = abandoned w.

(** [default_same]: the default heap of the thread is what it was. *)
Definition default_same (w w' : world) : Prop :=
  default_heap w' = default_heap w.

(** A computation that, whenever it returns, relates the states by [R]. *)
Definition steps {A : Type} (R : world -> world -> Prop) (m : M A) : Prop :=
  forall w a w', m w = Some (a, w') -> R w w'.

(** What the proofs assume of the collaborators: one that works on a heap
    changes that heap only, one that works on pages, segments or statistics
    changes no heap, and none records a call of this file.  The two
    functions of the link encoding are inverse to each other. *)
Class ExternalsOk : Prop := {
  decode_encode : forall null p k0 k1,
    mi_ptr_decode null (mi_ptr_encode null p k0 k1) k0 k1 = p;
  deferred_free_quiet : forall h force w,
    quiet [h] w (_mi_deferred_free h force w) /\
    calls (_mi_deferred_free h force w) = calls w;
  delayed_free_quiet : forall h w,
    quiet [h] w (_mi_heap_delayed_free h w) /\
    calls (_mi_heap_delayed_free h w) = calls w;
  collect_retired_quiet : forall h force w,
    quiet [h] w (_mi_heap_collect_retired h force w) /\
    calls (_mi_heap_collect_retired h force w) = calls w;
  segment_thread_collect_quiet : forall t w,
    quiet [] w (_mi_segment_thread_collect t w) /\
    calls (_mi_segment_thread_collect t w) = calls w;
  mem_collect_quiet : forall t w,
    quiet [] w (_mi_mem_collect t w) /\
    calls (_mi_mem_collect t w) = calls w;
  stats_done_quiet : forall t w,
    quiet [] w (_mi_stats_done t w) /\
    calls (_mi_stats_done t w) = calls w;
  segments_absorb_quiet : forall i t t' w,
    quiet [] w (_mi_segments_absorb i t t' w) /\
    calls (_mi_segments_absorb i t t' w) = calls w;
  stat_decrease_giant_quiet : forall t n w,
    quiet [] w (_mi_stat_decrease_giant t n w) /\
    calls (_mi_stat_decrease_giant t n w) = calls w;
  stat_decrease_huge_quiet : forall t n w,
    quiet [] w (_mi_stat_decrease_huge t n w) /\
    calls (_mi_stat_decrease_huge t n w) = calls w;
  segment_page_free_quiet : forall page force t w,
    quiet [] w (_mi_segment_page_free page force t w) /\
    calls (_mi_segment_page_free page force t w) = calls w;
  page_free_collect_quiet : forall page force w,
    quiet [] w (_mi_page_free_collect page force w) /\
    calls (_mi_page_free_collect page force w) = calls w
}.

End Predicates.

(** ** Walks, as lists

    The pages and the blocks that the visitors go through, in the order in
    which they go through them, and the visit of such a list. *)

Section Walks.
Context {E : Externals}.

(** The pages of the queues [bins] of a heap, queue by queue, each with the
    address of its queue. *)
Definition queued_pages (heap : N) (hp : mi_heap_t) (bins : list nat)
    : list (mi_page_queue_ptr * N) :=
  flat_map (fun i => map (fun page => ((heap, i), page)) (pages hp i)) bins.

(** Call [fn] on the pages of [l] one after the other; stop at the first
    call that answers false. *)
Fixpoint visit_each_page {A : Type} (fn : heap_page_visitor_fun A)
    (heap : N) (l : list (mi_page_queue_ptr * N)) (a : A) : M (bool * A) :=
  match l with
  | [] => ret (true, a)
  | (pq, page) :: l' =>
      let* r := fn heap pq page a in
      if fst r then visit_each_page fn heap l' (snd r)
      else ret (false, snd r)
  end.

(** The area of a page, as [mi_heap_visit_areas_page] fills it in. *)
Definition area_of_page (page : N) (pg : mi_page_t) : mi_heap_area_t :=
  mk_area (fst (_mi_page_start (_mi_page_segment page) page))
          (wrap (reserved pg * xblock_size pg))
          (wrap (capacity pg * xblock_size pg))
          (used pg)
          (xblock_size pg).

(** Call [visitor] on the areas of the pages of [l] one after the other,
    each after the free lists of its page were collected, with no block;
    stop at the first call that answers false. *)
Fixpoint visit_each_area (visitor : mi_block_visit_fun) (heap : N)
    (l : list N) : M bool :=
  match l with
  | [] => ret true
  | page :: l' =>
      modify (_mi_page_free_collect page false);;
      let* pg := page_get page in
      let* ok := visitor heap (area_of_page page pg) 0 (xblock_size pg) in
      if negb ok then ret false else visit_each_area visitor heap l'
  end.

(** The heap's queues are what they were. *)
Definition same_queues (heap : N) (w w' : world) : Prop :=
  forall hp, heaps w !! heap = Some hp ->
  exists hp', heaps w' !! heap = Some hp' /\ pages hp' = pages hp.

(** Call [visitor] on the blocks of [bs] one after the other; stop at the
    first call that answers false. *)
Fixpoint visit_each_block (visitor : mi_block_visit_fun) (owner : N)
    (area : mi_heap_area_t) (bsize : N) (bs : list N) : M bool :=
  match bs with
  | [] => ret true
  | block :: bs' =>
      let* ok := visitor owner area block bsize in
      if negb ok then ret false
      else visit_each_block visitor owner area bsize bs'
  end.

(** The page is what it was. *)
Definition same_page (page : N) (w w' : world) : Prop :=
  page_store w' !! page = page_store w !! page.

(** The free list of a page from [b] on, along [mi_block_next], up to
    [NULL]. *)
Inductive free_chain (w : world) (page : N) : N -> list N -> Prop :=
| free_chain_nil : free_chain w page 0 []
| free_chain_cons (b : N) (l : list N) :
    b <> 0 -> free_chain w page (mi_block_next page b w) l ->
    free_chain w page b (b :: l).

(** Where the blocks of a page start. *)
Definition page_blocks_start (page : N) : N :=
  fst (_mi_page_start (_mi_page_segment page) page).

(** The index of a block in its page, as the walk over the free list
    computes it. *)
Definition block_index (pstart bsize block : N) : N :=
  wrap_sub block pstart / bsize.

(** The number of blocks that the bitmap of free blocks has room for:
    [MI_INTPTR_SIZE] of them in each of its words. *)
Definition free_map_words : nat := N.to_nat (MI_MAX_BLOCKS / MI_INTPTR_SIZE).
Definition free_map_room : N := N.of_nat free_map_words * MI_INTPTR_SIZE.

(** Bit [i mod MI_INTPTR_SIZE] of word [i / MI_INTPTR_SIZE] of the bitmap. *)
Definition marked (free_map : list N) (i : N) : bool :=
  match free_map !! N.to_nat (i / MI_INTPTR_SIZE) with
  | Some m => N.testbit m (i mod MI_INTPTR_SIZE)
  | None => false
  end.

(** The indices [i .. i + n - 1]. *)
Fixpoint indices (n : nat) (i : N) : list N :=
  match n with
  | O => []
  | S n' => i :: indices n' (i + 1)
  end.

(** The address of block [i] of a page: the start of the blocks plus [i]
    times the block size, in the arithmetic of the machine word. *)
Definition block_at (pstart bsize i : N) : N :=
  wrap (pstart + wrap (i * bsize)).

(** The blocks of a page of [cap] blocks whose index is not among [idxs],
    by increasing index. *)
Definition blocks_but (pstart bsize cap : N) (idxs : list N) : list N :=
  map (block_at pstart bsize)
      (filter (fun i => i ∉ idxs) (indices (N.to_nat cap) 0)).

(** Every page of the queues of the heap is in the store and names the
    heap as its owner. *)
Definition owns_pages (w : world) (heap : N) (hp : mi_heap_t) : Prop :=
  forall i page, (i <= MI_BIN_FULL)%nat -> page ∈ pages hp i ->
  exists pg, page_store w !! page = Some pg /\ xheap pg = heap.

End Walks.

(** ** A small configuration on which the statements are exercised

    Three page queues, 64-bit words, XOR-encoded links, collaborators that
    leave the state alone, and a page whose block area starts 256 times its
    own address. *)
Definition demo : Externals := {|
  MI_BIN_FULL := 2;
  MI_INTPTR_SHIFT := 3;
  MI_SMALL_PAGE_SIZE := 65536;
  MI_LARGE_OBJ_SIZE_MAX := 4194304;
  MI_HUGE_OBJ_SIZE_MAX := 1073741824;
  mi_ptr_encode := fun null p k0 k1 => N.lxor (N.lxor p k0) k1;
  mi_ptr_decode := fun null x k0 k1 => N.lxor (N.lxor x k1) k0;
  mi_block_next := fun page block w => default 0 (blocks w !! block);
  _mi_page_segment := fun page => 4096 * (page / 4096);
  _mi_page_start := fun segment page => (256 * page, 4096);
  _mi_ptr_segment := fun p => 4096 * (p / 4096);
  _mi_ptr_cookie := fun p => N.lxor p 165;
  _mi_segment_page_of := fun segment p => p / 256;
  _mi_is_main_thread := fun w => true;
  _mi_deferred_free := fun h force w => w;
  _mi_heap_delayed_free := fun h w => w;
  _mi_heap_collect_retired := fun h force w => w;
  _mi_segment_thread_collect := fun t w => w;
  _mi_mem_collect := fun t w => w;
  _mi_stats_done := fun t w => w;
  _mi_segments_absorb := fun i t t' w => w;
  _mi_stat_decrease_giant := fun t n w => w;
  _mi_stat_decrease_huge := fun t n w => w;
  _mi_segment_page_free := fun page force t w => w;
  _mi_page_free_collect := fun page force w => w
|}.

(** The heaps of the configuration: a backing heap at 4096 with one page
    in queue 1, a child heap at 8192 with one page in queue 2 and two
    blocks on its delayed-free list, a heap at 12288 that is not
    initialized, and a heap at 16384 without pages but with one block on
    its delayed-free list.  The thread-local descriptor is at 1280. *)
Definition queues_of (i : nat) (q : mi_page_queue_t) : nat -> mi_page_queue_t :=
  fun j => if Nat.eqb j i then q else [].

Definition demo_backing : mi_heap_t :=
  mk_heap 1280 (fun _ => 0) (queues_of 1 [64]) 16432 1 3 6 1 false 0.
Definition demo_child : mi_heap_t :=
  mk_heap 1280 (fun _ => 0) (queues_of 2 [80]) 20480 1 5 9 1 true 0.
Definition demo_uninit : mi_heap_t := _mi_heap_empty.
Definition demo_stray : mi_heap_t :=
  mk_heap 1280 (fun _ => 0) (fun _ => []) 24576 1 7 11 0 true 0.

Definition demo_pages : gmap N mi_page_t :=
  <[64 := mk_page 4096 16 4 8 3 16384 0]>
  (<[80 := mk_page 8192 32 2 2 0 0 0]> ∅).

Definition demo_blocks : gmap N N :=
  <[16384 := 0]>
  (<[16432 := mi_ptr_encode (Externals := demo) 4096 0 3 6]>
  (<[20480 := mi_ptr_encode (Externals := demo) 8192 20512 5 9]>
  (<[20512 := mi_ptr_encode (Externals := demo) 8192 0 5 9]>
  (<[24576 := mi_ptr_encode (Externals := demo) 16384 0 7 11]> ∅)))).

Definition demo_world : world :=
  mk_world
    (<[4096 := demo_backing]>
     (<[8192 := demo_child]>
     (<[12288 := demo_uninit]>
     (<[16384 := demo_stray]> ∅))))
    (<[1280 := mk_tld 4096]> ∅)
    demo_pages
    (<[16384 := mk_segment (N.lxor 16384 165) 1]> ∅)
    demo_blocks
    0 8192 [] [].

(** A second configuration: the backing heap at 4096 as before, and two
    abandoned heaps on the abandoned list, 20480 and then 24576, each with
    one page and a descriptor of its own. *)
Definition demo_abandoned1 : mi_heap_t :=
  mk_heap 1536 (fun _ => 0) (queues_of 0 [96]) 0 2 13 17 1 false 24576.
Definition demo_abandoned2 : mi_heap_t :=
  mk_heap 1792 (fun _ => 0) (queues_of 1 [112]) 0 3 19 23 1 false 0.

Definition demo_world2 : world :=
  mk_world
    (<[4096 := demo_backing]>
     (<[20480 := demo_abandoned1]>
     (<[24576 := demo_abandoned2]> ∅)))
    (<[1280 := mk_tld 4096]>
     (<[1536 := mk_tld 20480]>
     (<[1792 := mk_tld 24576]> ∅)))
    (<[64 := mk_page 4096 16 4 8 3 16384 0]>
     (<[96 := mk_page 20480 64 4 4 1 0 0]>
     (<[112 := mk_page 24576 16 8 8 2 0 0]> ∅)))
    ∅
    demo_blocks
    20480 4096 [] [].

(** The state after the backing heap of the second configuration has run
    a collect in mode ABANDON, and after it has run the whole abandon. *)
Definition demo_after_collect : world :=
  match mi_heap_collect_ex (E := demo) 8 4096 ABANDON demo_world2 with
  | Some (_, w) => w
  | None => demo_world2
  end.
Definition demo_after_abandon : world :=
  match _mi_heap_collect_abandon (E := demo) 8 4096 demo_world2 with
  | Some (_, w) => w
  | None => demo_world2
  end.

(** A third configuration: a thread whose backing heap, at 4096, holds no
    page and is the default heap; and the state after that heap has been
    deleted. *)
Definition demo_idle : mi_heap_t :=
  mk_heap 1280 (fun _ => 0) (fun _ => []) 0 1 3 6 0 false 0.

Definition demo_world3 : world :=
  mk_world (<[4096 := demo_idle]> ∅) (<[1280 := mk_tld 4096]> ∅)
           ∅ ∅ ∅ 0 4096 [] [].

Definition demo_after_delete3 : world :=
  match mi_heap_delete (E := demo) 8 4096 demo_world3 with
  | Some (_, w) => w
  | None => demo_world3
  end.

(** The first configuration after its backing heap has been deleted. *)
Definition demo_after_delete : world :=
  match mi_heap_delete (E := demo) 8 4096 demo_world with
  | Some (_, w) => w
  | None => demo_world
  end.

(** The first and the third configuration after the heap at 4096 has run
    a collect in mode ABANDON, which is how its delete begins. *)
Definition demo_collected : world :=
  match mi_heap_collect_ex (E := demo) 8 4096 ABANDON demo_world with
  | Some (_, w) => w
  | None => demo_world
  end.
Definition demo_collected3 : world :=
  match mi_heap_collect_ex (E := demo) 8 4096 ABANDON demo_world3 with
  | Some (_, w) => w
  | None => demo_world3
  end.

(** The second configuration after a forced collect and after a collect in
    mode NORMAL by the heap at 4096; the first configuration after the
    child heap at 8192 has been deleted, and after it has been destroyed. *)
Definition demo_after_force : world :=
  match mi_heap_collect (E := demo) 8 4096 true demo_world2 with
  | Some (_, w) => w
  | None => demo_world2
  end.
Definition demo_after_normal : world :=
  match mi_heap_collect_ex (E := demo) 8 4096 NORMAL demo_world2 with
  | Some (_, w) => w
  | None => demo_world2
  end.
Definition demo_after_child_delete : world :=
  match mi_heap_delete (E := demo) 8 8192 demo_world with
  | Some (_, w) => w
  | None => demo_world
  end.
Definition demo_after_child_destroy : world :=
  match mi_heap_destroy (E := demo) 8 8192 demo_world with
  | Some (_, w) => w
  | None => demo_world
  end.

(** The second configuration with the heap at 4096 as the only abandoned
    heap; the heaps at 20480 and 24576 still form a list of their own. *)
Definition demo_world4 : world := set_abandoned 4096 demo_world2.

(** The first configuration with the segment of the page at 80. *)
Definition demo_world5 : world :=
  mk_world (heaps demo_world) (tlds demo_world) (page_store demo_world)
           (<[20480 := mk_segment (N.lxor 20480 165) 1]> (segments demo_world))
           (blocks demo_world) 0 8192 [] [].

(** A thread library, an allocator and a random source for the
    configuration: the allocation gives the storage at 28672. *)
Definition demo_creation : Creation := {|
  mi_random_ctx_t := N;
  random_empty := 0;
  mi_thread_init := fun w => w;
  _mi_thread_id := 1;
  mi_heap_malloc_tp := fun heap w => (28672, w);
  _mi_random_split := fun a ctx b ctx_new => (ctx + 1, 2 * ctx + b);
  _mi_random_next := fun ctx => (5 * ctx + 3, ctx + 7)
|}.

Definition demo_seeds : heap_seeds (C := demo_creation) :=
  mk_seeds (C := demo_creation) (<[4096 := 11]> ∅) ∅.



(** The first configuration with [no_reclaim] cleared on the child heap at
    8192, and the state after that heap has been destroyed. *)
Definition demo_open_child : mi_heap_t := set_no_reclaim false demo_child.

Definition demo_world6 : world :=
  set_heaps <[8192 := demo_open_child]> demo_world.

Definition demo_after_open_destroy : world :=
  match mi_heap_destroy (E := demo) 8 8192 demo_world6 with
  | Some (_, w) => w
  | None => demo_world6
  end.

(** A visitor of blocks that goes on. *)
Definition demo_visitor : mi_block_visit_fun := fun _ _ _ _ => ret true.

(** ** Running the monad *)

Lemma bind_Some {A B : Type} (m : M A) (k : A -> M B) (w : world) a w' :
  m w = Some (a, w') -> bind m k w = k a w'.
Proof. intros H. unfold bind. now rewrite H. Qed.

Lemma bind_inv {A B : Type} (m : M A) (k : A -> M B) (w : world) r :
  bind m k w = Some r ->
  exists a w', m w = Some (a, w') /\ k a w' = Some r.
Proof.
  unfold bind. destruct (m w) as [[a w']|] eqn:Hm; [|discriminate].
  intros H. now exists a, w'.
Qed.

Lemma bind_bind {A B C : Type} (m : M A) (f : A -> M B) (g : B -> M C)
    (w : world) :
  bind (bind m f) g w = bind m (fun a => bind (f a) g) w.
Proof. unfold bind. now destruct (m w) as [[a w']|]. Qed.

Lemma heap_get_Some (heap : N) (w : world) hp :
  heaps w !! heap = Some hp -> heap_get heap w = Some (hp, w).
Proof. intros H. unfold heap_get, deref. now rewrite H. Qed.

Lemma heap_get_inv (heap : N) (w : world) hp w' :
  heap_get heap w = Some (hp, w') -> heaps w !! heap = Some hp /\ w' = w.
Proof.
  unfold heap_get, deref. destruct (heaps w !! heap); [|discriminate].
  intros [= -> ->]. now split.
Qed.

Lemma tld_get_Some (t : N) (w : world) td :
  tlds w !! t = Some td -> tld_get t w = Some (td, w).
Proof. intros H. unfold tld_get, deref. now rewrite H. Qed.

Lemma page_get_Some (page : N) (w : world) pg :
  page_store w !! page = Some pg -> page_get page w = Some (pg, w).
Proof. intros H. unfold page_get, deref. now rewrite H. Qed.

(** The end of a queue is an end of it, and so is what follows its first
    page. *)
Lemma queue_tail_refl (q : mi_page_queue_t) : queue_tail q q = true.
Proof.
  destruct q; cbn [queue_tail]; now rewrite bool_decide_eq_true_2.
Qed.

Lemma queue_tail_cons (x : N) (t q : mi_page_queue_t) :
  queue_tail (x :: t) q = true -> queue_tail t q = true.
Proof.
  induction q as [|y q IH]; cbn [queue_tail].
  - rewrite bool_decide_eq_false_2 by discriminate. discriminate.
  - intros [H|H]%orb_true_iff.
    + apply bool_decide_eq_true in H. injection H as _ <-.
      rewrite queue_tail_refl. apply orb_true_r.
    + rewrite (IH H). apply orb_true_r.
Qed.

(** Unfold the monad and run it along the lookups that are known. *)
Ltac unfold_m :=
  unfold heap_upd, page_upd, heap_get, tld_get, page_get, segment_get,
    record_call, bind, ret, gets, modify, deref, undefined.
Ltac run :=
  repeat (cbn beta iota;
          try match goal with
              | H : ?m !! ?k = _ |- context [?m !! ?k] => rewrite H
              end).

Section Uninitialized.
Context {E : Externals}.

Lemma is_initialized_Some (heap : N) (w : world) hp :
  heaps w !! heap = Some hp ->
  mi_heap_is_initialized heap w = Some (negb (tld hp =? 0), w).
Proof.
  intros H. unfold mi_heap_is_initialized.
  now rewrite (bind_Some _ _ _ _ _ (heap_get_Some _ _ _ H)).
Qed.

(** C7. On a heap that is not initialized (its [tld] is [NULL]) every core
    operation returns at once and leaves the whole state as it was:
    collect in each mode, delete and destroy do nothing, set_default
    answers [NULL] and keeps the default heap, and contains_block and
    check_owned answer false for every pointer. *)
Theorem uninitialized_heap_is_inert (fuel : nat) (heap : N) (w : world) hp :
  heaps w !! heap = Some hp -> tld hp = 0 ->
  (forall mode, mi_heap_collect_ex fuel heap mode w = Some (tt, w)) /\
  mi_heap_delete fuel heap w = Some (tt, w) /\
  mi_heap_destroy fuel heap w = Some (tt, w) /\
  mi_heap_set_default heap w = Some (0, w) /\
  (forall p, mi_heap_contains_block heap p w = Some (false, w)) /\
  (forall p, mi_heap_check_owned heap p w = Some (false, w)).
Proof.
  intros Hh Ht.
  pose proof (is_initialized_Some heap w hp Hh) as Hi.
  rewrite Ht in Hi. simpl in Hi.
  repeat split; intros;
    [ unfold mi_heap_collect_ex | unfold mi_heap_delete
    | unfold mi_heap_destroy | unfold mi_heap_set_default
    | unfold mi_heap_contains_block | unfold mi_heap_check_owned ];
    now rewrite (bind_Some _ _ _ _ _ Hi).
Qed.

End Uninitialized.

Lemma uninitialized_heap_is_inert_witness :
  (forall mode,
     mi_heap_collect_ex (E := demo) 8 12288 mode demo_world
     = Some (tt, demo_world)) /\
  mi_heap_delete (E := demo) 8 12288 demo_world = Some (tt, demo_world) /\
  mi_heap_destroy (E := demo) 8 12288 demo_world = Some (tt, demo_world) /\
  mi_heap_set_default 12288 demo_world = Some (0, demo_world) /\
  (forall p, mi_heap_contains_block (E := demo) 12288 p demo_world
             = Some (false, demo_world)) /\
  (forall p, mi_heap_check_owned (E := demo) 12288 p demo_world
             = Some (false, demo_world)).
Proof.
  apply (uninitialized_heap_is_inert (E := demo) 8 12288 demo_world demo_uninit).
  - reflexivity.
  - reflexivity.
Defined.

Section EmptyHeap.
Context {E : Externals}.

Lemma visit_pages_empty {A : Type} (heap : N) (fn : heap_page_visitor_fun A)
    (a : A) (w : world) :
  heap = 0 \/ (exists hp, heaps w !! heap = Some hp /\ page_count hp = 0) ->
  mi_heap_visit_pages heap fn a w = Some ((false, a), w).
Proof.
  unfold mi_heap_visit_pages. intros [-> | (hp & Hh & Hc)]; [reflexivity|].
  destruct (heap =? 0); [reflexivity|].
  rewrite (bind_Some _ _ _ _ _ (heap_get_Some _ _ _ Hh)).
  now rewrite Hc.
Qed.

(** C9. For a heap that is [NULL] or whose [page_count] is 0 the page
    iterator answers false and calls no visitor: whatever the visitor is,
    the state is left as it was.  Hence [mi_heap_visit_blocks] answers
    false on an empty heap although no callback ran or asked to stop. *)
Theorem visit_empty_heap_is_false (fuel : nat) (heap : N) (w : world) :
  heap = 0 \/ (exists hp, heaps w !! heap = Some hp /\ page_count hp = 0) ->
  (forall (A : Type) (fn : heap_page_visitor_fun A) (a : A),
     mi_heap_visit_pages heap fn a w = Some ((false, a), w)) /\
  (forall (visit_blocks : bool) (visitor : mi_block_visit_fun),
     mi_heap_visit_blocks fuel heap visit_blocks visitor w = Some (false, w)).
Proof.
  intros H. split.
  - intros A fn a. now apply visit_pages_empty.
  - intros vb visitor. unfold mi_heap_visit_blocks, mi_heap_visit_areas.
    now rewrite (bind_Some _ _ _ _ _ (visit_pages_empty heap _ tt w H)).
Qed.

End EmptyHeap.

Lemma visit_empty_heap_is_false_witness :
  (forall (A : Type) (fn : heap_page_visitor_fun A) (a : A),
     mi_heap_visit_pages (E := demo) 16384 fn a demo_world
     = Some ((false, a), demo_world)) /\
  (forall (visit_blocks : bool) (visitor : mi_block_visit_fun),
     mi_heap_visit_blocks (E := demo) 8 16384 visit_blocks visitor demo_world
     = Some (false, demo_world)).
Proof.
  apply (visit_empty_heap_is_false (E := demo) 8 16384 demo_world).
  right. exists demo_stray. split; reflexivity.
Defined.

Section CheckOwned.
Context {E : Externals}.

Lemma intptr_size_pow2 : MI_INTPTR_SIZE = 2 ^ MI_INTPTR_SHIFT.
Proof. unfold MI_INTPTR_SIZE. now rewrite N.shiftl_1_l. Qed.

Lemma aligned_land (p : N) :
  N.land p (MI_INTPTR_SIZE - 1) = 0 <-> p mod MI_INTPTR_SIZE = 0.
Proof.
  rewrite intptr_size_pow2, <- N.pred_sub, <- N.ones_equiv, N.land_ones.
  reflexivity.
Qed.

Lemma total_pages_zero (hp : mi_heap_t) (i : nat) :
  total_pages hp = 0%nat -> (i <= MI_BIN_FULL)%nat -> pages hp i = [].
Proof.
  unfold total_pages. intros Hs Hi.
  assert (Hin : i ∈ seq 0 (S MI_BIN_FULL)) by (apply elem_of_seq; lia).
  revert Hs Hin. generalize (seq 0 (S MI_BIN_FULL)) as bins.
  induction bins as [|j bins IH]; intros Hs Hin.
  - inversion Hin.
  - simpl in Hs. apply elem_of_cons in Hin as [-> | Hin].
    + destruct (pages hp j); [reflexivity | simpl in Hs; lia].
    + apply IH; [lia | exact Hin].
Qed.

(** One queue: [found] ends up true exactly when some page of the queue
    contains [p]; the walk stops at the first such page. *)
Lemma visit_queue_check_owned (p heap : N) (pq : mi_page_queue_ptr)
    (q : mi_page_queue_t) (w : world) hp :
  heaps w !! fst pq = Some hp -> queue_tail q (pages hp (snd pq)) = true ->
  (forall page, page ∈ q -> is_Some (page_store w !! page)) ->
  visit_queue (mi_heap_page_check_owned p) heap pq q false w
  = Some ((negb (existsb (in_page_area w p) q),
           existsb (in_page_area w p) q), w).
Proof.
  intros Hh. induction q as [|page q IH]; intros Ht Hq; [reflexivity|].
  destruct (Hq page) as [pg Hpg]; [left|].
  assert (IH' := IH (queue_tail_cons _ _ _ Ht)
                    (fun page' Hin => Hq page' ltac:(now right))).
  cbn [visit_queue existsb].
  rewrite (bind_Some _ _ _ _ _ (heap_get_Some _ _ _ Hh)), Ht. cbn [negb].
  unfold in_page_area at 1 3. rewrite Hpg. unfold page_area_end.
  unfold mi_heap_page_check_owned at 1, mi_page_block_size.
  unfold_m. run. cbn [fst snd].
  destruct (_ && _); cbn [negb orb]; [reflexivity | exact IH'].
Qed.

Lemma visit_bins_check_owned (p heap : N) (bins : list nat) (w : world) hp :
  heaps w !! heap = Some hp ->
  (forall i page, i ∈ bins -> page ∈ pages hp i ->
     is_Some (page_store w !! page)) ->
  visit_bins (mi_heap_page_check_owned p) heap bins false w
  = Some ((negb (existsb (fun i => existsb (in_page_area w p) (pages hp i)) bins),
           existsb (fun i => existsb (in_page_area w p) (pages hp i)) bins), w).
Proof.
  intros Hh. induction bins as [|i bins IH]; intros Hq; [reflexivity|].
  cbn [visit_bins existsb].
  rewrite (bind_Some _ _ _ _ _ (heap_get_Some _ _ _ Hh)).
  rewrite (bind_Some _ _ _ _ _
             (visit_queue_check_owned p heap (heap, i) (pages hp i) w hp
                Hh (queue_tail_refl _)
                (fun page Hin => Hq i page ltac:(left) Hin))).
  cbn [fst snd].
  destruct (existsb (in_page_area w p) (pages hp i)); cbn [negb orb];
    [reflexivity|].
  apply IH. intros j page Hj. apply Hq. now right.
Qed.

Ltac fold_area :=
  repeat match goal with
         | |- context [wrap (?s + wrap (capacity ?pg * xblock_size ?pg))] =>
             change (wrap (s + wrap (capacity pg * xblock_size pg)))
               with (page_area_end s pg)
         end.

Lemma in_page_area_true (w : world) (p page : N) :
  in_page_area w p page = true <->
  exists pg, page_store w !! page = Some pg /\
    fst (_mi_page_start (_mi_page_segment page) page) <= p /\
    p < page_area_end
          (fst (_mi_page_start (_mi_page_segment page) page)) pg.
Proof.
  unfold in_page_area. destruct (page_store w !! page) as [pg|].
  - rewrite andb_true_iff, N.leb_le, N.ltb_lt. split.
    + intros [H1 H2]. now exists pg.
    + intros (pg' & [= <-] & H1 & H2). now split.
  - split; [discriminate | intros (pg & Hpg & _); discriminate].
Qed.

(** C1, as the code has it.  For an initialized heap whose [page_count]
    counts its pages, [mi_heap_check_owned] answers true exactly when [p]
    is aligned to the machine word and lies in the block area of one of
    the heap's pages, from the start of the area up to the end that the
    code computes for it: the start plus capacity times block size, the
    product and the sum taken in the arithmetic of the machine word.  The
    test is a range test: it does not ask for a block base and does not
    look at any free list. *)
Theorem check_owned_is_area_test (heap p : N) (w : world) hp :
  heap <> 0 -> heaps w !! heap = Some hp -> tld hp <> 0 ->
  page_count_ok hp ->
  (forall i page, (i <= MI_BIN_FULL)%nat -> page ∈ pages hp i ->
     is_Some (page_store w !! page)) ->
  exists b, mi_heap_check_owned heap p w = Some (b, w) /\
    (b = true <->
     p mod MI_INTPTR_SIZE = 0 /\
     exists i page pg, (i <= MI_BIN_FULL)%nat /\ page ∈ pages hp i /\
       page_store w !! page = Some pg /\
       fst (_mi_page_start (_mi_page_segment page) page) <= p /\
       p < wrap (fst (_mi_page_start (_mi_page_segment page) page)
                 + wrap (capacity pg * xblock_size pg))).
Proof.
  intros Hnz Hh Ht Hpc Hps. fold_area.
  unfold mi_heap_check_owned.
  rewrite (bind_Some _ _ _ _ _ (is_initialized_Some heap w hp Hh)).
  apply N.eqb_neq in Ht. rewrite Ht. cbn [negb].
  destruct (N.land p (MI_INTPTR_SIZE - 1) =? 0) eqn:Hal; cbn [negb].
  2:{ exists false. split; [reflexivity|]. split; [discriminate|].
      intros [Hm _]. apply aligned_land in Hm. apply N.eqb_neq in Hal.
      contradiction. }
  apply N.eqb_eq, aligned_land in Hal.
  unfold mi_heap_visit_pages. apply N.eqb_neq in Hnz. rewrite Hnz.
  unfold bind at 1. rewrite (bind_Some _ _ _ _ _ (heap_get_Some _ _ _ Hh)).
  destruct (page_count hp =? 0) eqn:Hc.
  - exists false. split; [reflexivity|]. split; [discriminate|].
    intros (_ & i & page & pg & Hi & Hin & _).
    apply N.eqb_eq in Hc. red in Hpc. rewrite Hc in Hpc.
    rewrite (total_pages_zero hp i) in Hin; [inversion Hin | lia | exact Hi].
  - rewrite (visit_bins_check_owned p heap _ w hp Hh).
    2:{ intros i page Hi. apply Hps. apply elem_of_seq in Hi. lia. }
    eexists. split; [reflexivity|]. cbn [snd].
    rewrite existsb_exists. split.
    + intros (i & Hi & Hex). split; [exact Hal|].
      apply existsb_exists in Hex as (page & Hin & Har).
      apply in_page_area_true in Har as (pg & Hpg & H1 & H2).
      exists i, page, pg. repeat split; try assumption.
      * apply in_seq in Hi. lia.
      * now apply list_elem_of_In.
    + intros (_ & i & page & pg & Hi & Hin & Hpg & H1 & H2).
      exists i. split; [apply in_seq; lia|].
      apply existsb_exists. exists page. split; [now apply list_elem_of_In|].
      apply in_page_area_true. now exists pg.
Qed.

End CheckOwned.

Lemma demo_backing_pages_present (i : nat) (page : N) :
  (i <= 2)%nat -> page ∈ pages demo_backing i ->
  is_Some (page_store demo_world !! page).
Proof.
  intros Hi Hin. destruct i as [|[|[|i]]]; try lia.
  - inversion Hin.
  - apply list_elem_of_singleton in Hin as ->. now eexists.
  - inversion Hin.
Defined.

Lemma check_owned_is_area_test_witness :
  exists b,
    mi_heap_check_owned (E := demo) 4096 16392 demo_world
    = Some (b, demo_world) /\
    (b = true <->
     16392 mod MI_INTPTR_SIZE (E := demo) = 0 /\
     exists i page pg, (i <= 2)%nat /\ page ∈ pages demo_backing i /\
       page_store demo_world !! page = Some pg /\
       fst (_mi_page_start (Externals := demo)
              (_mi_page_segment (Externals := demo) page) page) <= 16392 /\
       16392 < wrap (E := demo)
                 (fst (_mi_page_start (Externals := demo)
                         (_mi_page_segment (Externals := demo) page) page)
                  + wrap (E := demo) (capacity pg * xblock_size pg))).
Proof.
  apply (check_owned_is_area_test (E := demo) 4096 16392 demo_world
           demo_backing).
  - discriminate.
  - reflexivity.
  - discriminate.
  - reflexivity.
  - exact demo_backing_pages_present.
Defined.

(** C1 as stated fails.  In the configuration, 16392 is word-aligned and
    lies 8 bytes inside the first 16-byte block of page 64 of the heap at
    4096: it is the base of no block, and it is reported owned.  And 16384
    is the base of a block that heads the free list of its page, and it is
    reported owned as well. *)
Lemma check_owned_iff_allocated_base_fails :
  mi_heap_check_owned (E := demo) 4096 16392 demo_world
  = Some (true, demo_world) /\
  (forall page, ~ block_base (E := demo) demo_world 16392 page) /\
  mi_heap_check_owned (E := demo) 4096 16384 demo_world
  = Some (true, demo_world) /\
  (exists pg, page_store demo_world !! 64 = Some pg /\ free pg = 16384).
Proof.
  split; [reflexivity|]. split; [|split; [reflexivity|]].
  - intros page (pg & i & Hpg & Hi & Hp).
    cbn [_mi_page_start _mi_page_segment demo fst] in Hp.
    unfold demo_world, demo_pages in Hpg. cbn [page_store] in Hpg.
    apply lookup_insert_Some in Hpg as [[<- <-] | [_ Hpg]].
    + cbn [xblock_size capacity] in *. lia.
    + apply lookup_insert_Some in Hpg as [[<- <-] | [_ Hpg]].
      * cbn [xblock_size capacity] in *. lia.
      * rewrite lookup_empty in Hpg. discriminate.
  - eexists. split; reflexivity.
Qed.

(** ** Relating the state before and after *)

Section Steps.
Context (R : world -> world -> Prop) `{!PreOrder R}.

Lemma steps_ret {A : Type} (a : A) : steps R (ret a).
Proof. intros w a' w' [= _ <-]. reflexivity. Qed.

Lemma steps_undefined {A : Type} : steps R (undefined (A := A)).
Proof. intros w a w' H. discriminate. Qed.

Lemma steps_gets {A : Type} (f : world -> A) : steps R (gets f).
Proof. intros w a w' [= _ <-]. reflexivity. Qed.

Lemma steps_deref {A : Type} (f : world -> option A) : steps R (deref f).
Proof.
  intros w a w'. unfold deref. destruct (f w); [|discriminate].
  intros [= _ <-]. reflexivity.
Qed.

Lemma steps_modify (f : world -> world) :
  (forall w, R w (f w)) -> steps R (modify f).
Proof. intros Hf w a w' H. unfold modify in H. injection H as _ <-. apply Hf. Qed.

Lemma steps_bind {A B : Type} (m : M A) (k : A -> M B) :
  steps R m -> (forall a, steps R (k a)) -> steps R (bind m k).
Proof.
  intros Hm Hk w b w' H.
  apply bind_inv in H as (a & w1 & H1 & H2).
  transitivity w1; [eapply Hm | eapply Hk]; eassumption.
Qed.

Lemma steps_heap_get (heap : N) : steps R (heap_get heap).
Proof. apply steps_deref. Qed.
Lemma steps_tld_get (t : N) : steps R (tld_get t).
Proof. apply steps_deref. Qed.
Lemma steps_page_get (page : N) : steps R (page_get page).
Proof. apply steps_deref. Qed.
Lemma steps_segment_get (sg : N) : steps R (segment_get sg).
Proof. apply steps_deref. Qed.

End Steps.

Section StepsVisit.
Context {E : Externals} (R : world -> world -> Prop) `{!PreOrder R}.
Context {A : Type} (fn : heap_page_visitor_fun A).
Context (steps_fn : forall heap pq page a, steps R (fn heap pq page a)).

Lemma steps_visit_queue (heap : N) (pq : mi_page_queue_ptr)
    (q : mi_page_queue_t) (a : A) :
  steps R (visit_queue fn heap pq q a).
Proof.
  revert a. induction q as [|page q IH]; intros a; cbn [visit_queue].
  - now apply steps_ret.
  - apply steps_bind; [assumption | now apply steps_heap_get |].
    intros hp. destruct (negb _); [apply steps_undefined|].
    apply steps_bind; [assumption | apply steps_fn |].
    intros r. destruct (fst r); [apply IH | now apply steps_ret].
Qed.

Lemma steps_visit_bins (heap : N) (bins : list nat) (a : A) :
  steps R (visit_bins fn heap bins a).
Proof.
  revert a. induction bins as [|i bins IH]; intros a; cbn [visit_bins].
  - now apply steps_ret.
  - apply steps_bind; [assumption | now apply steps_heap_get |].
    intros hp. apply steps_bind; [assumption | apply steps_visit_queue |].
    intros r. destruct (fst r); [apply IH | now apply steps_ret].
Qed.

Lemma steps_visit_pages (heap : N) (a : A) :
  steps R (mi_heap_visit_pages heap fn a).
Proof.
  unfold mi_heap_visit_pages. destruct (heap =? 0); [now apply steps_ret|].
  apply steps_bind; [assumption | now apply steps_heap_get |].
  intros hp. destruct (page_count hp =? 0);
    [now apply steps_ret | apply steps_visit_bins].
Qed.

End StepsVisit.

Create HintDb steps discriminated.

(** Break a computation down to its primitive steps. *)
Ltac steps_go :=
  repeat first
    [ assumption
    | apply steps_ret; [typeclasses eauto]
    | apply steps_undefined
    | apply steps_gets; [typeclasses eauto]
    | apply steps_heap_get; [typeclasses eauto]
    | apply steps_tld_get; [typeclasses eauto]
    | apply steps_page_get; [typeclasses eauto]
    | apply steps_segment_get; [typeclasses eauto]
    | apply steps_deref; [typeclasses eauto]
    | solve [auto with steps nocore]
    | apply steps_bind; [typeclasses eauto| |intros ?]
    | match goal with
      | |- steps _ (if ?b then _ else _) => destruct b
      | |- steps _ (match ?x with Some _ => _ | None => _ end) => destruct x
      | |- steps _ (let (_, _) := ?x in _) => destruct x
      end ].

Section CallsGrow.
Context {E : Externals} {EO : ExternalsOk}.
Context (ok : call -> Prop).

#[local] Instance calls_grow_preorder : PreOrder (calls_grow ok).
Proof.
  split.
  - intros w. exists []. now split.
  - intros w1 w2 w3 (cs1 & H1 & F1) (cs2 & H2 & F2).
    exists (cs2 ++ cs1). split.
    + now rewrite H2, H1, app_assoc.
    + now apply Forall_app.
Qed.

Lemma calls_same_grow (w w' : world) : calls w' = calls w -> calls_grow ok w w'.
Proof. intros H. exists []. now split. Qed.

Lemma calls_grow_heap_upd (heap : N) (f : mi_heap_t -> mi_heap_t) :
  steps (calls_grow ok) (heap_upd heap f).
Proof.
  unfold heap_upd. steps_go. apply steps_modify. intros w.
  now apply calls_same_grow.
Qed.

Lemma calls_grow_page_upd (page : N) (f : mi_page_t -> mi_page_t) :
  steps (calls_grow ok) (page_upd page f).
Proof.
  unfold page_upd. steps_go. apply steps_modify. intros w.
  now apply calls_same_grow.
Qed.

Lemma calls_grow_record (c : call) : ok c -> steps (calls_grow ok) (record_call c).
Proof. intros Hc. apply steps_modify. intros w. exists [c]. split; [reflexivity|]. now constructor. Qed.

Lemma calls_grow_quiet_modify (f : world -> world) :
  (forall w, calls (f w) = calls w) -> steps (calls_grow ok) (modify f).
Proof. intros H. apply steps_modify. intros w. now apply calls_same_grow. Qed.

Context (ok_reclaim : forall h a, ok (Call_try_reclaim_abandoned h a))
        (ok_set_default : forall h, ok (Call_set_default_direct h))
        (ok_free : forall p, ok (Call_free p))
        (ok_backing_free : forall h, ok (Call_backing_free h)).

(** A state change that records nothing. *)
Ltac silent :=
  apply calls_grow_quiet_modify; intros;
  first [ reflexivity
        | apply deferred_free_quiet | apply delayed_free_quiet
        | apply collect_retired_quiet | apply segment_thread_collect_quiet
        | apply mem_collect_quiet | apply stats_done_quiet
        | apply segments_absorb_quiet | apply stat_decrease_giant_quiet
        | apply stat_decrease_huge_quiet | apply segment_page_free_quiet
        | apply page_free_collect_quiet ].

#[local] Hint Resolve calls_grow_heap_upd calls_grow_page_upd : steps.
#[local] Hint Extern 1 (steps (calls_grow _) (modify _)) => silent : steps.
#[local] Hint Extern 1 (steps (calls_grow _) (record_call _)) =>
  (apply calls_grow_record; auto) : steps.

Lemma calls_grow_block_nextx (null block k0 k1 : N) :
  steps (calls_grow ok) (mi_block_nextx null block k0 k1).
Proof. unfold mi_block_nextx. steps_go. Qed.

Lemma calls_grow_block_set_nextx (null block next k0 k1 : N) :
  steps (calls_grow ok) (mi_block_set_nextx null block next k0 k1).
Proof. unfold mi_block_set_nextx. steps_go. Qed.

Lemma calls_grow_cas_abandoned (d e : N) :
  steps (calls_grow ok) (cas_abandoned d e).
Proof. unfold cas_abandoned. steps_go. Qed.

Lemma calls_grow_exchange_abandoned (v : N) :
  steps (calls_grow ok) (exchange_abandoned v).
Proof. unfold exchange_abandoned. steps_go. Qed.

Lemma calls_grow_cas_tdf (heap d e : N) :
  steps (calls_grow ok) (cas_thread_delayed_free heap d e).
Proof. unfold cas_thread_delayed_free. steps_go. Qed.

Lemma calls_grow_queue_append (heap : N) (pq ap : mi_page_queue_ptr) :
  steps (calls_grow ok) (_mi_page_queue_append heap pq ap).
Proof. unfold _mi_page_queue_append. steps_go. Qed.

Lemma calls_grow_reset_pages (heap : N) :
  steps (calls_grow ok) (mi_heap_reset_pages heap).
Proof. unfold mi_heap_reset_pages. steps_go. Qed.

#[local] Hint Resolve calls_grow_block_nextx calls_grow_block_set_nextx
  calls_grow_cas_abandoned calls_grow_exchange_abandoned calls_grow_cas_tdf
  calls_grow_queue_append calls_grow_reset_pages : steps.

Lemma calls_grow_absorb_queues (heap from : N) (bins : list nat) :
  steps (calls_grow ok) (absorb_queues heap from bins).
Proof. induction bins; cbn [absorb_queues]; steps_go. Qed.

Lemma calls_grow_absorb_steal (n : nat) (from : N) :
  steps (calls_grow ok) (absorb_steal n from).
Proof. induction n; cbn [absorb_steal]; steps_go. Qed.

Lemma calls_grow_absorb_reencode (n : nat) (heap from last : N) :
  steps (calls_grow ok) (absorb_reencode n heap from last).
Proof. revert last. induction n; intros last; cbn [absorb_reencode]; steps_go. Qed.

Lemma calls_grow_absorb_append (n : nat) (heap first last : N) :
  steps (calls_grow ok) (absorb_append n heap first last).
Proof. induction n; cbn [absorb_append]; steps_go. Qed.

#[local] Hint Resolve calls_grow_absorb_queues calls_grow_absorb_steal
  calls_grow_absorb_reencode calls_grow_absorb_append : steps.

Lemma calls_grow_absorb (fuel : nat) (heap from : N) :
  steps (calls_grow ok) (mi_heap_absorb fuel heap from).
Proof. unfold mi_heap_absorb. steps_go. Qed.

Lemma calls_grow_abandoned_last (n : nat) (last : N) :
  steps (calls_grow ok) (abandoned_last n last).
Proof. revert last. induction n; intros last; cbn [abandoned_last]; steps_go. Qed.

Lemma calls_grow_prepend_publish (n : nat) (first last : N) :
  steps (calls_grow ok) (prepend_publish n first last).
Proof. induction n; cbn [prepend_publish]; steps_go. Qed.

#[local] Hint Resolve calls_grow_absorb calls_grow_abandoned_last
  calls_grow_prepend_publish : steps.

Lemma calls_grow_prepend (fuel : nat) (first : N) :
  steps (calls_grow ok) (mi_heap_prepend_abandoned fuel first).
Proof. unfold mi_heap_prepend_abandoned. steps_go. Qed.

Lemma calls_grow_backing_free (heap : N) :
  steps (calls_grow ok) (_mi_heap_backing_free heap).
Proof. unfold _mi_heap_backing_free. steps_go. Qed.

#[local] Hint Resolve calls_grow_prepend calls_grow_backing_free : steps.

Lemma calls_grow_reclaim_all (n fuel : nat) (heap reclaim : N) :
  steps (calls_grow ok) (reclaim_all n fuel heap reclaim).
Proof.
  revert reclaim. induction n; intros reclaim; cbn [reclaim_all]; steps_go.
Qed.

#[local] Hint Resolve calls_grow_reclaim_all : steps.

Lemma calls_grow_try_reclaim (fuel : nat) (heap : N) (all : bool) :
  steps (calls_grow ok) (_mi_heap_try_reclaim_abandoned fuel heap all).
Proof. unfold _mi_heap_try_reclaim_abandoned. steps_go. Qed.

Lemma calls_grow_is_initialized (heap : N) :
  steps (calls_grow ok) (mi_heap_is_initialized heap).
Proof. unfold mi_heap_is_initialized. steps_go. Qed.

Lemma calls_grow_is_backing (heap : N) :
  steps (calls_grow ok) (mi_heap_is_backing heap).
Proof. unfold mi_heap_is_backing. steps_go. Qed.

#[local] Hint Resolve calls_grow_try_reclaim calls_grow_is_initialized
  calls_grow_is_backing : steps.

Lemma calls_grow_collect_ex (fuel : nat) (heap : N) (c : mi_collect_t) :
  steps (calls_grow ok) (mi_heap_collect_ex fuel heap c).
Proof. unfold mi_heap_collect_ex. steps_go. Qed.

#[local] Hint Resolve calls_grow_collect_ex : steps.

Lemma calls_grow_collect_abandon (fuel : nat) (heap : N) :
  steps (calls_grow ok) (_mi_heap_collect_abandon fuel heap).
Proof. unfold _mi_heap_collect_abandon. steps_go. Qed.

Lemma calls_grow_heap_free (heap : N) :
  steps (calls_grow ok) (mi_heap_free heap).
Proof.
  unfold mi_heap_free, mi_heap_is_default, mi_get_default_heap,
    _mi_heap_set_default_direct, mi_free.
  steps_go.
Qed.

#[local] Hint Resolve calls_grow_collect_abandon calls_grow_heap_free : steps.

Lemma calls_grow_delete (fuel : nat) (heap : N) :
  steps (calls_grow ok) (mi_heap_delete fuel heap).
Proof. unfold mi_heap_delete. steps_go. Qed.

(** The calls of a collect: the reclaim is entered first, in every mode. *)
Lemma collect_ex_calls (fuel : nat) (heap : N) (mode : mi_collect_t)
    (w w' : world) hp :
  heaps w !! heap = Some hp -> tld hp <> 0 ->
  mi_heap_collect_ex fuel heap mode w = Some (tt, w') ->
  exists cs,
    calls w' =
      cs ++ Call_try_reclaim_abandoned heap
              (mi_collect_rank mode =? mi_collect_rank FORCE) :: calls w /\
    Forall ok cs.
Proof.
  intros Hh Ht H. unfold mi_heap_collect_ex in H.
  rewrite (bind_Some _ _ _ _ _ (is_initialized_Some heap w hp Hh)) in H.
  apply N.eqb_neq in Ht. rewrite Ht in H. cbn [negb] in H.
  apply bind_inv in H as ([] & w1 & H1 & H).
  unfold modify in H1. injection H1 as <-.
  apply bind_inv in H as ([] & w2 & H2 & H).
  unfold _mi_heap_try_reclaim_abandoned in H2.
  apply bind_inv in H2 as ([] & w1' & Hrec & H2).
  unfold record_call, modify in Hrec. injection Hrec as <-.
  match type of H2 with ?m _ = _ =>
    assert (Hs2 : steps (calls_grow ok) m) by steps_go end.
  match type of H with ?m _ = _ =>
    assert (Hs : steps (calls_grow ok) m) by steps_go end.
  apply Hs2 in H2 as (cs2 & Hc2 & F2). apply Hs in H as (cs & Hc & F).
  exists (cs ++ cs2). split; [|now apply Forall_app].
  rewrite Hc, Hc2. cbn [calls add_call].
  rewrite (proj2 (deferred_free_quiet _ _ _)). now rewrite app_assoc.
Qed.

Lemma calls_grow_page_destroy (heap : N) (pq : mi_page_queue_ptr)
    (page : N) (a : unit) :
  steps (calls_grow ok) (_mi_heap_page_destroy heap pq page a).
Proof. unfold _mi_heap_page_destroy, mi_page_block_size. steps_go. Qed.

(** The calls of a destroy that goes on to destroy the pages. *)
Lemma destroy_pages_calls (heap : N) (w w' : world) :
  ok (Call_destroy_pages heap) ->
  (bind (_mi_heap_destroy_pages heap) (fun _ => mi_heap_free heap)) w
  = Some (tt, w') ->
  exists cs, calls w' = cs ++ Call_destroy_pages heap :: calls w /\
             Forall ok cs.
Proof.
  intros Hok H. unfold _mi_heap_destroy_pages in H.
  apply bind_inv in H as ([] & w1 & H1 & H).
  apply bind_inv in H1 as ([] & w0 & Hrec & H1).
  unfold record_call, modify in Hrec. injection Hrec as <-.
  match type of H1 with ?m _ = _ =>
    assert (Hs1 : steps (calls_grow ok) m) end.
  { apply steps_bind; [typeclasses eauto | | intros ?; steps_go].
    apply steps_visit_pages; [typeclasses eauto|].
    apply calls_grow_page_destroy. }
  apply Hs1 in H1 as (cs1 & Hc1 & F1).
  apply calls_grow_heap_free in H as (cs & Hc & F).
  exists (cs ++ cs1). split; [|now apply Forall_app].
  rewrite Hc, Hc1. cbn [calls add_call]. now rewrite app_assoc.
Qed.

End CallsGrow.

(** C2.  For every initialized heap, a collect that returns has invoked
    [_mi_heap_try_reclaim_abandoned] on it with [all = (mode == FORCE)],
    in mode NORMAL, in mode FORCE, and in mode ABANDON too: the reclaim is
    not skipped when abandoning. *)
Theorem collect_reclaims_in_every_mode {E : Externals} {EO : ExternalsOk}
    (fuel : nat) (heap : N) (mode : mi_collect_t) (w w' : world) hp :
  heaps w !! heap = Some hp -> tld hp <> 0 ->
  mi_heap_collect_ex fuel heap mode w = Some (tt, w') ->
  exists cs,
    calls w' =
      cs ++ Call_try_reclaim_abandoned heap
              (match mode with FORCE => true | _ => false end) :: calls w.
Proof.
  intros Hh Ht H.
  edestruct (collect_ex_calls (fun _ => True)) as (cs & Hc & _);
    [..|exact Hh|exact Ht|exact H|]; try easy.
  exists cs. rewrite Hc. now destruct mode.
Qed.

(** ** The configuration meets the assumptions *)

Section Quiet.

Lemma same_identity_refl (o : option mi_heap_t) : same_identity o o.
Proof. destruct o; cbn; auto. Qed.

Lemma same_identity_trans (o1 o2 o3 : option mi_heap_t) :
  same_identity o1 o2 -> same_identity o2 o3 -> same_identity o1 o3.
Proof.
  destruct o1, o2, o3; cbn; try tauto.
  intros (-> & -> & -> & -> & ->) (-> & -> & -> & -> & ->). auto.
Qed.

#[local] Instance quiet_preorder (S : list N) : PreOrder (quiet S).
Proof.
  split.
  - intros w. repeat split; auto using same_identity_refl.
  - intros w1 w2 w3 (T1 & A1 & D1 & F1 & H1) (T2 & A2 & D2 & F2 & H2).
    repeat split; try congruence.
    + intros Hx. rewrite (proj1 (H2 x) Hx). now apply H1.
    + eapply same_identity_trans; [apply H1 | apply H2].
Qed.

Lemma quiet_mono (S S' : list N) (w w' : world) :
  S ⊆ S' -> quiet S w w' -> quiet S' w w'.
Proof.
  intros Hs (T & A & D & F & H). repeat split; try assumption.
  - intros Hx. apply H. intros Hin. apply Hx, Hs, Hin.
  - apply H.
Qed.

End Quiet.

Lemma demo_ok : ExternalsOk (E := demo).
Proof.
  split; intros; cbn [demo _mi_deferred_free _mi_heap_delayed_free
    _mi_heap_collect_retired _mi_segment_thread_collect _mi_mem_collect
    _mi_stats_done _mi_segments_absorb _mi_stat_decrease_giant
    _mi_stat_decrease_huge _mi_segment_page_free _mi_page_free_collect
    mi_ptr_encode mi_ptr_decode];
    try (split; [apply quiet_preorder | reflexivity]).
  rewrite (N.lxor_assoc (N.lxor p k0)), N.lxor_nilpotent, N.lxor_0_r.
  now rewrite N.lxor_assoc, N.lxor_nilpotent, N.lxor_0_r.
Defined.

Lemma collect_reclaims_in_every_mode_witness :
  exists cs,
    calls demo_after_collect =
      cs ++ Call_try_reclaim_abandoned 4096 false :: calls demo_world2.
Proof.
  apply (collect_reclaims_in_every_mode (E := demo) (EO := demo_ok)
           8 4096 ABANDON demo_world2 demo_after_collect demo_backing).
  - reflexivity.
  - discriminate.
  - vm_compute. reflexivity.
Defined.

(** C2 at a concrete input: the backing heap at 4096 collects in mode
    ABANDON while the heap at 20480 heads the abandoned list.  It reclaims
    that heap: it takes over its page, the list now starts at 24576, and
    the storage of 20480 is released. *)
Example collect_abandon_reclaims :
  calls demo_after_collect
  = [Call_backing_free 20480; Call_try_reclaim_abandoned 4096 false] /\
  abandoned demo_after_collect = 24576 /\
  freed demo_after_collect = [20480] /\
  (page_count <$> heaps demo_after_collect !! 4096) = Some 2 /\
  (page_count <$> heaps demo_world2 !! 4096) = Some 1.
Proof. vm_compute. repeat split. Qed.

(** ** Computations that leave the other heaps alone *)

Section QuietSteps.
Context {E : Externals} {EO : ExternalsOk}.
Context (S : list N).

#[local] Existing Instance quiet_preorder.

Lemma quiet_heap_upd (heap : N) (f : mi_heap_t -> mi_heap_t) :
  heap ∈ S ->
  (forall hp, same_identity (Some hp) (Some (f hp))) ->
  steps (quiet S) (heap_upd heap f).
Proof.
  intros Hin Hf w a w' H. unfold heap_upd in H.
  apply bind_inv in H as (hp & w1 & H1 & H).
  apply heap_get_inv in H1 as [Hh ->].
  unfold modify in H. injection H as _ <-.
  repeat split; try reflexivity.
  - intros Hx. cbn [heaps set_heaps].
    apply lookup_insert_ne. intros ->. contradiction.
  - cbn [heaps set_heaps]. destruct (decide (heap = x)) as [->|Hne].
    + rewrite lookup_insert_eq, Hh. apply Hf.
    + rewrite lookup_insert_ne by assumption. apply same_identity_refl.
Qed.

Lemma quiet_same_heaps (w w' : world) :
  heaps w' = heaps w -> tlds w' = tlds w -> abandoned w' = abandoned w ->
  default_heap w' = default_heap w -> freed w' = freed w ->
  quiet S w w'.
Proof.
  intros H1 H2 H3 H4 H5. repeat split; try assumption.
  - now rewrite H1.
  - rewrite H1. apply same_identity_refl.
Qed.

Lemma quiet_modify (f : world -> world) :
  (forall w, quiet S w (f w)) -> steps (quiet S) (modify f).
Proof. apply steps_modify. Qed.

Lemma quiet_from_nil (w w' : world) : quiet [] w w' -> quiet S w w'.
Proof. apply quiet_mono. intros x Hx. inversion Hx. Qed.

Lemma quiet_from_one (h : N) (w w' : world) :
  h ∈ S -> quiet [h] w w' -> quiet S w w'.
Proof.
  intros Hin. apply quiet_mono. intros x Hx.
  apply list_elem_of_singleton in Hx as ->. exact Hin.
Qed.

End QuietSteps.

(** A heap update that keeps the identity of the heap. *)
Ltac keeps_identity := intros ?; cbn; repeat split; reflexivity.

(** A state change that touches no heap record. *)
Ltac no_heap_change :=
  apply quiet_modify; intros;
  first [ apply quiet_same_heaps; reflexivity
        | apply quiet_from_nil;
          first [ apply segment_thread_collect_quiet | apply mem_collect_quiet
                | apply stats_done_quiet | apply segments_absorb_quiet
                | apply stat_decrease_giant_quiet
                | apply stat_decrease_huge_quiet
                | apply segment_page_free_quiet
                | apply page_free_collect_quiet ] ].

Section QuietAbsorb.
Context {E : Externals} {EO : ExternalsOk}.
Context (S : list N) (heap from : N) (heap_in : heap ∈ S) (from_in : from ∈ S).

#[local] Existing Instance quiet_preorder.
#[local] Hint Extern 1 (steps (quiet _) (modify _)) => no_heap_change : steps.
#[local] Hint Extern 1 (steps (quiet _) (record_call _)) => no_heap_change : steps.
#[local] Hint Extern 1 (steps (quiet _) (heap_upd _ _)) =>
  (apply quiet_heap_upd; [assumption | keeps_identity]) : steps.

Lemma quiet_block_nextx (null block k0 k1 : N) :
  steps (quiet S) (mi_block_nextx null block k0 k1).
Proof. unfold mi_block_nextx. steps_go. Qed.

Lemma quiet_block_set_nextx (null block next k0 k1 : N) :
  steps (quiet S) (mi_block_set_nextx null block next k0 k1).
Proof. unfold mi_block_set_nextx. steps_go. Qed.

#[local] Hint Resolve quiet_block_nextx quiet_block_set_nextx : steps.

Lemma quiet_absorb_queues (bins : list nat) :
  steps (quiet S) (absorb_queues heap from bins).
Proof.
  induction bins; cbn [absorb_queues]; [steps_go|].
  unfold _mi_page_queue_append. cbn [fst snd]. steps_go.
Qed.

Lemma quiet_absorb_steal (n : nat) : steps (quiet S) (absorb_steal n from).
Proof.
  induction n; cbn [absorb_steal]; unfold cas_thread_delayed_free; steps_go.
Qed.

Lemma quiet_absorb_reencode (n : nat) (last : N) :
  steps (quiet S) (absorb_reencode n heap from last).
Proof. revert last. induction n; intros last; cbn [absorb_reencode]; steps_go. Qed.

Lemma quiet_absorb_append (n : nat) (first last : N) :
  steps (quiet S) (absorb_append n heap first last).
Proof.
  induction n; cbn [absorb_append]; unfold cas_thread_delayed_free; steps_go.
Qed.

#[local] Hint Resolve quiet_absorb_queues quiet_absorb_steal
  quiet_absorb_reencode quiet_absorb_append : steps.

Lemma quiet_reset_pages : steps (quiet S) (mi_heap_reset_pages from).
Proof. unfold mi_heap_reset_pages. steps_go. Qed.

#[local] Hint Resolve quiet_reset_pages : steps.

(** [mi_heap_absorb] changes the two heaps it is given and no other. *)
Lemma quiet_absorb (fuel : nat) :
  steps (quiet S) (mi_heap_absorb fuel heap from).
Proof. unfold mi_heap_absorb. steps_go. Qed.

End QuietAbsorb.

(** ** Lists of blocks *)

Section BlockSeg.
Context {E : Externals} {EO : ExternalsOk}.
Context (null k0 k1 : N).

Lemma block_seg_nil_inv (bl : gmap N N) (b q : N) :
  block_seg bl null k0 k1 b [] q -> b = q.
Proof. now inversion 1. Qed.

Lemma block_seg_cons_inv (bl : gmap N N) (b y q : N) (l : list N) :
  block_seg bl null k0 k1 b (y :: l) q ->
  b = y /\ b <> 0 /\
  exists x, bl !! b = Some x /\
            block_seg bl null k0 k1 (mi_ptr_decode null x k0 k1) l q.
Proof. inversion 1; subst. repeat split; try assumption. eauto. Qed.

Lemma block_seg_nonzero (bl : gmap N N) (b q : N) (l : list N) :
  block_seg bl null k0 k1 b l q -> forall x, x ∈ l -> x <> 0.
Proof.
  induction 1 as [|b x l q Hb Hx Hs IH]; intros y Hy.
  - inversion Hy.
  - apply elem_of_cons in Hy as [-> | Hy]; [assumption | now apply IH].
Qed.

Lemma block_seg_functional (bl : gmap N N) (b : N) (l1 l2 : list N) :
  block_seg bl null k0 k1 b l1 0 -> block_seg bl null k0 k1 b l2 0 ->
  l1 = l2.
Proof.
  intros H1. revert l2. remember 0 as q eqn:Hq.
  induction H1 as [|b x l q Hb Hx Hs IH]; intros l2 H2; subst.
  - inversion H2; subst; [reflexivity | congruence].
  - inversion H2 as [|b' x' l' q' Hb' Hx' Hs']; subst; [congruence|].
    rewrite Hx in Hx'. injection Hx' as <-. f_equal. now apply IH.
Qed.

Lemma block_seg_suffix (bl : gmap N N) (b q y : N) (l : list N) :
  block_seg bl null k0 k1 b l q -> y ∈ l ->
  exists l1 l2, l = l1 ++ y :: l2 /\ block_seg bl null k0 k1 y (y :: l2) q.
Proof.
  induction 1 as [|b x l q Hb Hx Hs IH]; intros Hy.
  - inversion Hy.
  - apply elem_of_cons in Hy as [-> | Hy].
    + exists [], l. split; [reflexivity | econstructor; eassumption].
    + destruct (IH Hy) as (l1 & l2 & -> & Hs2).
      exists (b :: l1), l2. now split.
Qed.

(** A list that ends in [NULL] visits no block twice. *)
Lemma block_seg_NoDup (bl : gmap N N) (b : N) (l : list N) :
  block_seg bl null k0 k1 b l 0 -> NoDup l.
Proof.
  remember 0 as q eqn:Hq. induction 1 as [|b x l q Hb Hx Hs IH]; subst.
  - constructor.
  - constructor; [|now apply IH].
    intros Hin.
    destruct (block_seg_suffix _ _ _ _ _ Hs Hin) as (l1 & l2 & -> & Hs2).
    assert (Hfull : block_seg bl null k0 k1 b (b :: l1 ++ b :: l2) 0)
      by (econstructor; eassumption).
    pose proof (block_seg_functional _ _ _ _ Hfull Hs2) as Heq.
    apply (f_equal length) in Heq. cbn in Heq.
    rewrite length_app in Heq. cbn in Heq. lia.
Qed.

Lemma block_seg_insert (bl : gmap N N) (b q b0 v : N) (l : list N) :
  b0 ∉ l -> block_seg bl null k0 k1 b l q ->
  block_seg (<[b0 := v]> bl) null k0 k1 b l q.
Proof.
  intros Hn H. induction H as [|b x l q Hb Hx Hs IH]; [constructor|].
  apply not_elem_of_cons in Hn as [Hne Hn].
  econstructor; [assumption | | now apply IH].
  now rewrite lookup_insert_ne.
Qed.

Lemma block_seg_snoc (bl : gmap N N) (b q x : N) (l : list N) :
  block_seg bl null k0 k1 b l q -> q <> 0 -> bl !! q = Some x ->
  block_seg bl null k0 k1 b (l ++ [q]) (mi_ptr_decode null x k0 k1).
Proof.
  intros H Hq Hx. induction H as [|b y l q Hb Hy Hs IH]; cbn.
  - econstructor; [assumption | eassumption | constructor].
  - econstructor; [assumption | eassumption | now apply IH].
Qed.

End BlockSeg.

(** ** What [mi_heap_absorb] computes *)

(** Run the monad through updated maps. *)
Ltac run_maps :=
  repeat (cbn beta iota delta [heaps tlds page_store blocks abandoned
                                 default_heap freed calls set_heaps
                                 set_page_store set_blocks set_abandoned
                                 set_default_heap add_freed add_call fst snd];
          rewrite ?lookup_insert_eq;
          rewrite ?lookup_insert_ne by congruence;
          try match goal with
              | H : ?m !! ?k = _ |- context [?m !! ?k] => rewrite H
              end).

Section AbsorbSpec.
Context {E : Externals} {EO : ExternalsOk}.
Context (heap from : N) (Hne : heap <> from).

Lemma heap_upd_Some (h : N) (f : mi_heap_t -> mi_heap_t) (w : world) hp :
  heaps w !! h = Some hp ->
  heap_upd h f w = Some (tt, set_heaps <[h := f hp]> w).
Proof. intros H. unfold_m. now run. Qed.

Lemma absorb_queues_spec (bins : list nat) :
  NoDup bins -> forall w hpt hpf,
  heaps w !! heap = Some hpt -> heaps w !! from = Some hpf ->
  exists w1 hpt1 hpf1,
    absorb_queues heap from bins w = Some (tt, w1) /\
    heaps w1 !! heap = Some hpt1 /\ heaps w1 !! from = Some hpf1 /\
    blocks w1 = blocks w /\
    same_links hpt hpt1 /\ same_links hpf hpf1 /\
    (forall j, pages hpf1 j = pages hpf j) /\
    (forall j, pages hpt1 j =
       if decide (j ∈ bins) then pages hpt j ++ pages hpf j
       else pages hpt j) /\
    page_count hpt1 = absorbed_count hpf bins (page_count hpt).
Proof.
  induction 1 as [|i bins Hi Hnd IH]; intros w hpt hpf Hh Hf.
  - exists w, hpt, hpf. repeat split; try assumption; try reflexivity.
  - cbn [absorb_queues]. unfold _mi_page_queue_append.
    unfold_m. run_maps.
    match goal with
    | |- exists _ _ _, absorb_queues _ _ _ ?w2 = _ /\ _ =>
        edestruct (IH w2)
          as (w1 & hpt1 & hpf1 & Hr & Hh1 & Hf1 & Hb & Hl1 & Hl2 & Hp1 & Hp2 & Hc)
    end.
    { run_maps. reflexivity. }
    { run_maps. reflexivity. }
    exists w1, hpt1, hpf1. split; [exact Hr|].
    repeat split; try assumption; try apply Hl1; try apply Hl2.
    + intros j. rewrite Hp2. cbn [pages set_page_count set_pages].
      destruct (Nat.eqb_spec j i) as [->|Hji].
      * rewrite decide_False by assumption.
        rewrite decide_True by (now left). reflexivity.
      * destruct (decide (j ∈ bins)) as [Hin|Hin].
        -- rewrite decide_True by (now right). reflexivity.
        -- rewrite decide_False; [reflexivity|].
           intros [->|Hin']%elem_of_cons; contradiction.
Qed.

Lemma absorb_steal_spec (n : nat) (w : world) hpf :
  heaps w !! from = Some hpf ->
  absorb_steal (S n) from w
  = Some (thread_delayed_free hpf,
          set_heaps <[from := set_thread_delayed_free 0 hpf]> w).
Proof.
  intros Hf. cbn [absorb_steal]. unfold cas_thread_delayed_free.
  unfold_m. run_maps. rewrite N.eqb_refl. now run_maps.
Qed.

Lemma absorb_reencode_spec (l : list N) :
  forall (n : nat) (b : N) (w : world) hpt hpf,
  heaps w !! heap = Some hpt -> heaps w !! from = Some hpf ->
  block_seg (blocks w) from (key0 hpf) (key1 hpf) b (b :: l) 0 ->
  (length l < n)%nat ->
  exists w' last pre,
    absorb_reencode n heap from b w = Some (last, w') /\
    b :: l = pre ++ [last] /\
    heaps w' = heaps w /\
    block_seg (blocks w') heap (key0 hpt) (key1 hpt) b pre last /\
    is_Some (blocks w' !! last) /\
    (forall x, x ∉ b :: l -> blocks w' !! x = blocks w !! x).
Proof.
  induction l as [|b' l IH]; intros n b w hpt hpf Hh Hf Hs Hn.
  - destruct n as [|n]; [cbn in Hn; lia|].
    apply block_seg_cons_inv in Hs as (_ & Hb & x & Hx & Hs').
    apply block_seg_nil_inv in Hs'.
    exists w, b, []. cbn [absorb_reencode]. unfold mi_block_nextx.
    unfold_m. run_maps. rewrite Hs'. cbn.
    repeat split; try reflexivity; [constructor | now eexists].
  - destruct n as [|n]; [cbn in Hn; lia|]. cbn in Hn.
    pose proof (block_seg_NoDup _ _ _ _ _ _ Hs) as Hnd.
    apply block_seg_cons_inv in Hs as (_ & Hb & x & Hx & Hs').
    pose proof (block_seg_cons_inv _ _ _ _ _ _ _ _ Hs') as (Hd & Hb' & _).
    rewrite Hd in Hs', Hb'.
    cbn [absorb_reencode]. unfold mi_block_nextx, mi_block_set_nextx.
    unfold_m. run_maps. rewrite Hd.
    apply N.eqb_neq in Hb' as Hb'e. rewrite Hb'e. run_maps.
    apply NoDup_cons in Hnd as [Hbn Hnd].
    match goal with
    | |- exists _ _ _, absorb_reencode _ _ _ _ ?w1 = _ /\ _ =>
        destruct (IH n b' w1 hpt hpf)
          as (w' & last & pre & Hr & Hl & Hhs & Hseg & Hlast & Hfr)
    end.
    { exact Hh. }
    { exact Hf. }
    { cbn [blocks set_blocks]. now apply block_seg_insert. }
    { lia. }
    exists w', last, (b :: pre). split; [exact Hr|].
    split; [now rewrite Hl|]. split; [exact Hhs|].
    split; [|split; [exact Hlast|]].
    + econstructor; [exact Hb| |].
      * rewrite (Hfr b Hbn). cbn [blocks set_blocks]. apply lookup_insert_eq.
      * rewrite decode_encode. exact Hseg.
    + intros y Hy. apply not_elem_of_cons in Hy as [Hyb Hy].
      rewrite (Hfr y Hy). cbn [blocks set_blocks].
      now rewrite lookup_insert_ne.
Qed.

Lemma absorb_append_spec (n : nat) (first last : N) (w : world) hpt x :
  heaps w !! heap = Some hpt -> blocks w !! last = Some x ->
  absorb_append (S n) heap first last w
  = Some (tt,
          set_heaps <[heap := set_thread_delayed_free first hpt]>
            (set_blocks
               <[last := mi_ptr_encode heap (thread_delayed_free hpt)
                           (key0 hpt) (key1 hpt)]> w)).
Proof.
  intros Hh Hx. cbn [absorb_append].
  unfold mi_block_set_nextx, cas_thread_delayed_free.
  unfold_m. run_maps. rewrite N.eqb_refl. now run_maps.
Qed.

Lemma reset_pages_spec (h : N) (w : world) hp :
  heaps w !! h = Some hp ->
  exists w' hp',
    mi_heap_reset_pages h w = Some (tt, w') /\
    heaps w' = <[h := hp']> (heaps w) /\ blocks w' = blocks w /\
    page_count hp' = 0 /\ thread_delayed_free hp' = 0 /\
    (forall j, pages hp' j = []).
Proof.
  intros Hh. unfold mi_heap_reset_pages. unfold_m. run_maps.
  eexists _, _. split; [reflexivity|]. cbn [heaps set_heaps blocks].
  rewrite !insert_insert_eq. repeat split.
Qed.

(** [mi_heap_absorb] on a heap [from] that holds pages and whose
    delayed-free list is the list [l]. *)
Lemma absorb_spec (fuel : nat) (w : world) hpt hpf (l : list N) :
  from <> 0 ->
  heaps w !! heap = Some hpt -> heaps w !! from = Some hpf ->
  page_count hpf <> 0 ->
  block_seg (blocks w) from (key0 hpf) (key1 hpf)
            (thread_delayed_free hpf) l 0 ->
  (length l < fuel)%nat ->
  exists w' hpt' hpf',
    mi_heap_absorb fuel heap from w = Some (tt, w') /\
    heaps w' !! heap = Some hpt' /\ heaps w' !! from = Some hpf' /\
    page_count hpf' = 0 /\ thread_delayed_free hpf' = 0 /\
    (forall j, pages hpf' j = []) /\
    (forall j, (j <= MI_BIN_FULL)%nat ->
       pages hpt' j = pages hpt j ++ pages hpf j) /\
    page_count hpt' =
      absorbed_count hpf (seq 0 (S MI_BIN_FULL)) (page_count hpt) /\
    thread_delayed_free hpt' =
      (if thread_delayed_free hpf =? 0 then thread_delayed_free hpt
       else thread_delayed_free hpf) /\
    key0 hpt' = key0 hpt /\ key1 hpt' = key1 hpt /\
    block_seg (blocks w') heap (key0 hpt) (key1 hpt)
              (thread_delayed_free hpt') l (thread_delayed_free hpt).
Proof.
  intros Hf0 Hh Hf Hpc Hs Hn.
  destruct fuel as [|n]; [lia|].
  destruct (absorb_queues_spec (seq 0 (S MI_BIN_FULL)) (NoDup_seq _ _)
              w hpt hpf Hh Hf)
    as (w1 & hpt1 & hpf1 & Hr1 & Hh1 & Hf1 & Hb1 & (Lt1 & Lt2 & Lt3)
        & (Lf1 & Lf2 & Lf3) & Hp1 & Hp2 & Hc).
  assert (Hpages : forall j, (j <= MI_BIN_FULL)%nat ->
            pages hpt1 j = pages hpt j ++ pages hpf j).
  { intros j Hj. rewrite Hp2. apply decide_True, elem_of_seq. lia. }
  unfold mi_heap_absorb.
  apply N.eqb_neq in Hf0 as ->. apply N.eqb_neq in Hpc as Hpc'.
  rewrite (bind_Some _ _ _ _ _ (heap_get_Some _ _ _ Hf)), Hpc'.
  rewrite (bind_Some _ _ _ _ _ Hr1).
  rewrite (bind_Some _ _ _ _ _ (absorb_steal_spec n w1 hpf1 Hf1)).
  rewrite Lf1.
  set (w2 := set_heaps <[from := set_thread_delayed_free 0 hpf1]> w1).
  assert (Hh2 : heaps w2 !! heap = Some hpt1)
    by (unfold w2; now run_maps).
  assert (Hf2 : heaps w2 !! from = Some (set_thread_delayed_free 0 hpf1))
    by (unfold w2; now run_maps).
  destruct l as [|b l].
  - apply block_seg_nil_inv in Hs. rewrite Hs. cbn [N.eqb negb].
    rewrite (bind_Some _ _ _ tt w2) by reflexivity.
    destruct (reset_pages_spec from w2 _ Hf2)
      as (w' & hpf' & Hr & Hhs & Hbl & R1 & R2 & R3).
    exists w', hpt1, hpf'. split; [exact Hr|].
    rewrite Hhs. run_maps.
    repeat split; try assumption; try reflexivity.
    rewrite Lt1. constructor.
  - pose proof (block_seg_NoDup _ _ _ _ _ _ Hs) as Hnd.
    pose proof (block_seg_nonzero _ _ _ _ _ _ _ Hs) as Hnz.
    pose proof (block_seg_cons_inv _ _ _ _ _ _ _ _ Hs) as (Hb & Hbz & _).
    rewrite Hb in *. apply N.eqb_neq in Hbz as Hbz'. rewrite Hbz'.
    cbn [negb].
    destruct (absorb_reencode_spec l (S n) b w2 hpt1
                (set_thread_delayed_free 0 hpf1) Hh2 Hf2)
      as (w3 & last & pre & Hr3 & Hl & Hhs3 & Hseg & [x Hx] & Hfr);
      [ cbn [key0 key1 set_thread_delayed_free]; rewrite Lf2, Lf3;
        unfold w2; cbn [blocks set_heaps]; now rewrite Hb1
      | cbn [length] in Hn; lia |].
    rewrite bind_bind, (bind_Some _ _ _ _ _ Hr3).
    assert (Hh3 : heaps w3 !! heap = Some hpt1) by (now rewrite Hhs3).
    rewrite (bind_Some _ _ _ _ _ (absorb_append_spec n b last w3 hpt1 x Hh3 Hx)).
    match goal with
    | |- context [mi_heap_reset_pages from ?w4] =>
        destruct (reset_pages_spec from w4 (set_thread_delayed_free 0 hpf1))
          as (w' & hpf' & Hr & Hhs & Hbl & R1 & R2 & R3)
    end.
    { run_maps. now rewrite Hhs3. }
    exists w', (set_thread_delayed_free b hpt1), hpf'.
    split; [exact Hr|]. rewrite Hhs, Hbl. run_maps.
    repeat split; try assumption; try reflexivity.
    cbn [thread_delayed_free set_thread_delayed_free].
    rewrite Hl in Hnd. apply NoDup_app in Hnd as (_ & Hdisj & _).
    rewrite Lt1. rewrite Lt2, Lt3 in *. rewrite Hl.
    set (enc := mi_ptr_encode heap (thread_delayed_free hpt)
                  (key0 hpt) (key1 hpt)).
    assert (Hsn : block_seg (<[last := enc]> (blocks w3)) heap
                    (key0 hpt) (key1 hpt) b (pre ++ [last])
                    (mi_ptr_decode heap enc (key0 hpt) (key1 hpt))).
    { apply block_seg_snoc.
      - apply block_seg_insert; [|exact Hseg].
        intros Hin. apply (Hdisj _ Hin). now left.
      - apply Hnz. rewrite Hl. apply elem_of_app. right. now left.
      - apply lookup_insert_eq. }
    unfold enc in Hsn at 2. now rewrite decode_encode in Hsn.
Qed.

End AbsorbSpec.

Section AbsorbClaims.
Context {E : Externals} {EO : ExternalsOk}.

Lemma wrap_small (n : N) : n < 2 ^ MI_INTPTR_BITS -> wrap n = n.
Proof. intros H. unfold wrap. now apply N.mod_small. Qed.

Lemma absorbed_count_exact (hpf : mi_heap_t) (bins : list nat) (c : N) :
  c + N.of_nat (sum_list (map (fun i => length (pages hpf i)) bins))
    < 2 ^ MI_INTPTR_BITS ->
  absorbed_count hpf bins c
  = c + N.of_nat (sum_list (map (fun i => length (pages hpf i)) bins)).
Proof.
  revert c. induction bins as [|i bins IH]; intros c Hlt; cbn in *.
  - now rewrite N.add_0_r.
  - unfold absorbed_count in *. cbn [fold_left].
    rewrite (wrap_small (N.of_nat (length (pages hpf i)))) by lia.
    rewrite wrap_small by lia.
    rewrite IH by lia. lia.
Qed.

(** C5.  Absorb is additive on page counts.  For two distinct heaps [A]
    and [B], where [B]'s [page_count] counts its pages, the sum of the two
    counts fits a machine word and [B]'s delayed-free list can be walked,
    [mi_heap_absorb A B] returns; afterwards [A]'s [page_count] is the sum
    of the two counts before, [B]'s is 0, and every queue of [A] is what it
    was followed by the pages of the same queue of [B]. *)
Theorem absorb_is_additive (fuel : nat) (A B : N) (w : world) hpA hpB
    (l : list N) :
  A <> B -> B <> 0 ->
  heaps w !! A = Some hpA -> heaps w !! B = Some hpB ->
  page_count_ok hpB ->
  page_count hpA + page_count hpB < 2 ^ MI_INTPTR_BITS ->
  block_seg (blocks w) B (key0 hpB) (key1 hpB)
            (thread_delayed_free hpB) l 0 ->
  (length l < fuel)%nat ->
  exists w' hpA' hpB',
    mi_heap_absorb fuel A B w = Some (tt, w') /\
    heaps w' !! A = Some hpA' /\ heaps w' !! B = Some hpB' /\
    page_count hpA' = page_count hpA + page_count hpB /\
    page_count hpB' = 0 /\
    (forall j, (j <= MI_BIN_FULL)%nat ->
       pages hpA' j = pages hpA j ++ pages hpB j).
Proof.
  intros Hne HB HA HhB Hok Hlt Hs Hn.
  destruct (N.eq_dec (page_count hpB) 0) as [Hz|Hnz].
  - exists w, hpA, hpB. unfold mi_heap_absorb.
    apply N.eqb_neq in HB as ->.
    rewrite (bind_Some _ _ _ _ _ (heap_get_Some _ _ _ HhB)), Hz. cbn.
    repeat split; try assumption; [lia|].
    intros j Hj. rewrite (total_pages_zero hpB j); [now rewrite app_nil_r| |exact Hj].
    red in Hok. lia.
  - destruct (absorb_spec A B Hne fuel w hpA hpB l HB HA HhB Hnz Hs Hn)
      as (w' & hpA' & hpB' & Hr & HA' & HB' & R1 & R2 & R3 & P & C & _).
    exists w', hpA', hpB'. repeat split; try assumption.
    rewrite C. red in Hok. unfold total_pages in Hok.
    rewrite absorbed_count_exact; lia.
Qed.

(** C3, as the code has it.  For two distinct heaps, when [from] holds at
    least one page and its delayed-free list is the list [l], a call of
    [mi_heap_absorb to from] returns; afterwards the delayed-free head of
    [from] is [NULL] and, read with the keys of [to], the delayed-free list
    of [to] starts with the blocks of [l] and goes on with what it was.
    When [from] holds no page, the call returns at once and leaves both
    lists as they were. *)
Theorem absorb_moves_delayed_free (fuel : nat) (to from : N) (w : world)
    hpt hpf (l : list N) :
  to <> from -> from <> 0 ->
  heaps w !! to = Some hpt -> heaps w !! from = Some hpf ->
  block_seg (blocks w) from (key0 hpf) (key1 hpf)
            (thread_delayed_free hpf) l 0 ->
  (length l < fuel)%nat ->
  (page_count hpf <> 0 ->
   exists w' hpt' hpf',
     mi_heap_absorb fuel to from w = Some (tt, w') /\
     heaps w' !! to = Some hpt' /\ heaps w' !! from = Some hpf' /\
     thread_delayed_free hpf' = 0 /\
     key0 hpt' = key0 hpt /\ key1 hpt' = key1 hpt /\
     block_seg (blocks w') to (key0 hpt') (key1 hpt')
               (thread_delayed_free hpt') l (thread_delayed_free hpt)) /\
  (page_count hpf = 0 -> mi_heap_absorb fuel to from w = Some (tt, w)).
Proof.
  intros Hne Hf0 Hh Hf Hs Hn. split.
  - intros Hnz.
    destruct (absorb_spec to from Hne fuel w hpt hpf l Hf0 Hh Hf Hnz Hs Hn)
      as (w' & hpt' & hpf' & Hr & Hh' & Hf' & R1 & R2 & R3 & P & C & T
          & K0 & K1 & Hseg).
    exists w', hpt', hpf'. rewrite K0, K1. now repeat split.
  - intros Hz. unfold mi_heap_absorb. apply N.eqb_neq in Hf0 as ->.
    now rewrite (bind_Some _ _ _ _ _ (heap_get_Some _ _ _ Hf)), Hz.
Qed.

End AbsorbClaims.

(** The delayed-free lists of the configuration. *)
Lemma demo_child_list :
  block_seg (E := demo) (blocks demo_world) 8192 5 9 20480 [20480; 20512] 0.
Proof.
  apply (block_seg_cons (E := demo) _ _ _ _ 20480 20524); [discriminate | reflexivity |].
  apply (block_seg_cons (E := demo) _ _ _ _ 20512 12); [discriminate | reflexivity |].
  apply (block_seg_nil (E := demo)).
Defined.

Lemma demo_stray_list :
  block_seg (E := demo) (blocks demo_world) 16384 7 11 24576 [24576] 0.
Proof.
  apply (block_seg_cons (E := demo) _ _ _ _ 24576 12); [discriminate | reflexivity |].
  apply (block_seg_nil (E := demo)).
Defined.

Lemma demo_backing_list :
  block_seg (E := demo) (blocks demo_world) 4096 3 6 16432 [16432] 0.
Proof.
  apply (block_seg_cons (E := demo) _ _ _ _ 16432 5); [discriminate | reflexivity |].
  apply (block_seg_nil (E := demo)).
Defined.

Lemma absorb_is_additive_witness :
  exists w' hpA' hpB',
    mi_heap_absorb (E := demo) 8 4096 8192 demo_world = Some (tt, w') /\
    heaps w' !! 4096 = Some hpA' /\ heaps w' !! 8192 = Some hpB' /\
    page_count hpA' = page_count demo_backing + page_count demo_child /\
    page_count hpB' = 0 /\
    (forall j, (j <= 2)%nat ->
       pages hpA' j = pages demo_backing j ++ pages demo_child j).
Proof.
  apply (absorb_is_additive (E := demo) (EO := demo_ok) 8 4096 8192
           demo_world demo_backing demo_child [20480; 20512]).
  - discriminate.
  - discriminate.
  - reflexivity.
  - reflexivity.
  - reflexivity.
  - reflexivity.
  - exact demo_child_list.
  - cbn. lia.
Defined.

Lemma absorb_moves_delayed_free_witness :
  (page_count demo_child <> 0 ->
   exists w' hpt' hpf',
     mi_heap_absorb (E := demo) 8 4096 8192 demo_world = Some (tt, w') /\
     heaps w' !! 4096 = Some hpt' /\ heaps w' !! 8192 = Some hpf' /\
     thread_delayed_free hpf' = 0 /\
     key0 hpt' = key0 demo_backing /\ key1 hpt' = key1 demo_backing /\
     block_seg (E := demo) (blocks w') 4096 (key0 hpt') (key1 hpt')
               (thread_delayed_free hpt') [20480; 20512]
               (thread_delayed_free demo_backing)) /\
  (page_count demo_child = 0 ->
   mi_heap_absorb (E := demo) 8 4096 8192 demo_world = Some (tt, demo_world)).
Proof.
  apply (absorb_moves_delayed_free (E := demo) (EO := demo_ok) 8 4096 8192
           demo_world demo_backing demo_child [20480; 20512]).
  - discriminate.
  - discriminate.
  - reflexivity.
  - reflexivity.
  - exact demo_child_list.
  - cbn. lia.
Defined.

(** C3 as stated fails.  The heap at 16384 of the configuration holds no
    page and has the block 24576 on its delayed-free list.  Absorbing it
    into the heap at 4096 returns at once: the state is what it was, the
    delayed-free head of 16384 is still 24576 and not [NULL], and the
    delayed-free list of 4096 is the single block 16432, without 24576. *)
Lemma absorb_without_pages_keeps_delayed_free :
  block_seg (E := demo) (blocks demo_world) 16384 7 11 24576 [24576] 0 /\
  mi_heap_absorb (E := demo) 8 4096 16384 demo_world = Some (tt, demo_world) /\
  (thread_delayed_free <$> heaps demo_world !! 16384) = Some 24576 /\
  (thread_delayed_free <$> heaps demo_world !! 4096) = Some 16432 /\
  block_seg (E := demo) (blocks demo_world) 4096 3 6 16432 [16432] 0.
Proof.
  split; [exact demo_stray_list|]. split; [reflexivity|].
  split; [reflexivity|]. split; [reflexivity | exact demo_backing_list].
Qed.

Section QuietDestroy.
Context {E : Externals} {EO : ExternalsOk}.
Context (S : list N) (heap : N) (heap_in : heap ∈ S).

#[local] Existing Instance quiet_preorder.
#[local] Hint Extern 1 (steps (quiet _) (modify _)) => no_heap_change : steps.
#[local] Hint Extern 1 (steps (quiet _) (record_call _)) => no_heap_change : steps.
#[local] Hint Extern 1 (steps (quiet _) (heap_upd _ _)) =>
  (apply quiet_heap_upd; [assumption | keeps_identity]) : steps.

Lemma quiet_page_upd (page : N) (f : mi_page_t -> mi_page_t) :
  steps (quiet S) (page_upd page f).
Proof. unfold page_upd. steps_go. Qed.

#[local] Hint Resolve quiet_page_upd : steps.

Lemma quiet_page_destroy (h : N) (pq : mi_page_queue_ptr) (page : N) (a : unit) :
  steps (quiet S) (_mi_heap_page_destroy h pq page a).
Proof. unfold _mi_heap_page_destroy, mi_page_block_size. steps_go. Qed.

(** [_mi_heap_destroy_pages] changes the heap it is given and no other. *)
Lemma quiet_destroy_pages : steps (quiet S) (_mi_heap_destroy_pages heap).
Proof.
  unfold _mi_heap_destroy_pages.
  apply steps_bind; [typeclasses eauto | steps_go |]. intros _.
  apply steps_bind; [typeclasses eauto | | intros _; now apply quiet_reset_pages].
  apply steps_visit_pages; [typeclasses eauto|]. apply quiet_page_destroy.
Qed.

End QuietDestroy.

(** ** Releasing a heap *)

Section HeapFree.
Context {E : Externals} {EO : ExternalsOk}.

Lemma is_backing_Some (heap : N) (w : world) hp td :
  heaps w !! heap = Some hp -> tlds w !! tld hp = Some td ->
  mi_heap_is_backing heap w = Some (heap_backing td =? heap, w).
Proof. intros Hh Ht. unfold mi_heap_is_backing. unfold_m. now run. Qed.

Lemma heap_free_backing (heap : N) (w : world) hp td :
  heaps w !! heap = Some hp -> tlds w !! tld hp = Some td ->
  heap_backing td = heap ->
  mi_heap_free heap w = Some (tt, w).
Proof.
  intros Hh Ht Hb. unfold mi_heap_free.
  rewrite (bind_Some _ _ _ _ _ (is_backing_Some heap w hp td Hh Ht)).
  apply N.eqb_eq in Hb. now rewrite Hb.
Qed.

Lemma heap_free_other (heap : N) (w : world) hp td :
  heaps w !! heap = Some hp -> tlds w !! tld hp = Some td ->
  heap_backing td <> heap ->
  exists w',
    mi_heap_free heap w = Some (tt, w') /\
    heaps w' = heaps w /\ tlds w' = tlds w /\ abandoned w' = abandoned w /\
    freed w' = heap :: freed w /\
    default_heap w' =
      (if heap =? default_heap w then heap_backing td else default_heap w) /\
    calls w' =
      Call_free heap ::
      (if heap =? default_heap w
       then [Call_set_default_direct (heap_backing td)] else [])
      ++ calls w.
Proof.
  intros Hh Ht Hb. unfold mi_heap_free.
  rewrite (bind_Some _ _ _ _ _ (is_backing_Some heap w hp td Hh Ht)).
  apply N.eqb_neq in Hb. rewrite Hb.
  unfold mi_heap_is_default, mi_get_default_heap, _mi_heap_set_default_direct,
    mi_free.
  unfold_m. cbn beta iota.
  destruct (heap =? default_heap w); run_maps; eexists; now repeat split.
Qed.

Lemma quiet_then_free_live (S : list N) (heap : N) (w w1 w' : world) hp td :
  heaps w !! heap = Some hp -> tlds w !! tld hp = Some td ->
  heap_backing td <> heap ->
  heap_live w (heap_backing td) -> heap_live w (default_heap w) ->
  quiet S w w1 -> mi_heap_free heap w1 = Some (tt, w') ->
  heap_live w' (default_heap w').
Proof.
  intros Hh Ht Hb [LB1 LB2] [LD1 LD2] (QT & QA & QD & QF & QH) Hfree.
  assert (Hsome : forall x, is_Some (heaps w !! x) -> is_Some (heaps w1 !! x)).
  { intros x [hx Hx]. pose proof (proj2 (QH x)) as Hid. rewrite Hx in Hid.
    destruct (heaps w1 !! x); [now eexists | contradiction]. }
  pose proof (proj2 (QH heap)) as Hid. rewrite Hh in Hid.
  destruct (heaps w1 !! heap) as [hp1|] eqn:Hh1; [|contradiction].
  destruct Hid as (Htld & _).
  assert (Ht1 : tlds w1 !! tld hp1 = Some td) by (now rewrite QT, Htld).
  destruct (heap_free_other heap w1 hp1 td Hh1 Ht1 Hb)
    as (w'' & Hr & Hhs & _ & _ & Hfr & Hdef & _).
  rewrite Hr in Hfree. injection Hfree as <-.
  rewrite Hdef, QD. unfold heap_live. rewrite Hhs, Hfr, QF.
  destruct (N.eqb_spec heap (default_heap w)) as [Heq|Hneq].
  - split; [now apply Hsome|].
    intros [Hx|Hx]%elem_of_cons; [congruence | contradiction].
  - split; [now apply Hsome|].
    intros [Hx|Hx]%elem_of_cons; [congruence | contradiction].
Qed.

End HeapFree.

(** ** Computations that keep every heap with its descriptor *)

Lemma steps_weaken {A : Type} (R R' : world -> world -> Prop) (m : M A) :
  (forall w w', R w w' -> R' w w') -> steps R m -> steps R' m.
Proof. intros HR Hm w a w' H. apply HR. eapply Hm. eassumption. Qed.

Section Steady.
Context {E : Externals} {EO : ExternalsOk}.

Lemma same_tld_refl (o : option mi_heap_t) : same_tld o o.
Proof. now destruct o. Qed.

#[local] Instance steady_preorder : PreOrder steady.
Proof.
  split.
  - intros w. split; [reflexivity | intros x; apply same_tld_refl].
  - intros w1 w2 w3 [T1 H1] [T2 H2]. split; [congruence|].
    intros x. specialize (H1 x). specialize (H2 x).
    destruct (heaps w1 !! x), (heaps w2 !! x), (heaps w3 !! x);
      cbn in *; try tauto; congruence.
Qed.

Lemma quiet_steady (S : list N) (w w' : world) : quiet S w w' -> steady w w'.
Proof.
  intros (T & _ & _ & _ & H). split; [exact T|].
  intros x. pose proof (proj2 (H x)) as Hx.
  destruct (heaps w !! x), (heaps w' !! x); cbn in *; tauto.
Qed.

Lemma steady_same (w w' : world) :
  heaps w' = heaps w -> tlds w' = tlds w -> steady w w'.
Proof.
  intros H T. split; [exact T|]. intros x. rewrite H. apply same_tld_refl.
Qed.

Lemma steady_heap_upd (heap : N) (f : mi_heap_t -> mi_heap_t) :
  (forall hp, tld (f hp) = tld hp) -> steps steady (heap_upd heap f).
Proof.
  intros Hf w a w' H. unfold heap_upd in H.
  apply bind_inv in H as (hp & w1 & H1 & H).
  apply heap_get_inv in H1 as [Hh ->].
  unfold modify in H. injection H as _ <-.
  split; [reflexivity|]. intros x. cbn [heaps set_heaps].
  destruct (decide (heap = x)) as [->|Hne].
  - rewrite lookup_insert_eq, Hh. apply Hf.
  - rewrite lookup_insert_ne by assumption. apply same_tld_refl.
Qed.

(** A state change by a collaborator, or one that touches no heap. *)
Ltac steady_change :=
  apply steps_modify; intros;
  first [ apply steady_same; reflexivity
        | eapply quiet_steady;
          first [ apply deferred_free_quiet | apply delayed_free_quiet
                | apply collect_retired_quiet
                | apply segment_thread_collect_quiet | apply mem_collect_quiet
                | apply stats_done_quiet | apply segments_absorb_quiet
                | apply stat_decrease_giant_quiet
                | apply stat_decrease_huge_quiet
                | apply segment_page_free_quiet
                | apply page_free_collect_quiet ] ].

#[local] Hint Extern 1 (steps steady (modify _)) => steady_change : steps.
#[local] Hint Extern 1 (steps steady (record_call _)) => steady_change : steps.
#[local] Hint Extern 1 (steps steady (heap_upd _ _)) =>
  (apply steady_heap_upd; intros ?; reflexivity) : steps.

Lemma steady_absorb (fuel : nat) (heap from : N) :
  steps steady (mi_heap_absorb fuel heap from).
Proof.
  apply (steps_weaken (quiet [heap; from])); [apply quiet_steady|].
  apply quiet_absorb; [now left | right; now left].
Qed.

Lemma steady_cas_abandoned (d e : N) : steps steady (cas_abandoned d e).
Proof. unfold cas_abandoned. steps_go. Qed.

Lemma steady_abandoned_last (n : nat) (last : N) :
  steps steady (abandoned_last n last).
Proof. revert last. induction n; intros last; cbn [abandoned_last]; steps_go. Qed.

#[local] Hint Resolve steady_absorb steady_cas_abandoned
  steady_abandoned_last : steps.

Lemma steady_prepend_publish (n : nat) (first last : N) :
  steps steady (prepend_publish n first last).
Proof. induction n; cbn [prepend_publish]; steps_go. Qed.

#[local] Hint Resolve steady_prepend_publish : steps.

Lemma steady_prepend (fuel : nat) (first : N) :
  steps steady (mi_heap_prepend_abandoned fuel first).
Proof. unfold mi_heap_prepend_abandoned. steps_go. Qed.

Lemma steady_backing_free (heap : N) : steps steady (_mi_heap_backing_free heap).
Proof. unfold _mi_heap_backing_free. steps_go. Qed.

#[local] Hint Resolve steady_prepend steady_backing_free : steps.

Lemma steady_reclaim_all (n fuel : nat) (heap reclaim : N) :
  steps steady (reclaim_all n fuel heap reclaim).
Proof.
  revert reclaim. induction n; intros reclaim; cbn [reclaim_all]; steps_go.
Qed.

#[local] Hint Resolve steady_reclaim_all : steps.

Lemma steady_try_reclaim (fuel : nat) (heap : N) (all : bool) :
  steps steady (_mi_heap_try_reclaim_abandoned fuel heap all).
Proof.
  unfold _mi_heap_try_reclaim_abandoned, exchange_abandoned. steps_go.
Qed.

#[local] Hint Resolve steady_try_reclaim : steps.

Lemma steady_collect_ex (fuel : nat) (heap : N) (c : mi_collect_t) :
  steps steady (mi_heap_collect_ex fuel heap c).
Proof. unfold mi_heap_collect_ex, mi_heap_is_initialized. steps_go. Qed.

#[local] Hint Resolve steady_collect_ex : steps.

(** The abandon keeps every heap with its descriptor. *)
Lemma steady_collect_abandon (fuel : nat) (heap : N) :
  steps steady (_mi_heap_collect_abandon fuel heap).
Proof. unfold _mi_heap_collect_abandon. steps_go. Qed.

(** Deleting the backing heap is abandoning it: [mi_heap_free] then finds
    the backing heap and leaves it alone. *)
Lemma delete_backing_is_abandon (fuel : nat) (heap : N) (w : world) hp td :
  heaps w !! heap = Some hp -> tld hp <> 0 ->
  tlds w !! tld hp = Some td -> heap_backing td = heap ->
  mi_heap_delete fuel heap w = _mi_heap_collect_abandon fuel heap w.
Proof.
  intros Hh Hi Ht Hb. unfold mi_heap_delete.
  rewrite (bind_Some _ _ _ _ _ (is_initialized_Some heap w hp Hh)).
  apply N.eqb_neq in Hi. rewrite Hi. cbn [negb].
  rewrite (bind_Some _ _ _ _ _ (is_backing_Some heap w hp td Hh Ht)).
  apply N.eqb_eq in Hb as Hb'. rewrite Hb'. cbn [negb].
  unfold bind at 1.
  destruct (_mi_heap_collect_abandon fuel heap w) as [[[] w1]|] eqn:Hr;
    [|reflexivity].
  destruct (steady_collect_abandon fuel heap w tt w1 Hr) as [T Hs].
  specialize (Hs heap). rewrite Hh in Hs.
  destruct (heaps w1 !! heap) as [hp1|] eqn:Hh1; [|contradiction].
  cbn in Hs.
  apply (heap_free_backing heap w1 hp1 td Hh1); [|exact Hb].
  now rewrite T, Hs.
Qed.

End Steady.

(** ** The abandoned list *)

Section HeapChain.

Lemma heap_chain_nil_inv (hs : gmap N mi_heap_t) (l : list N) :
  heap_chain hs 0 l -> l = [].
Proof. inversion 1; [reflexivity | congruence]. Qed.

Lemma heap_chain_cons_inv (hs : gmap N mi_heap_t) (h : N) (l : list N) :
  h <> 0 -> heap_chain hs h l ->
  exists hp l', l = h :: l' /\ hs !! h = Some hp /\
                heap_chain hs (abandoned_next hp) l'.
Proof. intros Hh H. inversion H; subst; [congruence | eauto]. Qed.

Lemma heap_chain_functional (hs : gmap N mi_heap_t) (h : N) (l1 l2 : list N) :
  heap_chain hs h l1 -> heap_chain hs h l2 -> l1 = l2.
Proof.
  intros H1. revert l2. induction H1 as [|h hp l Hh Hl Hc IH]; intros l2 H2.
  - now apply heap_chain_nil_inv in H2.
  - apply heap_chain_cons_inv in H2 as (hp' & l' & -> & Hl' & Hc'); [|exact Hh].
    rewrite Hl in Hl'. injection Hl' as <-. f_equal. now apply IH.
Qed.

Lemma heap_chain_suffix (hs : gmap N mi_heap_t) (h y : N) (l : list N) :
  heap_chain hs h l -> y ∈ l ->
  exists l1 l2, l = l1 ++ y :: l2 /\ heap_chain hs y (y :: l2).
Proof.
  induction 1 as [|h hp l Hh Hl Hc IH]; intros Hy.
  - inversion Hy.
  - apply elem_of_cons in Hy as [-> | Hy].
    + exists [], l. split; [reflexivity | econstructor; eassumption].
    + destruct (IH Hy) as (l1 & l2 & -> & Hc2).
      exists (h :: l1), l2. now split.
Qed.

(** The abandoned list visits no heap twice. *)
Lemma heap_chain_NoDup (hs : gmap N mi_heap_t) (h : N) (l : list N) :
  heap_chain hs h l -> NoDup l.
Proof.
  induction 1 as [|h hp l Hh Hl Hc IH]; constructor; [|exact IH].
  intros Hin.
  destruct (heap_chain_suffix _ _ _ _ Hc Hin) as (l1 & l2 & -> & Hc2).
  assert (Hfull : heap_chain hs h (h :: l1 ++ h :: l2))
    by (econstructor; eassumption).
  pose proof (heap_chain_functional _ _ _ _ Hfull Hc2) as Heq.
  apply (f_equal length) in Heq. cbn in Heq.
  rewrite length_app in Heq. cbn in Heq. lia.
Qed.

Lemma heap_chain_nonzero (hs : gmap N mi_heap_t) (h : N) (l : list N) :
  heap_chain hs h l -> forall x, x ∈ l -> x <> 0.
Proof.
  induction 1 as [|h hp l Hh Hl Hc IH]; intros y Hy.
  - inversion Hy.
  - apply elem_of_cons in Hy as [-> | Hy]; [assumption | now apply IH].
Qed.

Lemma heap_chain_ext (hs hs' : gmap N mi_heap_t) (h : N) (l : list N) :
  (forall x, x ∈ l -> hs' !! x = hs !! x) ->
  heap_chain hs h l -> heap_chain hs' h l.
Proof.
  intros Hext H. induction H as [|h hp l Hh Hl Hc IH]; [constructor|].
  econstructor; [exact Hh | | ].
  - rewrite Hext; [exact Hl | now left].
  - apply IH. intros x Hx. apply Hext. now right.
Qed.

Lemma all_populated_ext (w w' : world) (l : list N) :
  (forall x, x ∈ l -> heaps w' !! x = heaps w !! x) ->
  all_populated w l -> all_populated w' l.
Proof. intros Hext H x Hx. rewrite Hext by assumption. now apply H. Qed.

Lemma stack_ext (w w' : world) (l : list N) :
  abandoned w' = abandoned w ->
  (forall x, x ∈ l -> heaps w' !! x = heaps w !! x) ->
  abandoned_stack w l -> all_populated w l ->
  abandoned_stack w' l /\ all_populated w' l.
Proof.
  intros Ha Hext Hs Hp. split.
  - unfold abandoned_stack. rewrite Ha. now apply (heap_chain_ext (heaps w)).
  - now apply (all_populated_ext w).
Qed.

#[local] Instance stack_kept_preorder (h : N) : PreOrder (stack_kept h).
Proof.
  split.
  - intros w l Hs Hp Hn. exists l. now repeat split.
  - intros w1 w2 w3 H12 H23 l Hs Hp Hn.
    destruct (H12 l Hs Hp Hn) as (l2 & Hs2 & Hp2 & Hn2 & Hsuf2).
    destruct (H23 l2 Hs2 Hp2 Hn2) as (l3 & Hs3 & Hp3 & Hn3 & Hsuf3).
    exists l3. repeat split; try assumption. now transitivity l2.
Qed.

Lemma quiet_stack_kept (h : N) (w w' : world) :
  quiet [h] w w' -> stack_kept h w w'.
Proof.
  intros (_ & A & _ & _ & H) l Hs Hp Hn.
  exists l. destruct (stack_ext w w' l A) as [Hs' Hp']; try assumption.
  - intros x Hx. apply H. intros Hin.
    apply list_elem_of_singleton in Hin as ->. contradiction.
  - now repeat split.
Qed.

Lemma same_stack_kept (h : N) (w w' : world) :
  heaps w' = heaps w -> abandoned w' = abandoned w -> stack_kept h w w'.
Proof.
  intros H A l Hs Hp Hn. exists l.
  destruct (stack_ext w w' l A) as [Hs' Hp']; try assumption.
  - intros x _. now rewrite H.
  - now repeat split.
Qed.

End HeapChain.

Section Reclaim.
Context {E : Externals} {EO : ExternalsOk}.

#[local] Existing Instance stack_kept_preorder.
#[local] Existing Instance quiet_preorder.

(** The state in which the reclaim of one heap starts to absorb: the head
    [r] of the abandoned list is cut off and the list starts at its
    successor. *)
Lemma try_reclaim_one_eq (fuel : nat) (h : N) (w : world) hp rp :
  heaps w !! h = Some hp -> no_reclaim hp = false ->
  abandoned w <> 0 -> heaps w !! abandoned w = Some rp ->
  _mi_heap_try_reclaim_abandoned fuel h false w
  = reclaim_all fuel fuel h (abandoned w)
      (set_abandoned (abandoned_next rp)
         (set_heaps <[abandoned w := set_abandoned_next 0 rp]>
            (add_call (Call_try_reclaim_abandoned h false) w))).
Proof.
  intros Hh Hn Ha Hr.
  unfold _mi_heap_try_reclaim_abandoned, exchange_abandoned,
    mi_heap_prepend_abandoned, cas_abandoned.
  unfold_m. run_maps. rewrite Hn. run_maps.
  apply N.eqb_neq in Ha. rewrite Ha. run_maps. rewrite Ha. cbn [negb].
  run_maps.
  destruct (abandoned_next rp =? 0) eqn:Hnx.
  - apply N.eqb_eq in Hnx. rewrite Hnx. reflexivity.
  - run_maps. reflexivity.
Qed.

Lemma try_reclaim_skip_eq (fuel : nat) (h : N) (all : bool) (w : world) hp :
  heaps w !! h = Some hp -> no_reclaim hp = true \/ abandoned w = 0 ->
  _mi_heap_try_reclaim_abandoned fuel h all w
  = Some (tt, add_call (Call_try_reclaim_abandoned h all) w).
Proof.
  intros Hh Hc. unfold _mi_heap_try_reclaim_abandoned. unfold_m. run_maps.
  destruct (no_reclaim hp); [reflexivity|].
  destruct Hc as [Hc|Hc]; [discriminate|]. run_maps. now rewrite Hc.
Qed.

Lemma try_reclaim_no_heap (fuel : nat) (h : N) (all : bool) (w : world) :
  heaps w !! h = None -> _mi_heap_try_reclaim_abandoned fuel h all w = None.
Proof.
  intros Hh. unfold _mi_heap_try_reclaim_abandoned. unfold_m. now run_maps.
Qed.

(** Reclaiming one heap takes the head off the abandoned list and leaves
    the rest as it was. *)
Lemma try_reclaim_stack_kept (fuel : nat) (h : N) :
  steps (stack_kept h) (_mi_heap_try_reclaim_abandoned fuel h false).
Proof.
  intros w [] w' H l Hs Hp Hn.
  destruct (heaps w !! h) as [hp|] eqn:Hh.
  2:{ now rewrite (try_reclaim_no_heap fuel h false w Hh) in H. }
  destruct (no_reclaim hp) eqn:Hnr.
  { rewrite (try_reclaim_skip_eq fuel h false w hp Hh) in H by (now left).
    injection H as <-. exists l. now repeat split. }
  destruct (N.eq_dec (abandoned w) 0) as [Ha|Ha].
  { rewrite (try_reclaim_skip_eq fuel h false w hp Hh) in H by (now right).
    injection H as <-. exists l. now repeat split. }
  destruct (heap_chain_cons_inv _ _ _ Ha Hs) as (rp & l0 & -> & Hr & Hc).
  pose proof (heap_chain_NoDup _ _ _ Hs) as Hnd.
  apply NoDup_cons in Hnd as [Hrl Hnd].
  apply not_elem_of_cons in Hn as [Hhr Hn].
  rewrite (try_reclaim_one_eq fuel h w hp rp Hh Hnr Ha Hr) in H.
  set (r := abandoned w) in *.
  set (w3 := set_abandoned _ _) in H.
  assert (Hr3 : heaps w3 !! r = Some (set_abandoned_next 0 rp))
    by (unfold w3; now run_maps).
  destruct fuel as [|n]; [discriminate|]. cbn [reclaim_all] in H.
  rewrite (bind_Some _ _ _ _ _ (heap_get_Some _ _ _ Hr3)) in H.
  apply bind_inv in H as ([] & w4 & Habs & H).
  apply (quiet_absorb [h; r]) in Habs; [|now left|right; now left].
  destruct Habs as (_ & A4 & _ & _ & H4).
  apply bind_inv in H as (hp4 & w4' & Hg & H).
  apply heap_get_inv in Hg as [_ ->].
  apply bind_inv in H as (rp4 & w4' & Hg & H).
  apply heap_get_inv in Hg as [_ ->].
  apply bind_inv in H as ([] & w5 & Hm & H).
  unfold modify in Hm. injection Hm as <-.
  destruct (segments_absorb_quiet (thread_id hp4) (tld hp4) (tld rp4) w4)
    as [(_ & A5 & _ & _ & H5) _].
  apply bind_inv in H as ([] & w6 & Hf & H).
  unfold _mi_heap_backing_free in Hf. unfold_m. injection Hf as <-.
  cbn [abandoned_next set_abandoned_next N.eqb] in H. unfold ret in H.
  injection H as <-.
  assert (Hext : forall x, x ∈ l0 -> heaps
            (add_freed r (add_call (Call_backing_free r)
               (_mi_segments_absorb (thread_id hp4) (tld hp4) (tld rp4) w4)))
            !! x = heaps w !! x).
  { intros x Hx. cbn [heaps add_freed add_call].
    rewrite (proj1 (H5 x)) by (intros Hin; inversion Hin).
    rewrite (proj1 (H4 x)).
    - unfold w3. cbn [heaps set_abandoned set_heaps add_call].
      apply lookup_insert_ne. intros <-. contradiction.
    - intros [->|[->|Hin]%elem_of_cons]%elem_of_cons;
        [contradiction | contradiction | inversion Hin]. }
  exists l0. split; [|split; [|split]].
  - unfold abandoned_stack. cbn [abandoned add_freed add_call].
    rewrite A5, A4. unfold w3. cbn [abandoned set_abandoned].
    now apply (heap_chain_ext (heaps w)).
  - apply (all_populated_ext w); [exact Hext|].
    intros x Hx. apply Hp. now right.
  - exact Hn.
  - apply suffix_cons_r. reflexivity.
Qed.

#[local] Instance abandoned_same_preorder : PreOrder abandoned_same.
Proof.
  split; [intros w; reflexivity|].
  intros w1 w2 w3 H1 H2. unfold abandoned_same in *. congruence.
Qed.

(** The loop that absorbs the reclaimed heaps does not touch the head of
    the abandoned list. *)
Lemma reclaim_all_abandoned_same (n fuel : nat) (h reclaim : N) :
  steps abandoned_same (reclaim_all n fuel h reclaim).
Proof.
  assert (Hq : forall S w w', quiet S w w' -> abandoned_same w w').
  { intros S w w' (_ & A & _). exact A. }
  revert reclaim. induction n as [|n IH]; intros reclaim; cbn [reclaim_all];
    unfold _mi_heap_backing_free; steps_go.
  - apply (steps_weaken (quiet [h; reclaim])); [apply Hq|].
    apply quiet_absorb; [now left | right; now left].
  - apply steps_modify. intros w.
    apply (Hq []), segments_absorb_quiet.
  - apply steps_modify. intros w. reflexivity.
  - apply steps_modify. intros w. reflexivity.
Qed.

(** Reclaiming all heaps empties the abandoned list. *)
Lemma try_reclaim_all_stack_kept (fuel : nat) (h : N) :
  steps (stack_kept h) (_mi_heap_try_reclaim_abandoned fuel h true).
Proof.
  intros w [] w' H l Hs Hp Hn.
  destruct (heaps w !! h) as [hp|] eqn:Hh.
  2:{ now rewrite (try_reclaim_no_heap fuel h true w Hh) in H. }
  destruct (no_reclaim hp) eqn:Hnr.
  { rewrite (try_reclaim_skip_eq fuel h true w hp Hh) in H by (now left).
    injection H as <-. exists l. now repeat split. }
  destruct (N.eq_dec (abandoned w) 0) as [Ha|Ha].
  { rewrite (try_reclaim_skip_eq fuel h true w hp Hh) in H by (now right).
    injection H as <-. exists l. now repeat split. }
  assert (Heq : _mi_heap_try_reclaim_abandoned fuel h true w
                = reclaim_all fuel fuel h (abandoned w)
                    (set_abandoned 0
                       (add_call (Call_try_reclaim_abandoned h true) w))).
  { unfold _mi_heap_try_reclaim_abandoned, exchange_abandoned.
    unfold_m. run_maps. rewrite Hnr. run_maps.
    apply N.eqb_neq in Ha. rewrite Ha. run_maps. now rewrite Ha. }
  rewrite Heq in H. apply reclaim_all_abandoned_same in H.
  unfold abandoned_same in H. cbn [abandoned set_abandoned] in H.
  exists []. split; [|split; [|split]].
  - unfold abandoned_stack. rewrite H. constructor.
  - intros x Hx. inversion Hx.
  - intros Hx. inversion Hx.
  - apply suffix_nil.
Qed.

(** A state change that leaves the abandoned heaps alone. *)
Ltac keeps_stack :=
  apply steps_modify; intros;
  first [ apply same_stack_kept; reflexivity
        | apply quiet_stack_kept;
          first [ apply deferred_free_quiet | apply delayed_free_quiet
                | apply collect_retired_quiet
                | apply quiet_from_nil;
                  first [ apply segment_thread_collect_quiet
                        | apply mem_collect_quiet | apply stats_done_quiet ] ] ].

#[local] Hint Extern 1 (steps (stack_kept _) (modify _)) => keeps_stack : steps.
#[local] Hint Resolve try_reclaim_stack_kept try_reclaim_all_stack_kept : steps.

(** The collect of an abandoning heap keeps the abandoned list populated. *)
Lemma collect_abandon_mode_stack_kept (fuel : nat) (h : N) :
  steps (stack_kept h) (mi_heap_collect_ex fuel h ABANDON).
Proof.
  unfold mi_heap_collect_ex, mi_heap_is_initialized.
  cbn [mi_collect_rank N.eqb N.leb N.ltb N.compare Pos.compare Pos.eqb
       Pos.compare_cont].
  steps_go.
Qed.

(** A collect keeps the abandoned list populated, in every mode. *)
Lemma collect_stack_kept (fuel : nat) (h : N) (mode : mi_collect_t) :
  steps (stack_kept h) (mi_heap_collect_ex fuel h mode).
Proof.
  unfold mi_heap_collect_ex, mi_heap_is_initialized.
  destruct mode;
    cbn [mi_collect_rank N.eqb N.leb N.ltb N.compare Pos.compare Pos.eqb
         Pos.compare_cont];
    steps_go.
Qed.

(** Pushing a populated heap on the abandoned list. *)
Lemma abandon_push_spec (fuel : nat) (h : N) (w1 : world) hp1 (l1 : list N) :
  h <> 0 -> (0 < fuel)%nat ->
  heaps w1 !! h = Some hp1 -> page_count hp1 <> 0 ->
  abandoned_stack w1 l1 -> all_populated w1 l1 -> h ∉ l1 ->
  exists w',
    bind (heap_upd h (set_abandoned_next 0))
         (fun _ => mi_heap_prepend_abandoned fuel h) w1 = Some (tt, w') /\
    abandoned w' = h /\ freed w' = freed w1 /\
    abandoned_stack w' (h :: l1) /\ all_populated w' (h :: l1).
Proof.
  intros Hh0 Hfuel Hh Hpc Hs Hp Hn.
  destruct fuel as [|n]; [lia|].
  rewrite (bind_Some _ _ _ _ _ (heap_upd_Some h _ w1 hp1 Hh)).
  unfold mi_heap_prepend_abandoned, cas_abandoned.
  apply N.eqb_neq in Hh0 as Hh0'. rewrite Hh0'.
  unfold_m. run_maps.
  assert (Hpop : forall (w' : world) hp',
            heaps w' !! h = Some hp' -> page_count hp' = page_count hp1 ->
            (forall x, x ∈ l1 -> heaps w' !! x = heaps w1 !! x) ->
            all_populated w' (h :: l1)).
  { intros w' hp' Hh' Hpc' Hext x [->|Hx]%elem_of_cons.
    - exists hp'. split; [exact Hh'|]. lia.
    - rewrite Hext by exact Hx. now apply Hp. }
  destruct (abandoned w1 =? 0) eqn:Ha; run_maps.
  - apply N.eqb_eq in Ha. unfold abandoned_stack in Hs. rewrite Ha in Hs.
    apply heap_chain_nil_inv in Hs as ->.
    eexists. split; [reflexivity|]. cbn [abandoned freed set_abandoned set_heaps].
    repeat split.
    + unfold abandoned_stack. cbn [abandoned heaps set_abandoned set_heaps].
      econstructor; [exact Hh0 | apply lookup_insert_eq | constructor].
    + apply (Hpop _ (set_abandoned_next 0 hp1));
        [cbn; apply lookup_insert_eq | reflexivity | intros x Hx; inversion Hx].
  - cbn [abandoned_last prepend_publish]. unfold cas_abandoned.
    unfold_m. run_maps. cbn [abandoned_next set_abandoned_next N.eqb].
    run_maps. rewrite N.eqb_refl. run_maps.
    eexists. split; [reflexivity|]. cbn [abandoned freed set_abandoned set_heaps].
    assert (Hext : forall x, x ∈ l1 ->
              (<[h := set_abandoned_next (abandoned w1)
                        (set_abandoned_next 0 hp1)]>
                 (<[h := set_abandoned_next 0 hp1]> (heaps w1))) !! x
              = heaps w1 !! x).
    { intros x Hx. rewrite !lookup_insert_ne; [reflexivity| |];
        intros <-; contradiction. }
    repeat split.
    + unfold abandoned_stack. cbn [abandoned heaps set_abandoned set_heaps].
      econstructor; [exact Hh0 | apply lookup_insert_eq |].
      cbn [abandoned_next set_abandoned_next].
      now apply (heap_chain_ext (heaps w1)).
    + eapply Hpop; [cbn; apply lookup_insert_eq | reflexivity | exact Hext].
Qed.

Lemma steady_lookup (w w' : world) (x : N) hp :
  steady w w' -> heaps w !! x = Some hp ->
  exists hp', heaps w' !! x = Some hp' /\ tld hp' = tld hp.
Proof.
  intros [_ H] Hx. specialize (H x). rewrite Hx in H.
  destruct (heaps w' !! x) as [hp'|]; [now exists hp' | contradiction].
Qed.

(** With enough fuel, the reclaim of one heap returns when the
    delayed-free list of the head of the abandoned list can be walked. *)
Lemma try_reclaim_one_returns (fuel : nat) (h : N) (w : world) hp (l : list N) :
  heaps w !! h = Some hp -> (0 < fuel)%nat ->
  abandoned_stack w l -> all_populated w l -> h ∉ l ->
  (forall rp, heaps w !! abandoned w = Some rp ->
     exists lr, block_seg (blocks w) (abandoned w) (key0 rp) (key1 rp)
                          (thread_delayed_free rp) lr 0 /\
                (length lr < fuel)%nat) ->
  exists w', _mi_heap_try_reclaim_abandoned fuel h false w = Some (tt, w').
Proof.
  intros Hh Hfuel Hs Hp Hn Hwalk.
  destruct (no_reclaim hp) eqn:Hnr.
  { eexists. apply (try_reclaim_skip_eq fuel h false w hp Hh). now left. }
  destruct (N.eq_dec (abandoned w) 0) as [Ha|Ha].
  { eexists. apply (try_reclaim_skip_eq fuel h false w hp Hh). now right. }
  destruct (heap_chain_cons_inv _ _ _ Ha Hs) as (rp & l0 & -> & Hr & Hc).
  apply not_elem_of_cons in Hn as [Hhr Hn].
  destruct (Hp (abandoned w) ltac:(now left)) as (rp' & Hr' & Hpc).
  rewrite Hr in Hr'. injection Hr' as <-.
  destruct (Hwalk rp Hr) as (lr & Hseg & Hlen).
  rewrite (try_reclaim_one_eq fuel h w hp rp Hh Hnr Ha Hr).
  set (r := abandoned w) in *.
  set (w3 := set_abandoned _ _).
  assert (Hr3 : heaps w3 !! r = Some (set_abandoned_next 0 rp))
    by (unfold w3; now run_maps).
  assert (Hh3 : heaps w3 !! h = Some hp)
    by (unfold w3; now run_maps).
  destruct fuel as [|n]; [lia|]. cbn [reclaim_all].
  rewrite (bind_Some _ _ _ _ _ (heap_get_Some _ _ _ Hr3)).
  destruct (absorb_spec h r Hhr (S n) w3 hp (set_abandoned_next 0 rp) lr
              Ha Hh3 Hr3) as (w4 & hp4 & rp4 & Hr4 & Hh4 & Hrr4 & _);
    [cbn; lia | exact Hseg | exact Hlen |].
  rewrite (bind_Some _ _ _ _ _ Hr4).
  rewrite (bind_Some _ _ _ _ _ (heap_get_Some _ _ _ Hh4)).
  rewrite (bind_Some _ _ _ _ _ (heap_get_Some _ _ _ Hrr4)).
  now eexists.
Qed.

(** With enough fuel, the collect of an abandoning heap returns. *)
Lemma collect_abandon_mode_returns (fuel : nat) (h : N) (w : world) hp
    (l : list N) :
  heaps w !! h = Some hp -> (0 < fuel)%nat ->
  abandoned_stack w l -> all_populated w l -> h ∉ l ->
  (forall rp,
     heaps (_mi_deferred_free h true w)
       !! abandoned (_mi_deferred_free h true w) = Some rp ->
     exists lr,
       block_seg (blocks (_mi_deferred_free h true w))
                 (abandoned (_mi_deferred_free h true w))
                 (key0 rp) (key1 rp) (thread_delayed_free rp) lr 0 /\
       (length lr < fuel)%nat) ->
  exists w0, mi_heap_collect_ex fuel h ABANDON w = Some (tt, w0).
Proof.
  intros Hh Hfuel Hs Hp Hn Hwalk.
  unfold mi_heap_collect_ex.
  rewrite (bind_Some _ _ _ _ _ (is_initialized_Some h w hp Hh)).
  destruct (tld hp =? 0); cbn [negb]; [now eexists|].
  cbn [mi_collect_rank N.eqb N.leb N.ltb N.compare Pos.compare Pos.eqb
       Pos.compare_cont andb].
  set (wa := _mi_deferred_free h true w) in *.
  rewrite (bind_Some _ _ _ tt wa) by reflexivity.
  destruct (deferred_free_quiet h true w) as [Qa _]. fold wa in Qa.
  destruct (quiet_stack_kept h w wa Qa l Hs Hp Hn)
    as (la & Hsa & Hpa & Hna & _).
  destruct (steady_lookup w wa h hp (quiet_steady _ _ _ Qa) Hh)
    as (hpa & Hha & _).
  destruct (try_reclaim_one_returns fuel h wa hpa la Hha Hfuel Hsa Hpa Hna
              Hwalk) as (w2 & Hr2).
  rewrite (bind_Some _ _ _ _ _ Hr2).
  destruct (steady_lookup wa w2 h hpa
              (steady_try_reclaim fuel h false wa tt w2 Hr2) Hha)
    as (hp2 & Hh2 & _).
  set (w3 := _mi_heap_delayed_free h w2).
  rewrite (bind_Some _ _ _ tt w3) by reflexivity.
  set (w4 := _mi_heap_collect_retired h true w3).
  rewrite (bind_Some _ _ _ tt w4) by reflexivity.
  destruct (steady_lookup w2 w3 h hp2
              (quiet_steady _ _ _ (proj1 (delayed_free_quiet h w2))) Hh2)
    as (hp3 & Hh3 & _). fold w3 in Hh3.
  destruct (steady_lookup w3 w4 h hp3
              (quiet_steady _ _ _ (proj1 (collect_retired_quiet h true w3))) Hh3)
    as (hp4 & Hh4 & _). fold w4 in Hh4.
  rewrite (bind_bind (heap_get h)).
  rewrite (bind_Some _ _ _ _ _ (heap_get_Some _ _ _ Hh4)).
  set (w5 := _mi_segment_thread_collect (tld hp4) w4).
  rewrite (bind_Some _ _ _ tt w5) by reflexivity.
  rewrite (bind_Some _ _ _ (_mi_is_main_thread w5) w5) by reflexivity.
  destruct (_mi_is_main_thread w5); [|now eexists].
  destruct (steady_lookup w4 w5 h hp4
              (quiet_steady _ _ _
                 (proj1 (segment_thread_collect_quiet (tld hp4) w4))) Hh4)
    as (hp5 & Hh5 & _).
  rewrite (bind_Some _ _ _ _ _ (heap_get_Some _ _ _ Hh5)).
  now eexists.
Qed.

(** The abandon, once its collect has returned in the state [w0]. *)
Lemma abandon_after_collect (fuel : nat) (h : N) (w w0 : world)
    (l : list N) :
  h <> 0 -> (0 < fuel)%nat ->
  abandoned_stack w l -> all_populated w l -> h ∉ l ->
  mi_heap_collect_ex fuel h ABANDON w = Some (tt, w0) ->
  exists hp0 l1 w',
    heaps w0 !! h = Some hp0 /\
    abandoned_stack (_mi_stats_done (tld hp0) w0) l1 /\
    (l1 `suffix_of` l) /\
    _mi_heap_collect_abandon fuel h w = Some (tt, w') /\
    (page_count hp0 = 0 ->
       freed w' = h :: freed (_mi_stats_done (tld hp0) w0) /\
       abandoned_stack w' l1 /\ all_populated w' l1) /\
    (page_count hp0 <> 0 ->
       freed w' = freed (_mi_stats_done (tld hp0) w0) /\
       abandoned w' = h /\
       abandoned_stack w' (h :: l1) /\ all_populated w' (h :: l1)).
Proof.
  intros Hh0 Hfuel Hs Hp Hn Hc.
  destruct (collect_abandon_mode_stack_kept fuel h w tt w0 Hc l Hs Hp Hn)
    as (l0 & Hs0 & Hp0 & Hn0 & Hsuf).
  assert (Hex : is_Some (heaps w0 !! h)).
  { destruct (steady_collect_ex fuel h ABANDON w tt w0 Hc) as [_ Hst].
    specialize (Hst h). unfold mi_heap_collect_ex in Hc.
    apply bind_inv in Hc as (b & wi & Hi & _).
    unfold mi_heap_is_initialized in Hi.
    apply bind_inv in Hi as (hp & wi' & Hg & _).
    apply heap_get_inv in Hg as [Hg _]. rewrite Hg in Hst.
    destruct (heaps w0 !! h); [now eexists | contradiction]. }
  destruct Hex as [hp0 Hh].
  set (w1 := _mi_stats_done (tld hp0) w0).
  destruct (stats_done_quiet (tld hp0) w0) as [Q _]. fold w1 in Q.
  assert (Hh1 : heaps w1 !! h = Some hp0).
  { destruct Q as (_ & _ & _ & _ & HQ).
    rewrite (proj1 (HQ h)); [exact Hh | intros Hin; inversion Hin]. }
  destruct (quiet_stack_kept h w0 w1 (quiet_from_nil [h] w0 w1 Q)
              l0 Hs0 Hp0 Hn0) as (l1 & Hs1 & Hp1 & Hn1 & Hsuf1).
  assert (Hrun : forall w',
            (if page_count hp0 =? 0 then _mi_heap_backing_free h
             else bind (heap_upd h (set_abandoned_next 0))
                    (fun _ => mi_heap_prepend_abandoned fuel h)) w1
            = Some (tt, w') ->
            _mi_heap_collect_abandon fuel h w = Some (tt, w')).
  { intros w' Hr. unfold _mi_heap_collect_abandon.
    rewrite (bind_Some _ _ _ _ _ Hc).
    rewrite (bind_Some _ _ _ _ _ (heap_get_Some _ _ _ Hh)).
    rewrite (bind_Some _ _ _ tt w1) by reflexivity.
    rewrite (bind_Some _ _ _ _ _ (heap_get_Some _ _ _ Hh1)).
    exact Hr. }
  destruct (N.eq_dec (page_count hp0) 0) as [Hz|Hnz].
  - exists hp0, l1, (add_freed h (add_call (Call_backing_free h) w1)).
    split; [exact Hh|]. split; [exact Hs1|].
    split; [now transitivity l0|]. split; [|split].
    + apply Hrun. apply N.eqb_eq in Hz. rewrite Hz. reflexivity.
    + intros _. split; [reflexivity|].
      now apply (stack_ext w1).
    + intros Hne. contradiction.
  - destruct (abandon_push_spec fuel h w1 hp0 l1 Hh0 Hfuel Hh1 Hnz Hs1 Hp1 Hn1)
      as (w' & Hr & Ha & Hf & Hs' & Hp').
    exists hp0, l1, w'.
    split; [exact Hh|]. split; [exact Hs1|].
    split; [now transitivity l0|]. split; [|split].
    + apply Hrun. apply N.eqb_neq in Hnz. rewrite Hnz. exact Hr.
    + intros Hz. contradiction.
    + intros _. now repeat split.
Qed.

(** C8.  The abandoned list holds populated heaps only, and the abandon
    of a heap keeps it so.  Let the abandoned list be [l], every heap of
    it with [page_count > 0], and let [h] be a heap that is not on it; let
    the delayed-free list of the head of the abandoned list be one that
    can be walked with the fuel at hand when the collect starts to reclaim.
    Then the collect of the abandon (mode ABANDON) returns, and leaves a
    tail [l1] of [l] as the abandoned list; and the abandon returns.  If
    [page_count] of [h] is 0 after the collect, [h] is released at once
    and the list stays [l1]; otherwise [h] becomes the head of the list,
    in front of [l1], and is not released.  In both cases every heap of
    the list has [page_count > 0]. *)
Theorem abandon_keeps_stack_populated (fuel : nat) (h : N) (w : world) hp
    (l : list N) :
  h <> 0 -> heaps w !! h = Some hp -> (0 < fuel)%nat ->
  abandoned_stack w l -> all_populated w l -> h ∉ l ->
  (forall rp,
     heaps (_mi_deferred_free h true w)
       !! abandoned (_mi_deferred_free h true w) = Some rp ->
     exists lr,
       block_seg (blocks (_mi_deferred_free h true w))
                 (abandoned (_mi_deferred_free h true w))
                 (key0 rp) (key1 rp) (thread_delayed_free rp) lr 0 /\
       (length lr < fuel)%nat) ->
  exists w0 hp0 l1 w',
    mi_heap_collect_ex fuel h ABANDON w = Some (tt, w0) /\
    heaps w0 !! h = Some hp0 /\
    abandoned_stack (_mi_stats_done (tld hp0) w0) l1 /\
    (l1 `suffix_of` l) /\
    _mi_heap_collect_abandon fuel h w = Some (tt, w') /\
    (page_count hp0 = 0 ->
       freed w' = h :: freed (_mi_stats_done (tld hp0) w0) /\
       abandoned_stack w' l1 /\ all_populated w' l1) /\
    (page_count hp0 <> 0 ->
       freed w' = freed (_mi_stats_done (tld hp0) w0) /\
       abandoned w' = h /\
       abandoned_stack w' (h :: l1) /\ all_populated w' (h :: l1)).
Proof.
  intros Hh0 Hh Hfuel Hs Hp Hn Hwalk.
  destruct (collect_abandon_mode_returns fuel h w hp l Hh Hfuel Hs Hp Hn Hwalk)
    as (w0 & Hc).
  destruct (abandon_after_collect fuel h w w0 l Hh0 Hfuel Hs Hp Hn Hc)
    as (hp0 & l1 & w' & H).
  exists w0, hp0, l1, w'. split; [exact Hc | exact H].
Qed.

End Reclaim.

(** The abandoned list of the second configuration. *)
Lemma demo_stack : abandoned_stack demo_world2 [20480; 24576].
Proof.
  apply (heap_chain_cons _ 20480 demo_abandoned1); [discriminate | reflexivity |].
  apply (heap_chain_cons _ 24576 demo_abandoned2); [discriminate | reflexivity |].
  apply heap_chain_nil.
Defined.

Lemma demo_stack_populated : all_populated demo_world2 [20480; 24576].
Proof.
  intros x Hx. apply elem_of_cons in Hx as [-> | Hx].
  - exists demo_abandoned1. split; reflexivity.
  - apply elem_of_cons in Hx as [-> | Hx].
    + exists demo_abandoned2. split; reflexivity.
    + inversion Hx.
Defined.

Lemma demo_backing_not_abandoned : 4096 ∉ [20480; 24576].
Proof.
  intros Hx. apply elem_of_cons in Hx as [Hx | Hx]; [discriminate|].
  apply elem_of_cons in Hx as [Hx | Hx]; [discriminate | inversion Hx].
Defined.

Lemma demo_head_walkable (rp : mi_heap_t) :
  heaps (_mi_deferred_free (Externals := demo) 4096 true demo_world2)
    !! abandoned (_mi_deferred_free (Externals := demo) 4096 true demo_world2)
  = Some rp ->
  exists lr,
    block_seg (E := demo)
      (blocks (_mi_deferred_free (Externals := demo) 4096 true demo_world2))
      (abandoned (_mi_deferred_free (Externals := demo) 4096 true demo_world2))
      (key0 rp) (key1 rp) (thread_delayed_free rp) lr 0 /\
    (length lr < 8)%nat.
Proof.
  intros H. injection H as <-. exists []. split.
  - apply (block_seg_nil (E := demo)).
  - cbn. lia.
Defined.

Lemma abandon_keeps_stack_populated_witness :
  exists w0 hp0 l1 w',
    mi_heap_collect_ex (E := demo) 8 4096 ABANDON demo_world2 = Some (tt, w0) /\
    heaps w0 !! 4096 = Some hp0 /\
    abandoned_stack (_mi_stats_done (Externals := demo) (tld hp0) w0) l1 /\
    (l1 `suffix_of` [20480; 24576]) /\
    _mi_heap_collect_abandon (E := demo) 8 4096 demo_world2 = Some (tt, w') /\
    (page_count hp0 = 0 ->
       freed w' =
         4096 :: freed (_mi_stats_done (Externals := demo) (tld hp0) w0) /\
       abandoned_stack w' l1 /\ all_populated w' l1) /\
    (page_count hp0 <> 0 ->
       freed w' = freed (_mi_stats_done (Externals := demo) (tld hp0) w0) /\
       abandoned w' = 4096 /\
       abandoned_stack w' (4096 :: l1) /\ all_populated w' (4096 :: l1)).
Proof.
  apply (abandon_keeps_stack_populated (E := demo) (EO := demo_ok) 8 4096
           demo_world2 demo_backing [20480; 24576]).
  - discriminate.
  - reflexivity.
  - lia.
  - exact demo_stack.
  - exact demo_stack_populated.
  - exact demo_backing_not_abandoned.
  - exact demo_head_walkable.
Defined.

(** ** The page walk, page by page *)

Section VisitOrder.
Context {E : Externals} {A : Type} (fn : heap_page_visitor_fun A) (heap : N).

#[local] Instance same_queues_preorder : PreOrder (same_queues heap).
Proof.
  split.
  - intros w hp H. now exists hp.
  - intros w1 w2 w3 H12 H23 hp H.
    destruct (H12 hp H) as (hp2 & H2 & P2).
    destruct (H23 hp2 H2) as (hp3 & H3 & P3).
    exists hp3. split; [exact H3 | congruence].
Qed.

Lemma visit_each_page_app (l1 l2 : list (mi_page_queue_ptr * N)) (a : A)
    (w : world) :
  visit_each_page fn heap (l1 ++ l2) a w
  = match visit_each_page fn heap l1 a w with
    | Some ((true, a'), w') => visit_each_page fn heap l2 a' w'
    | r => r
    end.
Proof.
  revert a w. induction l1 as [|[pq page] l1 IH]; intros a w; [reflexivity|].
  cbn [app visit_each_page]. unfold bind.
  destruct (fn heap pq page a w) as [[[b a'] w']|]; [|reflexivity].
  cbn [fst snd]. destruct b; [apply IH | reflexivity].
Qed.

Context (fn_keeps : forall pq page a, steps (same_queues heap) (fn heap pq page a)).

Lemma visit_each_page_keeps (l : list (mi_page_queue_ptr * N)) (a : A) :
  steps (same_queues heap) (visit_each_page fn heap l a).
Proof.
  revert a. induction l as [|[pq page] l IH]; intros a; cbn [visit_each_page].
  - apply steps_ret. typeclasses eauto.
  - apply steps_bind; [typeclasses eauto | apply fn_keeps |].
    intros r. destruct (fst r); [apply IH | apply steps_ret; typeclasses eauto].
Qed.

(** With such a visitor the pages still to come stay the end of the live
    queue, and the walk of a queue is the visit of its pages in turn. *)
Lemma visit_queue_each (i : nat) (q : mi_page_queue_t) (a : A) (w : world)
    hp :
  heaps w !! heap = Some hp -> queue_tail q (pages hp i) = true ->
  visit_queue fn heap (heap, i) q a w
  = visit_each_page fn heap (map (fun page => ((heap, i), page)) q) a w.
Proof.
  revert a w hp. induction q as [|page q IH]; intros a w hp Hh Ht;
    [reflexivity|].
  cbn [visit_queue map visit_each_page fst snd].
  rewrite (bind_Some _ _ _ _ _ (heap_get_Some _ _ _ Hh)), Ht. cbn [negb].
  unfold bind.
  destruct (fn heap (heap, i) page a w) as [[r w']|] eqn:Hr; [|reflexivity].
  destruct (fst r); [|reflexivity].
  destruct (fn_keeps _ _ _ _ _ _ Hr hp Hh) as (hp' & Hh' & Hp).
  apply (IH _ _ hp' Hh'). rewrite Hp. now apply queue_tail_cons in Ht.
Qed.

Lemma visit_bins_each (bins : list nat) (a : A) (w : world) hp :
  heaps w !! heap = Some hp ->
  visit_bins fn heap bins a w
  = visit_each_page fn heap (queued_pages heap hp bins) a w.
Proof.
  revert a w hp. induction bins as [|i bins IH]; intros a w hp Hh;
    [reflexivity|].
  cbn [visit_bins queued_pages flat_map].
  rewrite (bind_Some _ _ _ _ _ (heap_get_Some _ _ _ Hh)).
  unfold bind.
  rewrite (visit_queue_each i (pages hp i) a w hp Hh (queue_tail_refl _)).
  rewrite visit_each_page_app.
  destruct (visit_each_page fn heap _ a w) as [[[b a'] w']|] eqn:Hr;
    [|reflexivity].
  cbn [fst snd]. destruct b; [|reflexivity].
  destruct (visit_each_page_keeps _ _ _ _ _ Hr hp Hh) as (hp' & Hh' & Hp).
  rewrite (IH a' w' hp' Hh'). unfold queued_pages. now rewrite Hp.
Qed.

(** X1.  [mi_heap_visit_pages] on a heap that holds pages calls the visitor
    on the pages of the queues 0 to [MI_BIN_FULL], queue by queue and each
    queue from its first page to its last, every page once, with the
    address of its queue; it stops at the first call that answers false
    and answers false then, and answers true otherwise.  This holds for
    every visitor that leaves the queues of the heap as they are. *)
Theorem visit_pages_in_queue_order (a : A) (w : world) hp :
  heap <> 0 -> heaps w !! heap = Some hp -> page_count hp <> 0 ->
  mi_heap_visit_pages heap fn a w
  = visit_each_page fn heap
      (queued_pages heap hp (seq 0 (S MI_BIN_FULL))) a w.
Proof.
  intros Hz Hh Hc. unfold mi_heap_visit_pages.
  apply N.eqb_neq in Hz as ->. apply N.eqb_neq in Hc.
  rewrite (bind_Some _ _ _ _ _ (heap_get_Some _ _ _ Hh)), Hc.
  now apply visit_bins_each.
Qed.

End VisitOrder.

Lemma check_owned_keeps_queues (p heap : N) (pq : mi_page_queue_ptr)
    (page : N) (a : bool) :
  steps (same_queues heap)
        (mi_heap_page_check_owned (E := demo) p heap pq page a).
Proof.
  unfold mi_heap_page_check_owned, mi_page_block_size.
  repeat first
    [ apply steps_ret; apply same_queues_preorder
    | apply steps_page_get; apply same_queues_preorder
    | apply steps_bind; [apply same_queues_preorder | | intros ?] ].
Defined.

Lemma visit_pages_in_queue_order_witness :
  mi_heap_visit_pages (E := demo) 4096 (mi_heap_page_check_owned (E := demo) 16392)
    false demo_world
  = visit_each_page (mi_heap_page_check_owned (E := demo) 16392) 4096
      (queued_pages 4096 demo_backing (seq 0 (S (MI_BIN_FULL (Externals := demo)))))
      false demo_world.
Proof.
  apply (visit_pages_in_queue_order (E := demo)
           (mi_heap_page_check_owned (E := demo) 16392) 4096
           (check_owned_keeps_queues 16392 4096) false demo_world demo_backing).
  - discriminate.
  - reflexivity.
  - discriminate.
Defined.

(** ** The public visit, area by area *)

Section VisitAreas.
Context {E : Externals} {EO : ExternalsOk}.
Context (fuel : nat) (heap : N) (visitor : mi_block_visit_fun).
Context (visitor_keeps :
           forall o a b s, steps (same_queues heap) (visitor o a b s)).

Lemma quiet_same_queues (S : list N) (w w' : world) :
  heap ∉ S -> quiet S w w' -> same_queues heap w w'.
Proof.
  intros Hn (_ & _ & _ & _ & H) hp Hh. exists hp.
  split; [|reflexivity]. now rewrite (proj1 (H heap) Hn).
Qed.

Lemma visit_areas_page_keeps (pq : mi_page_queue_ptr) (page : N) (a : unit) :
  steps (same_queues heap)
        (mi_heap_visit_areas_page
           (mi_heap_area_visitor fuel false visitor) heap pq page a).
Proof.
  unfold mi_heap_visit_areas_page, mi_heap_area_visitor, mi_page_block_size.
  repeat first
    [ apply visitor_keeps
    | apply steps_ret; apply same_queues_preorder
    | apply steps_page_get; apply same_queues_preorder
    | apply steps_modify; intros w;
      apply (quiet_same_queues []);
      [intros H; inversion H | apply page_free_collect_quiet]
    | apply steps_bind; [apply same_queues_preorder | | intros ?]
    | match goal with |- steps _ (if ?b then _ else _) => destruct b end ].
Qed.

Lemma visit_each_page_areas (l : list (mi_page_queue_ptr * N)) (w : world) :
  bind (visit_each_page
          (mi_heap_visit_areas_page (mi_heap_area_visitor fuel false visitor))
          heap l tt)
       (fun r => ret (fst r)) w
  = visit_each_area visitor heap (map snd l) w.
Proof.
  revert w. induction l as [|[pq page] l IH]; intros w; [reflexivity|].
  cbn [visit_each_page map snd visit_each_area].
  unfold mi_heap_visit_areas_page, mi_heap_area_visitor, mi_page_block_size,
    area_of_page.
  unfold bind, modify, page_get, deref, ret in *.
  cbn [xarea_area area_block_size xarea_page].
  destruct (page_store (_mi_page_free_collect page false w) !! page)
    as [pg|] eqn:Hpg; [|reflexivity].
  cbn beta iota. rewrite Hpg. cbn beta iota.
  destruct (visitor heap _ 0 (xblock_size pg)
              (_mi_page_free_collect page false w)) as [[ok w2]|];
    [|reflexivity].
  destruct ok; cbn [negb fst snd]; [apply IH | reflexivity].
Qed.

(** X2.  [mi_heap_visit_blocks] without the visit of the blocks is the
    visit of the areas.  On a heap that holds pages, with [visit_blocks]
    false, it goes through the pages of the queues 0 to [MI_BIN_FULL] in
    the order of the queues; for each page it collects the free lists of
    the page and calls the visitor once, with the area of the page, no
    block ([NULL]) and the block size of the page; it answers false at
    the first call that answers false, and true after the last page.  This
    holds for every visitor that leaves the queues of the heap as they
    are. *)
Theorem visit_blocks_without_blocks_visits_areas (w : world) hp :
  heap <> 0 -> heaps w !! heap = Some hp -> page_count hp <> 0 ->
  mi_heap_visit_blocks fuel heap false visitor w
  = visit_each_area visitor heap
      (map snd (queued_pages heap hp (seq 0 (S MI_BIN_FULL)))) w.
Proof.
  intros Hz Hh Hc.
  unfold mi_heap_visit_blocks, mi_heap_visit_areas, mi_heap_visit_pages.
  apply N.eqb_neq in Hz as ->. apply N.eqb_neq in Hc.
  rewrite <- visit_each_page_areas.
  unfold bind at 1 3.
  rewrite (bind_Some _ _ _ _ _ (heap_get_Some _ _ _ Hh)), Hc.
  now rewrite (visit_bins_each _ heap visit_areas_page_keeps _ tt w hp Hh).
Qed.

End VisitAreas.

Lemma demo_visitor_keeps_queues (heap o : N) (a : mi_heap_area_t) (b s : N) :
  steps (same_queues heap) (demo_visitor o a b s).
Proof. intros w r w' H. injection H as _ <-. intros hp Hh. now exists hp. Defined.

Lemma visit_blocks_without_blocks_visits_areas_witness :
  mi_heap_visit_blocks (E := demo) 8 4096 false demo_visitor demo_world
  = visit_each_area (E := demo) demo_visitor 4096
      (map snd (queued_pages 4096 demo_backing
                  (seq 0 (S (MI_BIN_FULL (Externals := demo)))))) demo_world.
Proof.
  apply (visit_blocks_without_blocks_visits_areas (E := demo) (EO := demo_ok)
           8 4096 demo_visitor (demo_visitor_keeps_queues 4096)
           demo_world demo_backing).
  - discriminate.
  - reflexivity.
  - discriminate.
Defined.

(** ** The bitmap of free blocks and the walk over the used ones *)

Section FreeMap.
Context {E : Externals}.

Lemma intptr_size_pos : 0 < MI_INTPTR_SIZE.
Proof.
  rewrite intptr_size_pow2. apply N.neq_0_lt_0, N.pow_nonzero. discriminate.
Qed.

Lemma intptr_bit (i : N) :
  i - i / MI_INTPTR_SIZE * MI_INTPTR_SIZE = i mod MI_INTPTR_SIZE.
Proof.
  pose proof intptr_size_pos.
  rewrite (N.mul_comm (i / MI_INTPTR_SIZE)). symmetry. apply N.Div0.mod_eq.
Qed.

Lemma intptr_bit_lt (i : N) : i mod MI_INTPTR_SIZE < MI_INTPTR_SIZE.
Proof. pose proof intptr_size_pos. apply N.mod_lt. lia. Qed.

Lemma index_eqb (i j : N) :
  (i =? j) =
  (i / MI_INTPTR_SIZE =? j / MI_INTPTR_SIZE)
  && (j mod MI_INTPTR_SIZE =? i mod MI_INTPTR_SIZE).
Proof.
  pose proof intptr_size_pos.
  destruct (N.eqb_spec i j) as [->|Hne]; [now rewrite !N.eqb_refl|].
  destruct (N.eqb_spec (i / MI_INTPTR_SIZE) (j / MI_INTPTR_SIZE)) as [Hd|];
    [|reflexivity].
  destruct (N.eqb_spec (j mod MI_INTPTR_SIZE) (i mod MI_INTPTR_SIZE)) as [Hm|];
    [|reflexivity].
  exfalso. apply Hne.
  rewrite (N.div_mod i MI_INTPTR_SIZE), (N.div_mod j MI_INTPTR_SIZE) by lia.
  congruence.
Qed.

Lemma wrap_bit (k : N) : k < MI_INTPTR_SIZE -> wrap (N.shiftl 1 k) = 2 ^ k.
Proof.
  intros Hk. rewrite N.shiftl_1_l. unfold wrap. apply N.mod_small.
  apply N.pow_lt_mono_r; [lia|]. unfold MI_INTPTR_BITS. lia.
Qed.

Lemma land_bit (m k : N) : (N.land m (2 ^ k) =? 0) = negb (N.testbit m k).
Proof.
  destruct (N.testbit m k) eqn:Hb; cbn [negb].
  - apply N.eqb_neq. intros H0.
    assert (Hk : N.testbit (N.land m (2 ^ k)) k = true)
      by (now rewrite N.land_spec, Hb, N.pow2_bits_true).
    rewrite H0, N.bits_0 in Hk. discriminate.
  - apply N.eqb_eq. apply N.bits_inj. intros j.
    rewrite N.land_spec, N.pow2_bits_eqb, N.bits_0.
    destruct (N.eqb_spec k j) as [<-|_]; [now rewrite Hb | apply andb_false_r].
Qed.

Lemma word_small_lor (m k : N) :
  m < 2 ^ MI_INTPTR_SIZE -> k < MI_INTPTR_SIZE ->
  N.lor m (2 ^ k) < 2 ^ MI_INTPTR_SIZE.
Proof.
  intros Hm Hk.
  assert (Hp : 0 < N.lor m (2 ^ k)).
  { apply N.neq_0_lt_0. intros H0. apply N.lor_eq_0_iff in H0 as [_ H0].
    revert H0. apply N.pow_nonzero. discriminate. }
  apply (N.log2_lt_pow2 _ _ Hp). rewrite N.log2_lor.
  rewrite N.log2_pow2 by lia. apply N.max_lub_lt; [|exact Hk].
  destruct (N.eq_dec m 0) as [->|Hm0]; [cbn; lia|].
  apply N.log2_lt_pow2; [lia | exact Hm].
Qed.

Lemma word_small_not_max (m : N) :
  m < 2 ^ MI_INTPTR_SIZE -> (m =? UINTPTR_MAX) = false.
Proof.
  intros Hm. pose proof intptr_size_pos as Hs.
  assert (Hlt : 2 ^ MI_INTPTR_SIZE < 2 ^ MI_INTPTR_BITS).
  { apply N.pow_lt_mono_r; [lia|]. unfold MI_INTPTR_BITS. lia. }
  apply N.eqb_neq. unfold UINTPTR_MAX. lia.
Qed.

Lemma marked_insert (fm : list N) (idx m : N) :
  fm !! N.to_nat (idx / MI_INTPTR_SIZE) = Some m ->
  forall i,
    marked (<[N.to_nat (idx / MI_INTPTR_SIZE)
              := N.lor m (2 ^ (idx mod MI_INTPTR_SIZE))]> fm) i
    = marked fm i || (i =? idx).
Proof.
  intros Hm i. unfold marked. rewrite (index_eqb i idx).
  destruct (N.eqb_spec (i / MI_INTPTR_SIZE) (idx / MI_INTPTR_SIZE))
    as [Hd|Hd]; cbn [andb].
  - rewrite Hd, list_lookup_insert_eq by (now apply lookup_lt_Some in Hm).
    now rewrite Hm, N.lor_spec, N.pow2_bits_eqb.
  - rewrite list_lookup_insert_ne by lia. now rewrite orb_false_r.
Qed.

Lemma marked_replicate (n : nat) (i : N) : marked (replicate n 0) i = false.
Proof.
  unfold marked.
  destruct (replicate n 0 !! N.to_nat (i / MI_INTPTR_SIZE)) as [m|] eqn:Hm;
    [|reflexivity].
  apply lookup_replicate in Hm as [-> _]. apply N.bits_0.
Qed.

(** The walk over the free list sets the bit of every block of the list
    and nothing else. *)
Lemma free_map_fill_spec (page pstart bsize : N) (w : world) :
  bsize <> 0 ->
  forall (fl : list N) (b : N) (n : nat) (fm : list N),
  free_chain w page b fl -> (length fl <= n)%nat ->
  (forall x, x ∈ fl ->
     block_index pstart bsize x < N.of_nat (length fm) * MI_INTPTR_SIZE) ->
  Forall (fun m => m < 2 ^ MI_INTPTR_SIZE) fm ->
  exists fm',
    free_map_fill n page pstart bsize b fm w = Some (fm', w) /\
    length fm' = length fm /\
    Forall (fun m => m < 2 ^ MI_INTPTR_SIZE) fm' /\
    forall i,
      marked fm' i
      = marked fm i || bool_decide (i ∈ map (block_index pstart bsize) fl).
Proof.
  intros Hb. pose proof intptr_size_pos as Hsz.
  induction fl as [|x fl IH]; intros b n fm Hc Hn Hin Hs.
  - inversion Hc; subst. exists fm.
    split; [destruct n; reflexivity|]. split; [reflexivity|].
    split; [exact Hs|]. intros i. cbn [map].
    rewrite bool_decide_eq_false_2 by (intros H; inversion H).
    now rewrite orb_false_r.
  - inversion Hc as [|b' l' Hx Hc' E1 E2]; subst.
    destruct n as [|n]; [cbn in Hn; lia|]. cbn [length] in Hn.
    cbn [free_map_fill].
    apply N.eqb_neq in Hx as Hx'. rewrite Hx'.
    apply N.eqb_neq in Hb as Hb'. rewrite Hb'.
    fold (block_index pstart bsize x).
    set (idx := block_index pstart bsize x).
    assert (Hidx : idx < N.of_nat (length fm) * MI_INTPTR_SIZE)
      by (apply Hin; now left).
    assert (Hlt : (N.to_nat (idx / MI_INTPTR_SIZE) < length fm)%nat).
    { assert (idx / MI_INTPTR_SIZE < N.of_nat (length fm)); [|lia].
      apply N.Div0.div_lt_upper_bound; lia. }
    destruct (lookup_lt_is_Some_2 fm _ Hlt) as [m Hm]. rewrite Hm.
    rewrite intptr_bit, (wrap_bit _ (intptr_bit_lt idx)).
    unfold gets at 1. unfold bind at 1.
    assert (Hms : m < 2 ^ MI_INTPTR_SIZE).
    { rewrite Forall_forall in Hs. apply Hs.
      now apply list_elem_of_lookup_2 in Hm. }
    destruct (IH (mi_block_next page x w) n
                (<[N.to_nat (idx / MI_INTPTR_SIZE)
                   := N.lor m (2 ^ (idx mod MI_INTPTR_SIZE))]> fm))
      as (fm' & Hr & Hl & Hs' & Hmk).
    + exact Hc'.
    + lia.
    + intros y Hy. rewrite length_insert. apply Hin. now right.
    + apply Forall_insert; [exact Hs|].
      apply word_small_lor; [exact Hms | apply intptr_bit_lt].
    + exists fm'. split; [exact Hr|]. rewrite Hl, length_insert.
      split; [reflexivity|]. split; [exact Hs'|].
      intros i. rewrite Hmk, (marked_insert fm idx m Hm).
      rewrite <- orb_assoc. f_equal. cbn [map]. fold idx.
      destruct (N.eqb_spec i idx) as [->|Hne]; cbn [orb].
      * symmetry. apply bool_decide_eq_true_2. now left.
      * destruct (decide (i ∈ map (block_index pstart bsize) fl)) as [Hi|Hi].
        -- rewrite !bool_decide_eq_true_2; [reflexivity | now right | exact Hi].
        -- rewrite !bool_decide_eq_false_2; [reflexivity | | exact Hi].
           intros [->|H]%elem_of_cons; contradiction.
Qed.

(** X3.  The walk over the free list of a page fills the bitmap of free
    blocks with exactly these blocks: started on the empty bitmap, on a
    free list whose blocks have an index that the bitmap has room for, it
    returns, and bit [i mod MI_INTPTR_SIZE] of word [i / MI_INTPTR_SIZE] is
    set exactly when a block of the list has index [i].  Only the
    [MI_INTPTR_SIZE] low bits of a word are ever set, so that no word is
    ever [UINTPTR_MAX]. *)
Theorem free_map_marks_free_blocks (n : nat) (page pstart bsize b : N)
    (w : world) (fl : list N) :
  bsize <> 0 -> free_chain w page b fl -> (length fl <= n)%nat ->
  (forall x, x ∈ fl -> block_index pstart bsize x < free_map_room) ->
  exists fm,
    free_map_fill n page pstart bsize b (replicate free_map_words 0) w
    = Some (fm, w) /\
    length fm = free_map_words /\
    (forall i, marked fm i = true <->
               i ∈ map (block_index pstart bsize) fl) /\
    (forall m, m ∈ fm -> m < 2 ^ MI_INTPTR_SIZE /\ m <> UINTPTR_MAX).
Proof.
  intros Hb Hc Hn Hin.
  destruct (free_map_fill_spec page pstart bsize w Hb fl b n
              (replicate free_map_words 0) Hc Hn)
    as (fm & Hr & Hl & Hs & Hmk).
  - intros x Hx. rewrite length_replicate. now apply Hin.
  - apply Forall_replicate. apply N.neq_0_lt_0, N.pow_nonzero. discriminate.
  - exists fm. split; [exact Hr|]. rewrite Hl, length_replicate.
    split; [reflexivity|]. split.
    + intros i. rewrite Hmk, marked_replicate. cbn [orb].
      apply bool_decide_eq_true.
    + intros m Hm. rewrite Forall_forall in Hs. specialize (Hs m Hm).
      split; [exact Hs|]. apply N.eqb_neq. now apply word_small_not_max.
Qed.

#[local] Instance same_page_preorder (page : N) : PreOrder (same_page page).
Proof.
  split; [now intros w|].
  intros w1 w2 w3 H1 H2. unfold same_page in *. congruence.
Qed.

(** The walk over the blocks of a page calls the visitor on the blocks
    whose bit is not set. *)
Lemma visit_used_blocks_spec (visitor : mi_block_visit_fun) (page : N)
    (area : mi_heap_area_t) (pstart bsize : N) (fm : list N)
    (idxs : list N) pg :
  (forall o a b s, steps (same_page page) (visitor o a b s)) ->
  capacity pg <= N.of_nat (length fm) * MI_INTPTR_SIZE ->
  Forall (fun m => m < 2 ^ MI_INTPTR_SIZE) fm ->
  (forall i, marked fm i = bool_decide (i ∈ idxs)) ->
  forall (n : nat) (i : N) (w : world),
  page_store w !! page = Some pg ->
  N.to_nat (capacity pg) = (N.to_nat i + n)%nat ->
  visit_used_blocks n i visitor page area pstart bsize fm w
  = visit_each_block visitor (xheap pg) area bsize
      (map (block_at pstart bsize)
           (filter (fun j => j ∉ idxs) (indices n i))) w.
Proof.
  intros Hv Hcap Hs Hmk. pose proof intptr_size_pos as Hsz.
  induction n as [|n IH]; intros i w Hpg Hn.
  - cbn [visit_used_blocks indices].
    rewrite (bind_Some _ _ _ _ _ (page_get_Some _ _ _ Hpg)).
    assert (Hle : (capacity pg <=? i) = true) by (apply N.leb_le; lia).
    now rewrite Hle.
  - cbn [visit_used_blocks indices].
    rewrite (bind_Some _ _ _ _ _ (page_get_Some _ _ _ Hpg)).
    assert (Hle : (capacity pg <=? i) = false) by (apply N.leb_gt; lia).
    rewrite Hle.
    assert (Hlt : (N.to_nat (i / MI_INTPTR_SIZE) < length fm)%nat).
    { assert (i / MI_INTPTR_SIZE < N.of_nat (length fm)); [|lia].
      apply N.Div0.div_lt_upper_bound; lia. }
    destruct (lookup_lt_is_Some_2 fm _ Hlt) as [m Hm]. rewrite Hm.
    assert (Hms : m < 2 ^ MI_INTPTR_SIZE).
    { rewrite Forall_forall in Hs. apply Hs.
      now apply list_elem_of_lookup_2 in Hm. }
    rewrite (word_small_not_max m Hms), andb_false_r.
    rewrite intptr_bit, (wrap_bit _ (intptr_bit_lt i)), land_bit.
    assert (Hbit : N.testbit m (i mod MI_INTPTR_SIZE) = bool_decide (i ∈ idxs)).
    { rewrite <- Hmk. unfold marked. now rewrite Hm. }
    rewrite Hbit, filter_cons.
    assert (Hnext : N.to_nat (capacity pg) = (N.to_nat (i + 1) + n)%nat) by lia.
    destruct (decide (i ∈ idxs)) as [Hi|Hi].
    + rewrite bool_decide_eq_true_2 by exact Hi. cbn [negb].
      rewrite decide_False by (intros H; now apply H).
      now apply IH.
    + rewrite bool_decide_eq_false_2 by exact Hi. cbn [negb].
      rewrite decide_True by exact Hi. cbn [map visit_each_block].
      unfold mi_page_heap.
      rewrite (bind_bind (page_get page)).
      rewrite (bind_Some _ _ _ _ _ (page_get_Some _ _ _ Hpg)).
      unfold ret at 1. unfold bind at 1. unfold bind.
      fold (block_at pstart bsize i).
      destruct (visitor (xheap pg) area (block_at pstart bsize i) bsize w)
        as [[ok w1]|] eqn:Hr; [|reflexivity].
      destruct ok; cbn [negb]; [|reflexivity].
      apply IH; [|exact Hnext].
      rewrite <- Hpg. exact (Hv _ _ _ _ _ _ _ Hr).
Qed.

Context (fuel : nat) (xarea : mi_heap_area_ex_t) (visitor : mi_block_visit_fun).
Context (page : N) (w w1 : world) (pg : mi_page_t) (fl : list N).

(** X4.  [mi_heap_area_visit_blocks] calls the visitor on the blocks of
    the page that are in use, and on these only.  For a page that has
    blocks in use and whose capacity is not 1, whose free list is the list
    [fl] after the free lists of the page were collected, the call is the
    visit of the blocks of the page that are not on [fl], one after the
    other by increasing index, each with the owner of the page, the area
    given and the block size; it stops at the first block for which the
    visitor answers false.  The address of block [i] is the start of the blocks
    plus [i] times the block size, the product and the sum taken in the
    arithmetic of the machine word.  The capacity of the page and the
    indices of the free blocks are within the room of the bitmap, and the
    visitor leaves the page as it is. *)
Theorem area_visit_blocks_visits_used :
  xarea_page xarea = page -> page <> 0 ->
  _mi_page_free_collect page true w = w1 ->
  page_store w1 !! page = Some pg ->
  used pg <> 0 -> capacity pg <> 1 -> xblock_size pg <> 0 ->
  free_chain w1 page (free pg) fl -> (length fl <= fuel)%nat ->
  (forall b, b ∈ fl ->
     block_index (page_blocks_start page) (xblock_size pg) b < free_map_room) ->
  capacity pg <= free_map_room ->
  (forall o a b s, steps (same_page page) (visitor o a b s)) ->
  mi_heap_area_visit_blocks fuel xarea visitor w
  = visit_each_block visitor (xheap pg) (xarea_area xarea) (xblock_size pg)
      (blocks_but (page_blocks_start page) (xblock_size pg) (capacity pg)
         (map (block_index (page_blocks_start page) (xblock_size pg)) fl))
      w1.
Proof.
  intros Hxp Hp Hw1 Hpg Hu Hc1 Hb Hfl Hn Hin Hcap Hv.
  unfold mi_heap_area_visit_blocks. rewrite Hxp.
  apply N.eqb_neq in Hp as ->.
  rewrite (bind_Some _ _ _ tt w1) by (unfold modify; now rewrite Hw1).
  rewrite (bind_Some _ _ _ _ _ (page_get_Some _ _ _ Hpg)).
  apply N.eqb_neq in Hu as ->.
  unfold mi_page_block_size.
  rewrite (bind_bind (page_get page)).
  rewrite (bind_Some _ _ _ _ _ (page_get_Some _ _ _ Hpg)).
  unfold ret at 1. unfold bind at 1.
  apply N.eqb_neq in Hc1 as ->.
  fold (page_blocks_start page). fold free_map_words.
  destruct (free_map_fill_spec page (page_blocks_start page) (xblock_size pg)
              w1 Hb fl (free pg) fuel (replicate free_map_words 0) Hfl Hn)
    as (fm & Hr & Hl & Hs & Hmk).
  { intros x Hx. rewrite length_replicate. now apply Hin. }
  { apply Forall_replicate. apply N.neq_0_lt_0, N.pow_nonzero. discriminate. }
  rewrite (bind_Some _ _ _ _ _ Hr).
  rewrite length_replicate in Hl.
  apply (visit_used_blocks_spec visitor page (xarea_area xarea)
           (page_blocks_start page) (xblock_size pg) fm
           (map (block_index (page_blocks_start page) (xblock_size pg)) fl)
           pg Hv).
  - now rewrite Hl.
  - exact Hs.
  - intros i. now rewrite Hmk, marked_replicate.
  - exact Hpg.
  - cbn. lia.
Qed.

End FreeMap.

Lemma demo_free_chain : free_chain (E := demo) demo_world 64 16384 [16384].
Proof.
  apply (free_chain_cons (E := demo)); [discriminate|].
  apply (free_chain_nil (E := demo)).
Defined.

Lemma demo_free_in_room (b : N) :
  b ∈ [16384] ->
  block_index (E := demo) (page_blocks_start (E := demo) 64) 16 b
  < free_map_room (E := demo).
Proof.
  intros Hb. apply list_elem_of_singleton in Hb as ->. vm_compute. reflexivity.
Defined.

Lemma free_map_marks_free_blocks_witness :
  exists fm,
    free_map_fill (E := demo) 8 64 (page_blocks_start (E := demo) 64) 16 16384
      (replicate (free_map_words (E := demo)) 0) demo_world
    = Some (fm, demo_world) /\
    length fm = free_map_words (E := demo) /\
    (forall i, marked (E := demo) fm i = true <->
       i ∈ map (block_index (E := demo) (page_blocks_start (E := demo) 64) 16)
             [16384]) /\
    (forall m, m ∈ fm ->
       m < 2 ^ MI_INTPTR_SIZE (E := demo) /\ m <> UINTPTR_MAX (E := demo)).
Proof.
  apply (free_map_marks_free_blocks (E := demo) 8 64
           (page_blocks_start (E := demo) 64) 16 16384 demo_world [16384]).
  - discriminate.
  - exact demo_free_chain.
  - cbn. lia.
  - exact demo_free_in_room.
Defined.

Lemma demo_visitor_keeps_page (page o : N) (a : mi_heap_area_t) (b s : N) :
  steps (same_page page) (demo_visitor o a b s).
Proof. intros w r w' H. injection H as _ <-. reflexivity. Defined.

Lemma area_visit_blocks_visits_used_witness :
  mi_heap_area_visit_blocks (E := demo) 8
    (mk_xarea (mk_area 16384 128 64 3 16) 64) demo_visitor demo_world
  = visit_each_block demo_visitor 4096 (mk_area 16384 128 64 3 16) 16
      (blocks_but (E := demo) (page_blocks_start (E := demo) 64) 16 4
         (map (block_index (E := demo) (page_blocks_start (E := demo) 64) 16)
              [16384]))
      demo_world.
Proof.
  apply (area_visit_blocks_visits_used (E := demo) 8
           (mk_xarea (mk_area 16384 128 64 3 16) 64) demo_visitor 64
           demo_world demo_world (mk_page 4096 16 4 8 3 16384 0) [16384]).
  - reflexivity.
  - discriminate.
  - reflexivity.
  - reflexivity.
  - discriminate.
  - discriminate.
  - discriminate.
  - exact demo_free_chain.
  - cbn. lia.
  - exact demo_free_in_room.
  - vm_compute. discriminate.
  - exact (demo_visitor_keeps_page 64).
Defined.

(** ** Which heap a block is in, and the default heap *)

Section Owner.
Context {E : Externals}.


(** X6.  [mi_heap_set_default] answers the heap that was the default
    heap, so that setting that one again undoes the call: after
    [old = mi_heap_set_default(h)] and [mi_heap_set_default(old)], for
    initialized heaps [h] and [old], the second call has answered [h] and
    the default heap is [old] as before; no heap has changed and nothing
    has been released. *)
Theorem set_default_round_trip (h : N) (w : world) hp hd :
  heaps w !! h = Some hp -> tld hp <> 0 ->
  heaps w !! default_heap w = Some hd -> tld hd <> 0 ->
  exists w1 w2,
    mi_heap_set_default h w = Some (default_heap w, w1) /\
    default_heap w1 = h /\
    mi_heap_set_default (default_heap w) w1 = Some (h, w2) /\
    default_heap w2 = default_heap w /\
    heaps w2 = heaps w /\ freed w2 = freed w /\ abandoned w2 = abandoned w.
Proof.
  intros Hh Ht Hd Htd.
  unfold mi_heap_set_default, mi_heap_is_initialized, mi_get_default_heap,
    _mi_heap_set_default_direct.
  unfold_m. rewrite Hh. cbn beta iota.
  apply N.eqb_neq in Ht. rewrite Ht. cbn [negb].
  eexists _, _. split; [reflexivity|]. split; [reflexivity|].
  cbn [heaps set_default_heap add_call default_heap].
  rewrite Hd. apply N.eqb_neq in Htd. rewrite Htd. cbn [negb].
  repeat split.
Qed.

End Owner.


Lemma set_default_round_trip_witness :
  exists w1 w2,
    mi_heap_set_default 4096 demo_world = Some (default_heap demo_world, w1) /\
    default_heap w1 = 4096 /\
    mi_heap_set_default (default_heap demo_world) w1 = Some (4096, w2) /\
    default_heap w2 = default_heap demo_world /\
    heaps w2 = heaps demo_world /\ freed w2 = freed demo_world /\
    abandoned w2 = abandoned demo_world.
Proof.
  apply (set_default_round_trip 4096 demo_world demo_backing demo_child).
  - reflexivity.
  - discriminate.
  - reflexivity.
  - discriminate.
Defined.

(** ** Collecting, reclaiming and pushing, in full *)

Section CollectLocal.
Context {E : Externals} {EO : ExternalsOk}.

#[local] Existing Instance quiet_preorder.

Lemma quiet_lookup (S : list N) (w w' : world) (x : N) hp :
  quiet S w w' -> heaps w !! x = Some hp ->
  exists hp', heaps w' !! x = Some hp' /\ tld hp' = tld hp /\
              no_reclaim hp' = no_reclaim hp.
Proof.
  intros (_ & _ & _ & _ & H) Hx. pose proof (proj2 (H x)) as Hid.
  rewrite Hx in Hid. destruct (heaps w' !! x) as [hp'|]; [|contradiction].
  destruct Hid as (T & R & _). now exists hp'.
Qed.

(** The end of a collect: the caches of segments and regions. *)
Lemma collect_caches_quiet (h : N) (force : bool) (w : world) hp :
  heaps w !! h = Some hp ->
  exists w',
    bind (if force then
            bind (heap_get h)
                 (fun hp => modify (_mi_segment_thread_collect (tld hp)))
          else ret tt)
         (fun _ =>
            bind (gets _mi_is_main_thread)
                 (fun main =>
                    if force && main then
                      bind (heap_get h)
                           (fun hp => modify (_mi_mem_collect (tld hp)))
                    else ret tt)) w = Some (tt, w') /\
    quiet [h] w w'.
Proof.
  intros Hh. destruct force; cbn [andb].
  - rewrite (bind_bind (heap_get h)).
    rewrite (bind_Some _ _ _ _ _ (heap_get_Some _ _ _ Hh)).
    set (w1 := _mi_segment_thread_collect (tld hp) w).
    rewrite (bind_Some _ _ _ tt w1) by reflexivity.
    rewrite (bind_Some _ _ _ (_mi_is_main_thread w1) w1) by reflexivity.
    assert (Q1 : quiet [h] w w1)
      by (apply quiet_from_nil, segment_thread_collect_quiet).
    destruct (_mi_is_main_thread w1).
    + destruct (quiet_lookup _ _ _ _ _ Q1 Hh) as (hp1 & Hh1 & _).
      rewrite (bind_Some _ _ _ _ _ (heap_get_Some _ _ _ Hh1)).
      eexists. split; [reflexivity|].
      transitivity w1; [exact Q1|]. apply quiet_from_nil, mem_collect_quiet.
    + exists w1. now split.
  - exists w. split; [reflexivity | reflexivity].
Qed.

(** X7.  A collect by a heap that does not reclaim ([no_reclaim] is set),
    or while no heap is abandoned, stays with that heap: in every mode it
    returns, whatever the fuel, and it releases nothing, leaves the
    abandoned list and the default heap as they are, and changes the record
    of no other heap. *)
Theorem collect_without_reclaim_is_local (fuel : nat) (h : N)
    (mode : mi_collect_t) (w : world) hp :
  heaps w !! h = Some hp -> no_reclaim hp = true \/ abandoned w = 0 ->
  exists w',
    mi_heap_collect_ex fuel h mode w = Some (tt, w') /\ quiet [h] w w'.
Proof.
  intros Hh Hc. unfold mi_heap_collect_ex.
  rewrite (bind_Some _ _ _ _ _ (is_initialized_Some h w hp Hh)).
  destruct (tld hp =? 0); cbn [negb].
  { exists w. split; reflexivity. }
  generalize (mi_collect_rank NORMAL <? mi_collect_rank mode) as b.
  generalize (mi_collect_rank mode =? mi_collect_rank FORCE) as all.
  generalize (mi_collect_rank FORCE <=? mi_collect_rank mode) as force.
  intros force all b.
  set (wa := _mi_deferred_free h b w).
  rewrite (bind_Some _ _ _ tt wa) by reflexivity.
  destruct (deferred_free_quiet h b w) as [Qa _]. fold wa in Qa.
  destruct (quiet_lookup _ _ _ _ _ Qa Hh) as (hpa & Hha & _ & Hna).
  assert (Hc' : no_reclaim hpa = true \/ abandoned wa = 0).
  { destruct Hc as [Hc|Hc]; [left; congruence | right].
    destruct Qa as (_ & A & _). congruence. }
  rewrite (bind_Some _ _ _ _ _ (try_reclaim_skip_eq fuel h all wa hpa Hha Hc')).
  set (w2 := add_call _ wa).
  assert (Q2 : quiet [h] wa w2) by (apply quiet_same_heaps; reflexivity).
  set (w3 := _mi_heap_delayed_free h w2).
  rewrite (bind_Some _ _ _ tt w3) by reflexivity.
  assert (Q3 : quiet [h] w2 w3) by apply delayed_free_quiet.
  set (w4 := _mi_heap_collect_retired h true w3).
  rewrite (bind_Some _ _ _ tt w4) by reflexivity.
  assert (Q4 : quiet [h] w3 w4) by apply collect_retired_quiet.
  assert (Q : quiet [h] w w4).
  { transitivity wa; [exact Qa|]. transitivity w2; [exact Q2|].
    transitivity w3; [exact Q3 | exact Q4]. }
  destruct (quiet_lookup _ _ _ _ _ Q Hh) as (hp4 & Hh4 & _).
  destruct (collect_caches_quiet h force w4 hp4 Hh4) as (w' & Hr & Q').
  exists w'. split; [exact Hr|]. now transitivity w4.
Qed.

(** The loop that absorbs the heaps of the abandoned list releases them
    one after the other. *)
Lemma reclaim_all_releases (n fuel : nat) (h : N) :
  forall (r : N) (l : list N) (w w' : world),
  heap_chain (heaps w) r l -> r <> 0 -> h ∉ l ->
  reclaim_all n fuel h r w = Some (tt, w') ->
  abandoned w' = abandoned w /\ freed w' = rev l ++ freed w /\
  default_heap w' = default_heap w.
Proof.
  induction n as [|n IH]; intros r l w w' Hc Hr Hn H; [discriminate|].
  destruct (heap_chain_cons_inv _ _ _ Hr Hc) as (rp & l' & -> & Hrp & Hc').
  pose proof (heap_chain_NoDup _ _ _ Hc) as Hnd.
  apply NoDup_cons in Hnd as [Hrl Hnd].
  apply not_elem_of_cons in Hn as [Hhr Hn].
  cbn [reclaim_all] in H.
  rewrite (bind_Some _ _ _ _ _ (heap_get_Some _ _ _ Hrp)) in H.
  apply bind_inv in H as ([] & w1 & Habs & H).
  apply (quiet_absorb [h; r]) in Habs; [|now left|right; now left].
  destruct Habs as (_ & A1 & D1 & F1 & H1).
  apply bind_inv in H as (hp1 & w1' & Hg & H).
  apply heap_get_inv in Hg as [_ ->].
  apply bind_inv in H as (rp1 & w1' & Hg & H).
  apply heap_get_inv in Hg as [_ ->].
  apply bind_inv in H as ([] & w2 & Hm & H).
  unfold modify in Hm. injection Hm as <-.
  destruct (segments_absorb_quiet (thread_id hp1) (tld hp1) (tld rp1) w1)
    as [(_ & A2 & D2 & F2 & H2) _].
  apply bind_inv in H as ([] & w3 & Hf & H).
  unfold _mi_heap_backing_free in Hf. unfold_m. injection Hf as <-.
  destruct (abandoned_next rp =? 0) eqn:Hnx.
  - unfold ret in H. injection H as <-.
    apply N.eqb_eq in Hnx. rewrite Hnx in Hc'.
    apply heap_chain_nil_inv in Hc' as ->.
    cbn [abandoned freed default_heap add_freed add_call rev app].
    repeat split; congruence.
  - apply N.eqb_neq in Hnx.
    apply IH with (l := l') in H; [|  | exact Hnx | exact Hn].
    + cbn [abandoned freed default_heap add_freed add_call] in H.
      destruct H as (A & F & D). cbn [rev]. rewrite <- app_assoc. cbn [app].
      repeat split; congruence.
    + cbn [heaps add_freed add_call].
      apply (heap_chain_ext (heaps w)); [|exact Hc'].
      intros x Hx. rewrite (proj1 (H2 x)) by (intros Hin; inversion Hin).
      apply (proj1 (H1 x)).
      intros [->|[->|Hin]%elem_of_cons]%elem_of_cons;
        [contradiction | contradiction | inversion Hin].
Qed.

#[local] Instance stack_taken_preorder (h : N) : PreOrder (stack_taken h).
Proof.
  split.
  - intros w l Hs Hp Hn. exists [], l. now repeat split.
  - intros w1 w2 w3 H12 H23 l Hs Hp Hn.
    destruct (H12 l Hs Hp Hn) as (l1 & l2 & -> & Hs2 & Hp2 & Hn2 & F2 & D2).
    destruct (H23 l2 Hs2 Hp2 Hn2)
      as (l1' & l3 & -> & Hs3 & Hp3 & Hn3 & F3 & D3).
    exists (l1 ++ l1'), l3. rewrite <- app_assoc.
    repeat split; try assumption; [|congruence].
    rewrite F3, F2, rev_app_distr, <- app_assoc. reflexivity.
Qed.

Lemma quiet_stack_taken (h : N) (w w' : world) :
  quiet [h] w w' -> stack_taken h w w'.
Proof.
  intros Q l Hs Hp Hn.
  destruct (quiet_stack_kept h w w' Q l Hs Hp Hn) as (l' & Hs' & Hp' & _).
  destruct Q as (_ & A & D & F & H).
  assert (Hl : l' = l).
  { apply (heap_chain_functional (heaps w') (abandoned w')); [exact Hs'|].
    rewrite A. apply (heap_chain_ext (heaps w)); [|exact Hs].
    intros x Hx. apply (proj1 (H x)). intros Hin.
    apply list_elem_of_singleton in Hin as ->. contradiction. }
  subst l'. exists [], l. now repeat split.
Qed.

(** A reclaim takes heaps off the head of the abandoned list and releases
    them: the head if [all] is false, all of them otherwise. *)
Lemma try_reclaim_stack_taken (fuel : nat) (h : N) (all : bool) :
  steps (stack_taken h) (_mi_heap_try_reclaim_abandoned fuel h all).
Proof.
  intros w [] w' H l Hs Hp Hn.
  destruct (heaps w !! h) as [hp|] eqn:Hh.
  2:{ now rewrite (try_reclaim_no_heap fuel h all w Hh) in H. }
  assert (Hskip : no_reclaim hp = true \/ abandoned w = 0 ->
            exists l1 l2,
              l = l1 ++ l2 /\ abandoned_stack w' l2 /\ all_populated w' l2 /\
              (h ∉ l2) /\ freed w' = rev l1 ++ freed w /\
              default_heap w' = default_heap w).
  { intros Hc. rewrite (try_reclaim_skip_eq fuel h all w hp Hh Hc) in H.
    injection H as <-. exists [], l. now repeat split. }
  destruct (no_reclaim hp) eqn:Hnr; [apply Hskip; now left|].
  destruct (N.eq_dec (abandoned w) 0) as [Ha|Ha]; [apply Hskip; now right|].
  clear Hskip.
  destruct (heap_chain_cons_inv _ _ _ Ha Hs) as (rp & l0 & -> & Hr & Hc).
  pose proof (heap_chain_NoDup _ _ _ Hs) as Hnd.
  apply NoDup_cons in Hnd as [Hrl Hnd].
  destruct all.
  - assert (Heq : _mi_heap_try_reclaim_abandoned fuel h true w
                  = reclaim_all fuel fuel h (abandoned w)
                      (set_abandoned 0
                         (add_call (Call_try_reclaim_abandoned h true) w))).
    { unfold _mi_heap_try_reclaim_abandoned, exchange_abandoned.
      unfold_m. run_maps. rewrite Hnr. run_maps.
      apply N.eqb_neq in Ha. rewrite Ha. run_maps. now rewrite Ha. }
    rewrite Heq in H.
    apply (reclaim_all_releases _ _ _ _ (abandoned w :: l0)) in H;
      [| exact Hs | exact Ha | exact Hn].
    cbn [abandoned freed default_heap set_abandoned add_call] in H.
    destruct H as (A & F & D).
    exists (abandoned w :: l0), []. rewrite app_nil_r.
    repeat split; try assumption.
    + unfold abandoned_stack. rewrite A. constructor.
    + intros x Hx. inversion Hx.
    + intros Hx. inversion Hx.
  - apply not_elem_of_cons in Hn as [Hhr Hn].
    rewrite (try_reclaim_one_eq fuel h w hp rp Hh Hnr Ha Hr) in H.
    set (r := abandoned w) in *.
    set (w3 := set_abandoned _ _) in H.
    assert (Hr3 : heaps w3 !! r = Some (set_abandoned_next 0 rp))
      by (unfold w3; now run_maps).
    destruct fuel as [|n]; [discriminate|]. cbn [reclaim_all] in H.
    rewrite (bind_Some _ _ _ _ _ (heap_get_Some _ _ _ Hr3)) in H.
    apply bind_inv in H as ([] & w4 & Habs & H).
    apply (quiet_absorb [h; r]) in Habs; [|now left|right; now left].
    destruct Habs as (_ & A4 & D4 & F4 & H4).
    apply bind_inv in H as (hp4 & w4' & Hg & H).
    apply heap_get_inv in Hg as [_ ->].
    apply bind_inv in H as (rp4 & w4' & Hg & H).
    apply heap_get_inv in Hg as [_ ->].
    apply bind_inv in H as ([] & w5 & Hm & H).
    unfold modify in Hm. injection Hm as <-.
    destruct (segments_absorb_quiet (thread_id hp4) (tld hp4) (tld rp4) w4)
      as [(_ & A5 & D5 & F5 & H5) _].
    apply bind_inv in H as ([] & w6 & Hf & H).
    unfold _mi_heap_backing_free in Hf. unfold_m. injection Hf as <-.
    cbn [abandoned_next set_abandoned_next N.eqb] in H. unfold ret in H.
    injection H as <-.
    assert (Hext : forall x, x ∈ l0 -> heaps
              (add_freed r (add_call (Call_backing_free r)
                 (_mi_segments_absorb (thread_id hp4) (tld hp4) (tld rp4) w4)))
              !! x = heaps w !! x).
    { intros x Hx. cbn [heaps add_freed add_call].
      rewrite (proj1 (H5 x)) by (intros Hin; inversion Hin).
      rewrite (proj1 (H4 x)).
      - unfold w3. cbn [heaps set_abandoned set_heaps add_call].
        apply lookup_insert_ne. intros <-. contradiction.
      - intros [->|[->|Hin]%elem_of_cons]%elem_of_cons;
          [contradiction | contradiction | inversion Hin]. }
    exists [r], l0. split; [reflexivity|].
    split; [|split; [|split; [exact Hn|split]]].
    + unfold abandoned_stack. cbn [abandoned add_freed add_call].
      rewrite A5, A4. unfold w3. cbn [abandoned set_abandoned].
      now apply (heap_chain_ext (heaps w)).
    + apply (all_populated_ext w); [exact Hext|].
      intros x Hx. apply Hp. now right.
    + cbn [freed add_freed add_call rev app]. now rewrite F5, F4.
    + cbn [default_heap add_freed add_call]. now rewrite D5, D4.
Qed.

#[local] Hint Extern 1 (steps (stack_taken _) (modify _)) =>
  (apply steps_modify; intros;
   first [ apply quiet_stack_taken;
           first [ apply deferred_free_quiet | apply delayed_free_quiet
                 | apply collect_retired_quiet
                 | apply quiet_from_nil;
                   first [ apply segment_thread_collect_quiet
                         | apply mem_collect_quiet ] ] ]) : steps.
#[local] Hint Resolve try_reclaim_stack_taken : steps.

(** X8.  A collect releases what it takes off the abandoned list, and
    nothing else.  When the abandoned list is [l], every heap of it holds
    a page and the collecting heap is not on it, then after a collect
    that returns, in any mode, [l] is a list [l1] followed by a list [l2]:
    the heaps of [l1] have been released, from the first to the last, and
    [l2] is the abandoned list now, every heap of it holds a page, and the
    collecting heap is not on it.  No other storage has been released,
    not that of the collecting heap either, and the default heap is what
    it was. *)
Theorem collect_releases_what_it_takes (fuel : nat) (h : N)
    (mode : mi_collect_t) (w w' : world) (l : list N) :
  mi_heap_collect_ex fuel h mode w = Some (tt, w') ->
  abandoned_stack w l -> all_populated w l -> h ∉ l ->
  exists l1 l2,
    l = l1 ++ l2 /\ abandoned_stack w' l2 /\ all_populated w' l2 /\
    (h ∉ l2) /\ freed w' = rev l1 ++ freed w /\
    default_heap w' = default_heap w.
Proof.
  intros H.
  assert (Hs : steps (stack_taken h) (mi_heap_collect_ex fuel h mode)).
  { unfold mi_heap_collect_ex, mi_heap_is_initialized. steps_go. }
  exact (Hs w tt w' H l).
Qed.

#[local] Hint Extern 1 (steps (quiet _) (modify _)) =>
  (apply quiet_modify; intros;
   first [ apply delayed_free_quiet | apply collect_retired_quiet
         | apply quiet_from_nil;
           first [ apply segment_thread_collect_quiet
                 | apply mem_collect_quiet ] ]) : steps.

(** X9.  A forced collect by a heap that reclaims takes the whole
    abandoned list, be it [mi_heap_collect(heap, true)] or, for the default
    heap, [mi_collect(true)]: when it returns, no heap is abandoned any
    more and the heaps of the list have been released, each once, from
    the head of the list to its end. *)
Theorem forced_collect_reclaims_all (fuel : nat) (h : N) (w w' : world) hp
    (l : list N) :
  heaps w !! h = Some hp -> tld hp <> 0 -> no_reclaim hp = false ->
  abandoned_stack w l -> h ∉ l ->
  mi_heap_collect fuel h true w = Some (tt, w') \/
  (default_heap w = h /\ mi_collect fuel true w = Some (tt, w')) ->
  abandoned w' = 0 /\ freed w' = rev l ++ freed w.
Proof.
  intros Hh Ht Hnr Hs Hn H.
  assert (H' : mi_heap_collect fuel h true w = Some (tt, w')).
  { destruct H as [H|[Hd H]]; [exact H|].
    unfold mi_collect, mi_get_default_heap, gets, bind in H.
    now rewrite Hd in H. }
  clear H. rename H' into H.
  unfold mi_heap_collect, mi_heap_collect_ex in H.
  rewrite (bind_Some _ _ _ _ _ (is_initialized_Some h w hp Hh)) in H.
  apply N.eqb_neq in Ht. rewrite Ht in H. cbn [negb] in H.
  set (b := mi_collect_rank NORMAL <? mi_collect_rank FORCE) in H.
  set (wa := _mi_deferred_free h b w).
  rewrite (bind_Some _ _ _ tt wa) in H by reflexivity.
  destruct (deferred_free_quiet h b w) as [Qa _]. fold wa in Qa.
  destruct (quiet_lookup _ _ _ _ _ Qa Hh) as (hpa & Hha & _ & Hna).
  destruct Qa as (_ & Aa & _ & Fa & Ha).
  assert (Hsa : abandoned_stack wa l).
  { unfold abandoned_stack. rewrite Aa.
    apply (heap_chain_ext (heaps w)); [|exact Hs].
    intros x Hx. apply (proj1 (Ha x)). intros Hin.
    apply list_elem_of_singleton in Hin as ->. contradiction. }
  apply bind_inv in H as ([] & w2 & Hrec & H).
  assert (Hrel : abandoned w2 = 0 /\ freed w2 = rev l ++ freed wa).
  { change (mi_collect_rank FORCE =? mi_collect_rank FORCE) with true in Hrec.
    destruct (N.eq_dec (abandoned wa) 0) as [Hz|Hnz].
    - rewrite (try_reclaim_skip_eq fuel h true wa hpa Hha) in Hrec
        by (now right).
      injection Hrec as <-. unfold abandoned_stack in Hsa. rewrite Hz in Hsa.
      apply heap_chain_nil_inv in Hsa as ->. now split.
    - assert (Heq : _mi_heap_try_reclaim_abandoned fuel h true wa
                    = reclaim_all fuel fuel h (abandoned wa)
                        (set_abandoned 0
                           (add_call (Call_try_reclaim_abandoned h true) wa))).
      { unfold _mi_heap_try_reclaim_abandoned, exchange_abandoned.
        unfold_m. run_maps. rewrite Hna, Hnr. run_maps.
        apply N.eqb_neq in Hnz. rewrite Hnz. run_maps. now rewrite Hnz. }
      rewrite Heq in Hrec.
      apply (reclaim_all_releases _ _ _ _ l) in Hrec;
        [| exact Hsa | exact Hnz | exact Hn].
      cbn [abandoned freed set_abandoned add_call] in Hrec.
      destruct Hrec as (A & F & _). now split. }
  match type of H with ?m _ = _ =>
    assert (Hq : steps (quiet [h]) m) by steps_go end.
  apply Hq in H as (_ & A & _ & F & _).
  destruct Hrel as [A2 F2]. split; congruence.
Qed.

End CollectLocal.

Lemma collect_without_reclaim_is_local_witness :
  exists w',
    mi_heap_collect_ex (E := demo) 8 8192 FORCE demo_world = Some (tt, w') /\
    quiet [8192] demo_world w'.
Proof.
  apply (collect_without_reclaim_is_local (E := demo) (EO := demo_ok)
           8 8192 FORCE demo_world demo_child).
  - reflexivity.
  - left. reflexivity.
Defined.

Lemma collect_releases_what_it_takes_witness :
  exists l1 l2,
    [20480; 24576] = l1 ++ l2 /\ abandoned_stack demo_after_normal l2 /\
    all_populated demo_after_normal l2 /\ (4096 ∉ l2) /\
    freed demo_after_normal = rev l1 ++ freed demo_world2 /\
    default_heap demo_after_normal = default_heap demo_world2.
Proof.
  apply (collect_releases_what_it_takes (E := demo) (EO := demo_ok)
           8 4096 NORMAL demo_world2 demo_after_normal [20480; 24576]).
  - vm_compute. reflexivity.
  - exact demo_stack.
  - exact demo_stack_populated.
  - exact demo_backing_not_abandoned.
Defined.

Lemma forced_collect_reclaims_all_witness :
  abandoned demo_after_force = 0 /\
  freed demo_after_force = rev [20480; 24576] ++ freed demo_world2.
Proof.
  apply (forced_collect_reclaims_all (E := demo) (EO := demo_ok)
           8 4096 demo_world2 demo_after_force demo_backing [20480; 24576]).
  - reflexivity.
  - discriminate.
  - reflexivity.
  - exact demo_stack.
  - exact demo_backing_not_abandoned.
  - left. vm_compute. reflexivity.
Defined.

Section Prepend.
Context {E : Externals}.

(** The walk to the end of a list of abandoned heaps. *)
Lemma abandoned_last_spec (hs : gmap N mi_heap_t) (h : N) (l : list N) :
  heap_chain hs h l -> h <> 0 ->
  forall (n : nat) (w : world), heaps w = hs -> (length l <= n)%nat ->
  exists pre last lp,
    l = pre ++ [last] /\ abandoned_last n h w = Some (last, w) /\
    hs !! last = Some lp /\ abandoned_next lp = 0.
Proof.
  induction 1 as [|h hp l Hh Hl Hc IH]; intros Hz n w Hw Hn; [congruence|].
  destruct n as [|n]; [cbn in Hn; lia|]. cbn [length] in Hn.
  cbn [abandoned_last].
  assert (Hg : heap_get h w = Some (hp, w))
    by (apply heap_get_Some; now rewrite Hw).
  rewrite (bind_Some _ _ _ _ _ Hg).
  destruct (abandoned_next hp =? 0) eqn:Hnx.
  - apply N.eqb_eq in Hnx. rewrite Hnx in Hc.
    apply heap_chain_nil_inv in Hc as ->.
    exists [], h, hp. now repeat split.
  - apply N.eqb_neq in Hnx.
    destruct (IH Hnx n w Hw ltac:(lia)) as (pre & last & lp & -> & Hr & Hlp & Hz').
    exists (h :: pre), last, lp. now repeat split.
Qed.

Lemma heap_chain_head_inv (hs : gmap N mi_heap_t) (a r : N) (l : list N) :
  heap_chain hs a (r :: l) ->
  a = r /\ r <> 0 /\
  exists hp, hs !! r = Some hp /\ heap_chain hs (abandoned_next hp) l.
Proof. inversion 1; subst. repeat split; eauto. Qed.

(** Linking the end of one list of heaps to the head of another. *)
Lemma heap_chain_link (hs : gmap N mi_heap_t) (a last : N) lp (l0 : list N) :
  hs !! last = Some lp -> heap_chain hs a l0 ->
  forall (pre : list N) (h : N),
  heap_chain hs h (pre ++ [last]) ->
  (forall x, x ∈ pre ++ [last] -> x ∉ l0) ->
  heap_chain (<[last := set_abandoned_next a lp]> hs) h (pre ++ last :: l0).
Proof.
  intros Hlp H0. induction pre as [|p pre IH]; intros h Hc Hd.
  - cbn [app] in *.
    assert (Hl : last ∉ l0) by (apply Hd; now left).
    inversion Hc as [|h' hp' l' Hz Hh Hc' E1 E2]; subst.
    econstructor; [exact Hz | apply lookup_insert_eq |].
    cbn [abandoned_next set_abandoned_next].
    apply (heap_chain_ext hs); [|exact H0].
    intros x Hx. apply lookup_insert_ne. intros <-. contradiction.
  - cbn [app] in *.
    pose proof (heap_chain_NoDup _ _ _ Hc) as Hnd.
    apply NoDup_cons in Hnd as [Hp _].
    inversion Hc as [|h' hp' l' Hz Hh Hc' E1 E2]; subst.
    econstructor; [exact Hz | |].
    + rewrite lookup_insert_ne; [exact Hh|].
      intros <-. apply Hp. apply elem_of_app. right. now left.
    + apply IH; [exact Hc'|]. intros x Hx. apply Hd. now right.
Qed.

(** X10.  [mi_heap_prepend_abandoned] puts a list of heaps in front of the
    abandoned list.  When the heaps from [first] on, along
    [abandoned_next], are the list [l1], the abandoned list is [l0] and no
    heap is on both, the call returns; afterwards the abandoned list is
    [l1] followed by [l0].  Only the last heap of [l1] has been written
    to, and nothing has been released.  For [first == NULL] the list [l1]
    is empty and the state is left as it is. *)
Theorem prepend_abandoned_is_concat (fuel : nat) (first : N) (w : world)
    (l1 l0 : list N) :
  heap_chain (heaps w) first l1 -> abandoned_stack w l0 ->
  (forall x, x ∈ l1 -> x ∉ l0) -> (length l1 <= fuel)%nat ->
  exists w',
    mi_heap_prepend_abandoned fuel first w = Some (tt, w') /\
    abandoned_stack w' (l1 ++ l0) /\
    (forall x, x ∉ l1 -> heaps w' !! x = heaps w !! x) /\
    freed w' = freed w /\ default_heap w' = default_heap w /\
    (first = 0 -> w' = w).
Proof.
  intros H1 H0 Hd Hn. unfold mi_heap_prepend_abandoned.
  destruct (N.eqb_spec first 0) as [->|Hz].
  { apply heap_chain_nil_inv in H1 as ->. exists w. now repeat split. }
  unfold cas_abandoned. unfold_m. cbn beta iota.
  destruct (abandoned w =? 0) eqn:Ha.
  - apply N.eqb_eq in Ha. unfold abandoned_stack in H0. rewrite Ha in H0.
    apply heap_chain_nil_inv in H0 as ->. rewrite app_nil_r.
    eexists. split; [reflexivity|]. repeat split; [exact H1 | congruence].
  - destruct (abandoned_last_spec _ _ _ H1 Hz fuel w eq_refl Hn)
      as (pre & last & lp & -> & Hr & Hlp & Hlz).
    fold (bind (abandoned_last fuel first)
               (fun last => prepend_publish fuel first last) w).
    rewrite (bind_Some _ _ _ _ _ Hr).
    destruct fuel as [|n];
      [rewrite length_app in Hn; cbn in Hn; lia|].
    cbn [prepend_publish]. unfold cas_abandoned. unfold_m. run_maps.
    rewrite N.eqb_refl. run_maps.
    eexists. split; [reflexivity|].
    cbn [heaps freed default_heap set_abandoned set_heaps].
    repeat split; [| |congruence].
    + unfold abandoned_stack. cbn [abandoned heaps set_abandoned set_heaps].
      rewrite <- app_assoc. cbn [app].
      now apply heap_chain_link.
    + intros x Hx. apply lookup_insert_ne. intros <-. apply Hx.
      apply elem_of_app. right. now left.
Qed.

End Prepend.

Section ReclaimOne.
Context {E : Externals} {EO : ExternalsOk}.

(** X11.  A reclaim of one heap ([all] is false) by a heap that reclaims
    takes the head of the abandoned list and nothing else.  When the list
    is [r] followed by [l], the heap [r] holds pages and its delayed-free
    list can be walked, the call returns; afterwards the abandoned list is
    [l], the storage of [r] is released, and every queue of the reclaiming
    heap is what it was followed by the pages of the same queue of [r]. *)
Theorem reclaim_one_pops_head (fuel : nat) (h r : N) (w : world) hp rp
    (l lr : list N) :
  heaps w !! h = Some hp -> no_reclaim hp = false ->
  abandoned_stack w (r :: l) -> heaps w !! r = Some rp -> h ∉ r :: l ->
  page_count rp <> 0 ->
  block_seg (blocks w) r (key0 rp) (key1 rp) (thread_delayed_free rp) lr 0 ->
  (length lr < fuel)%nat ->
  exists w' hp',
    _mi_heap_try_reclaim_abandoned fuel h false w = Some (tt, w') /\
    abandoned_stack w' l /\ freed w' = r :: freed w /\
    heaps w' !! h = Some hp' /\
    (forall j, (j <= MI_BIN_FULL)%nat ->
       pages hp' j = pages hp j ++ pages rp j) /\
    page_count hp' =
      absorbed_count rp (seq 0 (S MI_BIN_FULL)) (page_count hp).
Proof.
  intros Hh Hnr Hs Hr Hn Hpc Hseg Hlen.
  pose proof (heap_chain_NoDup _ _ _ Hs) as Hnd.
  apply NoDup_cons in Hnd as [Hrl Hnd].
  apply not_elem_of_cons in Hn as [Hhr Hn].
  destruct (heap_chain_head_inv _ _ _ _ Hs) as (Ea & Hz & rp' & Hr' & Hc).
  rewrite Hr in Hr'. injection Hr' as <-.
  assert (Ha : abandoned w <> 0) by congruence.
  rewrite (try_reclaim_one_eq fuel h w hp rp Hh Hnr Ha); [|now rewrite Ea].
  rewrite Ea.
  set (w3 := set_abandoned _ _).
  assert (Hr3 : heaps w3 !! r = Some (set_abandoned_next 0 rp))
    by (unfold w3; now run_maps).
  assert (Hh3 : heaps w3 !! h = Some hp)
    by (unfold w3; now run_maps).
  destruct fuel as [|n]; [lia|]. cbn [reclaim_all].
  rewrite (bind_Some _ _ _ _ _ (heap_get_Some _ _ _ Hr3)).
  destruct (absorb_spec h r Hhr (S n) w3 hp (set_abandoned_next 0 rp) lr
              Hz Hh3 Hr3)
    as (w4 & hp4 & rp4 & Hr4 & Hh4 & Hrr4 & _ & _ & _ & P & C & _);
    [exact Hpc | exact Hseg | exact Hlen |].
  rewrite (bind_Some _ _ _ _ _ Hr4).
  rewrite (bind_Some _ _ _ _ _ (heap_get_Some _ _ _ Hh4)).
  rewrite (bind_Some _ _ _ _ _ (heap_get_Some _ _ _ Hrr4)).
  apply (quiet_absorb [h; r]) in Hr4; [|now left|right; now left].
  destruct Hr4 as (_ & A4 & _ & F4 & H4).
  destruct (segments_absorb_quiet (thread_id hp4) (tld hp4) (tld rp4) w4)
    as [(_ & A5 & _ & F5 & H5) _].
  eexists _, hp4. split; [reflexivity|].
  cbn [abandoned freed heaps add_freed add_call].
  split; [|split; [|split; [|split; [exact P | exact C]]]].
  - unfold abandoned_stack. cbn [abandoned heaps add_freed add_call].
    rewrite A5, A4. unfold w3. cbn [abandoned set_abandoned].
    apply (heap_chain_ext (heaps w)); [|exact Hc].
    intros x Hx. rewrite (proj1 (H5 x)) by (intros Hin; inversion Hin).
    rewrite (proj1 (H4 x)).
    + unfold w3. cbn [heaps set_abandoned set_heaps add_call].
      apply lookup_insert_ne. intros <-. contradiction.
    + intros [->|[->|Hin]%elem_of_cons]%elem_of_cons;
        [contradiction | contradiction | inversion Hin].
  - rewrite F5, F4. reflexivity.
  - rewrite (proj1 (H5 h)) by (intros Hin; inversion Hin). exact Hh4.
Qed.

End ReclaimOne.

Lemma demo_stack4 : abandoned_stack demo_world4 [4096].
Proof.
  apply (heap_chain_cons _ 4096 demo_backing); [discriminate | reflexivity |].
  apply heap_chain_nil.
Defined.

Lemma demo_lists_apart (x : N) : x ∈ [20480; 24576] -> x ∉ [4096].
Proof.
  intros Hx Hy. apply list_elem_of_singleton in Hy as ->.
  apply elem_of_cons in Hx as [Hx | Hx]; [discriminate|].
  apply elem_of_cons in Hx as [Hx | Hx]; [discriminate | inversion Hx].
Defined.

Lemma prepend_abandoned_is_concat_witness :
  exists w',
    mi_heap_prepend_abandoned 8 20480 demo_world4 = Some (tt, w') /\
    abandoned_stack w' ([20480; 24576] ++ [4096]) /\
    (forall x, x ∉ [20480; 24576] -> heaps w' !! x = heaps demo_world4 !! x) /\
    freed w' = freed demo_world4 /\
    default_heap w' = default_heap demo_world4 /\
    (20480 = 0 -> w' = demo_world4).
Proof.
  apply (prepend_abandoned_is_concat 8 20480 demo_world4
           [20480; 24576] [4096]).
  - exact demo_stack.
  - exact demo_stack4.
  - exact demo_lists_apart.
  - cbn. lia.
Defined.

Lemma reclaim_one_pops_head_witness :
  exists w' hp',
    _mi_heap_try_reclaim_abandoned (E := demo) 8 4096 false demo_world2
    = Some (tt, w') /\
    abandoned_stack w' [24576] /\ freed w' = 20480 :: freed demo_world2 /\
    heaps w' !! 4096 = Some hp' /\
    (forall j, (j <= MI_BIN_FULL (Externals := demo))%nat ->
       pages hp' j = pages demo_backing j ++ pages demo_abandoned1 j) /\
    page_count hp' =
      absorbed_count (E := demo) demo_abandoned1
        (seq 0 (S (MI_BIN_FULL (Externals := demo))))
        (page_count demo_backing).
Proof.
  apply (reclaim_one_pops_head (E := demo) (EO := demo_ok) 8 4096 20480
           demo_world2 demo_backing demo_abandoned1 [24576] []).
  - reflexivity.
  - reflexivity.
  - exact demo_stack.
  - reflexivity.
  - exact demo_backing_not_abandoned.
  - discriminate.
  - apply (block_seg_nil (E := demo)).
  - cbn. lia.
Defined.

(** ** Absorb, delete and destroy: what moves and what stays *)

Section PageOwner.
Context {E : Externals} {EO : ExternalsOk}.

(** The pages and the segments are what they were. *)
#[local] Instance same_pages_preorder :
  PreOrder (fun w w' : world =>
              page_store w' = page_store w /\ segments w' = segments w).
Proof.
  split; [now intros w|].
  intros w1 w2 w3 [P1 S1] [P2 S2]. split; congruence.
Qed.

#[local] Hint Extern 1 (steps _ (modify _)) =>
  (apply steps_modify; intros; split; reflexivity) : steps.

Lemma absorb_rest_keeps_pages (fuel : nat) (heap from first : N) :
  steps (fun w w' => page_store w' = page_store w /\ segments w' = segments w)
        (bind (if negb (first =? 0)
               then bind (absorb_reencode fuel heap from first)
                         (fun last => absorb_append fuel heap first last)
               else ret tt)
              (fun _ => mi_heap_reset_pages from)).
Proof.
  assert (Hre : forall n last,
            steps (fun w w' => page_store w' = page_store w /\
                               segments w' = segments w)
                  (absorb_reencode n heap from last)).
  { induction n as [|n IH]; intros last; cbn [absorb_reencode];
      unfold mi_block_nextx, mi_block_set_nextx; steps_go. }
  assert (Hap : forall n last,
            steps (fun w w' => page_store w' = page_store w /\
                               segments w' = segments w)
                  (absorb_append n heap first last)).
  { induction n as [|n IH]; intros last; cbn [absorb_append];
      unfold mi_block_set_nextx, cas_thread_delayed_free, heap_upd; steps_go. }
  unfold mi_heap_reset_pages, heap_upd. steps_go.
Qed.

Lemma absorb_steal_keeps_pages (n : nat) (from : N) :
  steps (fun w w' => page_store w' = page_store w /\ segments w' = segments w)
        (absorb_steal n from).
Proof.
  induction n as [|n IH]; cbn [absorb_steal];
    unfold cas_thread_delayed_free, heap_upd; steps_go.
Qed.

Lemma heap_free_keeps_pages (heap : N) :
  steps (fun w w' => page_store w' = page_store w /\ segments w' = segments w)
        (mi_heap_free heap).
Proof.
  unfold mi_heap_free, mi_heap_is_backing, mi_heap_is_default,
    mi_get_default_heap, _mi_heap_set_default_direct, mi_free, record_call.
  steps_go.
Qed.

Lemma lookup_foldr_alter (f : mi_page_t -> mi_page_t) (q : list N)
    (ps : gmap N mi_page_t) (x : N) :
  (forall pg, f (f pg) = f pg) ->
  foldr (fun page => alter f page) ps q !! x
  = if decide (x ∈ q) then f <$> ps !! x else ps !! x.
Proof.
  intros Hf. induction q as [|page q IH]; cbn [foldr].
  - rewrite decide_False; [reflexivity | intros H; inversion H].
  - destruct (decide (page = x)) as [->|Hne].
    + rewrite lookup_alter_eq, IH.
      destruct (decide (x ∈ x :: q)) as [_|Hn]; [|exfalso; apply Hn; now left].
      destruct (decide (x ∈ q)); [|reflexivity].
      destruct (ps !! x); cbn; [now rewrite Hf | reflexivity].
    + rewrite lookup_alter_ne by assumption. rewrite IH.
      destruct (decide (x ∈ q)) as [Hin|Hin].
      * rewrite decide_True by (now right). reflexivity.
      * rewrite decide_False; [reflexivity|].
        intros [->|H]%elem_of_cons; [congruence | contradiction].
Qed.

(** The loop that appends the queues names [heap] as the owner of the
    pages it appends, and leaves every other page as it is. *)
Lemma absorb_queues_owner (heap from : N) (bins : list nat) :
  heap <> from -> forall w hpt hpf,
  heaps w !! heap = Some hpt -> heaps w !! from = Some hpf ->
  exists w1,
    absorb_queues heap from bins w = Some (tt, w1) /\
    segments w1 = segments w /\
    forall x,
      page_store w1 !! x =
        if decide (Exists (fun i => x ∈ pages hpf i) bins)
        then set_xheap heap <$> page_store w !! x
        else page_store w !! x.
Proof.
  intros Hne. induction bins as [|i bins IH]; intros w hpt hpf Hh Hf.
  - exists w. split; [reflexivity|]. split; [reflexivity|].
    intros x. rewrite decide_False; [reflexivity|].
    intros H. inversion H.
  - cbn [absorb_queues]. unfold _mi_page_queue_append.
    unfold_m. run_maps.
    match goal with
    | |- exists _, absorb_queues _ _ _ ?w2 = _ /\ _ =>
        edestruct (IH w2) as (w1 & Hr & Hs & Hp)
    end.
    { run_maps. reflexivity. }
    { run_maps. reflexivity. }
    exists w1. split; [exact Hr|]. split; [exact Hs|].
    intros x. rewrite Hp. cbn [page_store set_heaps set_page_store pages
                                set_page_count].
    rewrite lookup_foldr_alter by reflexivity.
    cbn [pages set_page_count].
    repeat case_decide; try reflexivity;
      try (destruct (page_store w !! x); reflexivity);
      try (exfalso;
           match goal with
           | H : ~ Exists _ (_ :: _) |- _ =>
               apply H;
               first [ apply Exists_cons_hd; assumption
                     | apply Exists_cons_tl; assumption ]
           end);
      try (match goal with
           | H : Exists _ (_ :: _) |- _ =>
               apply Exists_cons in H as [?|?]; contradiction
           end).
Qed.

(** The pages after an absorb that moves pages. *)
Lemma absorb_owner (fuel : nat) (heap from : N) (w w' : world) hpt hpf :
  heap <> from -> from <> 0 ->
  heaps w !! heap = Some hpt -> heaps w !! from = Some hpf ->
  page_count hpf <> 0 ->
  mi_heap_absorb fuel heap from w = Some (tt, w') ->
  segments w' = segments w /\
  forall x,
    page_store w' !! x =
      if decide (Exists (fun i => x ∈ pages hpf i) (seq 0 (S MI_BIN_FULL)))
      then set_xheap heap <$> page_store w !! x
      else page_store w !! x.
Proof.
  intros Hne Hz Hh Hf Hpc H. unfold mi_heap_absorb in H.
  apply N.eqb_neq in Hz. rewrite Hz in H.
  rewrite (bind_Some _ _ _ _ _ (heap_get_Some _ _ _ Hf)) in H.
  apply N.eqb_neq in Hpc. rewrite Hpc in H.
  destruct (absorb_queues_owner heap from (seq 0 (S MI_BIN_FULL)) Hne
              w hpt hpf Hh Hf) as (w1 & Hr & Hs & Hp).
  rewrite (bind_Some _ _ _ _ _ Hr) in H.
  apply bind_inv in H as (first & w2 & H2 & H).
  apply absorb_steal_keeps_pages in H2 as [P2 S2].
  apply absorb_rest_keeps_pages in H as [P3 S3].
  split; [congruence|]. intros x. rewrite P3, P2. apply Hp.
Qed.

(** X12.  Absorbing the same heap a second time changes nothing: the first
    call of [mi_heap_absorb] leaves [from] without pages, so the second
    returns at once. *)
Theorem absorb_again_is_noop (fuel : nat) (to from : N) (w : world) hpt hpf
    (l : list N) :
  to <> from -> from <> 0 ->
  heaps w !! to = Some hpt -> heaps w !! from = Some hpf ->
  block_seg (blocks w) from (key0 hpf) (key1 hpf)
            (thread_delayed_free hpf) l 0 ->
  (length l < fuel)%nat ->
  exists w',
    mi_heap_absorb fuel to from w = Some (tt, w') /\
    mi_heap_absorb fuel to from w' = Some (tt, w').
Proof.
  intros Hne Hz Hh Hf Hs Hn.
  assert (Hnoop : forall w0 hp0, heaps w0 !! from = Some hp0 ->
            page_count hp0 = 0 ->
            mi_heap_absorb fuel to from w0 = Some (tt, w0)).
  { intros w0 hp0 H0 Hc. unfold mi_heap_absorb.
    apply N.eqb_neq in Hz as ->.
    now rewrite (bind_Some _ _ _ _ _ (heap_get_Some _ _ _ H0)), Hc. }
  destruct (N.eq_dec (page_count hpf) 0) as [Hc|Hc].
  - exists w. split; now apply (Hnoop w hpf).
  - destruct (absorb_spec to from Hne fuel w hpt hpf l Hz Hh Hf Hc Hs Hn)
      as (w' & hpt' & hpf' & Hr & _ & Hf' & Hc' & _).
    exists w'. split; [exact Hr|]. now apply (Hnoop w' hpf').
Qed.

(** X13.  Absorb keeps the pages of the receiving heap its own.  When every
    page of the queues of [to] names [to] as its owner and the pages of
    the queues of [from] are in the store, then after
    [mi_heap_absorb to from] every page of the queues of [to], those it
    had and those it took over, names [to] as its owner. *)
Theorem absorb_keeps_page_owner (fuel : nat) (to from : N) (w : world)
    hpt hpf (l : list N) :
  to <> from -> from <> 0 ->
  heaps w !! to = Some hpt -> heaps w !! from = Some hpf ->
  block_seg (blocks w) from (key0 hpf) (key1 hpf)
            (thread_delayed_free hpf) l 0 ->
  (length l < fuel)%nat ->
  owns_pages w to hpt ->
  (forall i page, (i <= MI_BIN_FULL)%nat -> page ∈ pages hpf i ->
     is_Some (page_store w !! page)) ->
  exists w' hpt',
    mi_heap_absorb fuel to from w = Some (tt, w') /\
    heaps w' !! to = Some hpt' /\ owns_pages w' to hpt'.
Proof.
  intros Hne Hz Hh Hf Hs Hn Hown Hps.
  destruct (N.eq_dec (page_count hpf) 0) as [Hc|Hc].
  - exists w, hpt. split; [|now split]. unfold mi_heap_absorb.
    apply N.eqb_neq in Hz as ->.
    now rewrite (bind_Some _ _ _ _ _ (heap_get_Some _ _ _ Hf)), Hc.
  - destruct (absorb_spec to from Hne fuel w hpt hpf l Hz Hh Hf Hc Hs Hn)
      as (w' & hpt' & hpf' & Hr & Hh' & _ & _ & _ & _ & P & _).
    destruct (absorb_owner fuel to from w w' hpt hpf Hne Hz Hh Hf Hc Hr)
      as [_ Hp].
    exists w', hpt'. split; [exact Hr|]. split; [exact Hh'|].
    intros i page Hi Hin. rewrite (P i Hi) in Hin. rewrite Hp.
    apply elem_of_app in Hin as [Hin|Hin].
    + destruct (Hown i page Hi Hin) as (pg & Hpg & Hx). rewrite Hpg.
      destruct (decide _); cbn; eauto.
    + destruct (Hps i page Hi Hin) as [pg Hpg]. rewrite Hpg.
      rewrite decide_True; [cbn; eauto|].
      apply Exists_exists. exists i. split; [apply elem_of_seq; lia | exact Hin].
Qed.

Lemma delete_other_eq (fuel : nat) (heap : N) (w : world) hp td :
  heaps w !! heap = Some hp -> tld hp <> 0 ->
  tlds w !! tld hp = Some td -> heap_backing td <> heap ->
  mi_heap_delete fuel heap w
  = bind (mi_heap_absorb fuel (heap_backing td) heap)
         (fun _ => mi_heap_free heap) w.
Proof.
  intros Hh Hi Ht Hb. unfold mi_heap_delete.
  rewrite (bind_Some _ _ _ _ _ (is_initialized_Some heap w hp Hh)).
  apply N.eqb_neq in Hi as Hi'. rewrite Hi'. cbn [negb].
  rewrite (bind_Some _ _ _ _ _ (is_backing_Some heap w hp td Hh Ht)).
  apply N.eqb_neq in Hb as Hb'. rewrite Hb'. cbn [negb].
  unfold bind at 1.
  rewrite (bind_Some _ _ _ _ _ (heap_get_Some _ _ _ Hh)).
  rewrite (bind_Some _ _ _ _ _ (tld_get_Some _ _ _ Ht)).
  reflexivity.
Qed.

#[local] Existing Instance quiet_preorder.

(** X14.  Delete hands the blocks of the deleted heap to the backing heap.
    Let [heap] be an initialized heap that is not the backing heap and
    holds pages, and let [p] be a pointer into a segment with a valid
    cookie whose page is in a queue of [heap].  Then delete returns, and
    afterwards [mi_heap_contains_block] answers true for [p] on the backing
    heap. *)
Theorem delete_moves_blocks_to_backing (fuel : nat) (heap p : N)
    (w : world) hp td hpB sg pg (l : list N) (j : nat) :
  heap <> 0 -> heaps w !! heap = Some hp -> tld hp <> 0 ->
  tlds w !! tld hp = Some td -> heap_backing td <> heap ->
  heaps w !! heap_backing td = Some hpB -> tld hpB <> 0 ->
  page_count hp <> 0 ->
  block_seg (blocks w) heap (key0 hp) (key1 hp)
            (thread_delayed_free hp) l 0 ->
  (length l < fuel)%nat ->
  p <> 0 -> segments w !! _mi_ptr_segment p = Some sg ->
  _mi_ptr_cookie (_mi_ptr_segment p) = seg_cookie sg ->
  (j <= MI_BIN_FULL)%nat ->
  _mi_segment_page_of (_mi_ptr_segment p) p ∈ pages hp j ->
  page_store w !! _mi_segment_page_of (_mi_ptr_segment p) p = Some pg ->
  exists w',
    mi_heap_delete fuel heap w = Some (tt, w') /\
    mi_heap_contains_block (heap_backing td) p w' = Some (true, w').
Proof.
  intros Hz Hh Hi Ht Hb HB HiB Hpc Hs Hn Hp Hsg Hck Hj Hin Hpg.
  rewrite (delete_other_eq fuel heap w hp td Hh Hi Ht Hb).
  assert (Hne : heap_backing td <> heap) by exact Hb.
  destruct (absorb_spec (heap_backing td) heap Hne fuel w hpB hp l
              Hz HB Hh Hpc Hs Hn)
    as (w1 & hpB1 & hp1 & Hr1 & HB1 & Hh1 & _).
  rewrite (bind_Some _ _ _ _ _ Hr1).
  destruct (absorb_owner fuel (heap_backing td) heap w w1 hpB hp
              Hne Hz HB Hh Hpc Hr1) as [Hseg1 Hps1].
  pose proof (quiet_absorb [heap_backing td; heap] (heap_backing td) heap
                ltac:(now left) ltac:(right; now left) fuel w tt w1 Hr1)
    as Q.
  destruct (quiet_lookup _ _ _ _ _ Q Hh) as (hp1' & Hh1' & Htld1 & _).
  rewrite Hh1 in Hh1'. injection Hh1' as <-.
  destruct (quiet_lookup _ _ _ _ _ Q HB) as (hpB1' & HB1' & HtldB & _).
  rewrite HB1 in HB1'. injection HB1' as <-.
  assert (Ht1 : tlds w1 !! tld hp1 = Some td).
  { destruct Q as (QT & _). now rewrite QT, Htld1. }
  destruct (heap_free_other heap w1 hp1 td Hh1 Ht1 Hb)
    as (w' & Hr & Hhs & _).
  exists w'. split; [exact Hr|].
  apply heap_free_keeps_pages in Hr as [P S].
  unfold mi_heap_contains_block, mi_heap_is_initialized, mi_heap_of_block,
    mi_page_heap.
  unfold_m. rewrite Hhs, HB1. cbn beta iota. rewrite HtldB.
  apply N.eqb_neq in HiB. rewrite HiB. cbn [negb].
  apply N.eqb_neq in Hp. rewrite Hp.
  rewrite S, Hseg1, Hsg. cbn beta iota.
  apply N.eqb_eq in Hck. rewrite Hck. cbn [negb].
  rewrite P, Hps1, Hpg.
  rewrite decide_True
    by (apply Exists_exists; exists j; split;
        [apply elem_of_seq; lia | exact Hin]).
  cbn. now rewrite N.eqb_refl.
Qed.

(** X15.  Delete of a heap that is not the backing heap stays with the two
    heaps: when it returns, exactly the storage of the deleted heap has
    been released, the abandoned list is untouched, no heap but the
    deleted one and the backing heap has changed, and the default heap is
    the backing heap if it was the deleted heap and is what it was
    otherwise. *)
Theorem delete_is_local (fuel : nat) (heap : N) (w w' : world) hp td :
  heaps w !! heap = Some hp -> tld hp <> 0 ->
  tlds w !! tld hp = Some td -> heap_backing td <> heap ->
  mi_heap_delete fuel heap w = Some (tt, w') ->
  freed w' = heap :: freed w /\ abandoned w' = abandoned w /\
  tlds w' = tlds w /\
  (forall x, x <> heap -> x <> heap_backing td ->
     heaps w' !! x = heaps w !! x) /\
  default_heap w' =
    (if heap =? default_heap w then heap_backing td else default_heap w).
Proof.
  intros Hh Hi Ht Hb H.
  rewrite (delete_other_eq fuel heap w hp td Hh Hi Ht Hb) in H.
  apply bind_inv in H as ([] & w1 & H1 & H).
  apply (quiet_absorb [heap_backing td; heap]) in H1;
    [|now left|right; now left].
  destruct (quiet_lookup _ _ _ _ _ H1 Hh) as (hp1 & Hh1 & Htld1 & _).
  destruct H1 as (QT & QA & QD & QF & QH).
  assert (Ht1 : tlds w1 !! tld hp1 = Some td) by (now rewrite QT, Htld1).
  destruct (heap_free_other heap w1 hp1 td Hh1 Ht1 Hb)
    as (w'' & Hr & Hhs & Htl & Hab & Hfr & Hdef & _).
  rewrite Hr in H. injection H as <-.
  rewrite Hfr, Hab, Htl, Hdef, Hhs, QF, QA, QT, QD.
  repeat split. intros x Hx1 Hx2. apply (proj1 (QH x)).
  intros [->|[->|Hin]%elem_of_cons]%elem_of_cons;
    [contradiction | contradiction | inversion Hin].
Qed.

(** X16.  Destroy of a heap that is not the backing heap and has
    [no_reclaim] set gives no page away: when it returns, the heap has no
    page and no delayed-free block left and its storage has been
    released, while the record of every other heap, the backing heap
    included, is what it was; the abandoned list is untouched, and the
    default heap is the backing heap if it was the destroyed heap. *)
Theorem destroy_releases_without_transfer (fuel : nat) (heap : N)
    (w w' : world) hp td :
  heaps w !! heap = Some hp -> tld hp <> 0 ->
  tlds w !! tld hp = Some td -> heap_backing td <> heap ->
  no_reclaim hp = true ->
  mi_heap_destroy fuel heap w = Some (tt, w') ->
  freed w' = heap :: freed w /\ abandoned w' = abandoned w /\
  (forall x, x <> heap -> heaps w' !! x = heaps w !! x) /\
  (exists hp', heaps w' !! heap = Some hp' /\ page_count hp' = 0 /\
     thread_delayed_free hp' = 0 /\ forall j, pages hp' j = []) /\
  default_heap w' =
    (if heap =? default_heap w then heap_backing td else default_heap w).
Proof.
  intros Hh Hi Ht Hb Hnr H. unfold mi_heap_destroy in H.
  rewrite (bind_Some _ _ _ _ _ (is_initialized_Some heap w hp Hh)) in H.
  apply N.eqb_neq in Hi as Hi'. rewrite Hi' in H. cbn [negb] in H.
  rewrite (bind_Some _ _ _ _ _ (heap_get_Some _ _ _ Hh)) in H.
  rewrite Hnr in H. cbn [negb] in H.
  apply bind_inv in H as ([] & w1 & H1 & H).
  pose proof (quiet_destroy_pages [heap] heap ltac:(now left) w tt w1 H1)
    as Q.
  destruct (quiet_lookup _ _ _ _ _ Q Hh) as (hp1 & Hh1 & Htld1 & _).
  assert (Hrec : page_count hp1 = 0 /\ thread_delayed_free hp1 = 0 /\
                 forall j, pages hp1 j = []).
  { unfold _mi_heap_destroy_pages in H1.
    apply bind_inv in H1 as ([] & w0 & _ & H1).
    apply bind_inv in H1 as (r & wv & _ & H1).
    destruct (heaps wv !! heap) as [hv|] eqn:Hv.
    - destruct (reset_pages_spec heap wv hv Hv)
        as (w1' & hp' & Hr & Hhs & _ & R1 & R2 & R3).
      rewrite Hr in H1. injection H1 as <-.
      rewrite Hhs, lookup_insert_eq in Hh1. injection Hh1 as <-.
      now repeat split.
    - unfold mi_heap_reset_pages, heap_upd, heap_get, bind, deref in H1.
      now rewrite Hv in H1. }
  destruct Q as (QT & QA & QD & QF & QH).
  assert (Ht1 : tlds w1 !! tld hp1 = Some td) by (now rewrite QT, Htld1).
  destruct (heap_free_other heap w1 hp1 td Hh1 Ht1 Hb)
    as (w'' & Hr & Hhs & Htl & Hab & Hfr & Hdef & _).
  rewrite Hr in H. injection H as <-.
  rewrite Hfr, Hab, Hdef, Hhs, QF, QA, QD.
  repeat split.
  - intros x Hx. apply (proj1 (QH x)). intros Hin.
    apply list_elem_of_singleton in Hin as ->. contradiction.
  - exists hp1. now split.
Qed.

End PageOwner.

Lemma absorb_again_is_noop_witness :
  exists w',
    mi_heap_absorb (E := demo) 8 4096 8192 demo_world = Some (tt, w') /\
    mi_heap_absorb (E := demo) 8 4096 8192 w' = Some (tt, w').
Proof.
  apply (absorb_again_is_noop (E := demo) (EO := demo_ok) 8 4096 8192
           demo_world demo_backing demo_child [20480; 20512]).
  - discriminate.
  - discriminate.
  - reflexivity.
  - reflexivity.
  - exact demo_child_list.
  - cbn. lia.
Defined.

Lemma demo_backing_owns : owns_pages (E := demo) demo_world 4096 demo_backing.
Proof.
  intros i page Hi Hin. destruct i as [|[|[|i]]]; try (cbn in Hi; lia).
  - inversion Hin.
  - apply list_elem_of_singleton in Hin as ->. eexists. split; reflexivity.
  - inversion Hin.
Defined.

Lemma demo_child_pages_present (i : nat) (page : N) :
  (i <= 2)%nat -> page ∈ pages demo_child i ->
  is_Some (page_store demo_world !! page).
Proof.
  intros Hi Hin. destruct i as [|[|[|i]]]; try lia.
  - inversion Hin.
  - inversion Hin.
  - apply list_elem_of_singleton in Hin as ->. now eexists.
Defined.

Lemma absorb_keeps_page_owner_witness :
  exists w' hpt',
    mi_heap_absorb (E := demo) 8 4096 8192 demo_world = Some (tt, w') /\
    heaps w' !! 4096 = Some hpt' /\ owns_pages (E := demo) w' 4096 hpt'.
Proof.
  apply (absorb_keeps_page_owner (E := demo) (EO := demo_ok) 8 4096 8192
           demo_world demo_backing demo_child [20480; 20512]).
  - discriminate.
  - discriminate.
  - reflexivity.
  - reflexivity.
  - exact demo_child_list.
  - cbn. lia.
  - exact demo_backing_owns.
  - exact demo_child_pages_present.
Defined.

Lemma delete_moves_blocks_to_backing_witness :
  exists w',
    mi_heap_delete (E := demo) 8 8192 demo_world5 = Some (tt, w') /\
    mi_heap_contains_block (E := demo) (heap_backing (mk_tld 4096)) 20512 w'
    = Some (true, w').
Proof.
  apply (delete_moves_blocks_to_backing (E := demo) (EO := demo_ok) 8 8192
           20512 demo_world5 demo_child (mk_tld 4096) demo_backing
           (mk_segment (N.lxor 20480 165) 1) (mk_page 8192 32 2 2 0 0 0)
           [20480; 20512] 2).
  - discriminate.
  - reflexivity.
  - discriminate.
  - reflexivity.
  - discriminate.
  - reflexivity.
  - discriminate.
  - discriminate.
  - exact demo_child_list.
  - cbn. lia.
  - discriminate.
  - reflexivity.
  - reflexivity.
  - cbn. lia.
  - apply list_elem_of_singleton. reflexivity.
  - reflexivity.
Defined.

Lemma delete_is_local_witness :
  freed demo_after_child_delete = 8192 :: freed demo_world /\
  abandoned demo_after_child_delete = abandoned demo_world /\
  tlds demo_after_child_delete = tlds demo_world /\
  (forall x, x <> 8192 -> x <> heap_backing (mk_tld 4096) ->
     heaps demo_after_child_delete !! x = heaps demo_world !! x) /\
  default_heap demo_after_child_delete =
    (if 8192 =? default_heap demo_world then heap_backing (mk_tld 4096)
     else default_heap demo_world).
Proof.
  apply (delete_is_local (E := demo) 8 8192 demo_world
           demo_after_child_delete demo_child (mk_tld 4096)).
  - reflexivity.
  - discriminate.
  - reflexivity.
  - discriminate.
  - vm_compute. reflexivity.
Defined.

Lemma destroy_releases_without_transfer_witness :
  freed demo_after_child_destroy = 8192 :: freed demo_world /\
  abandoned demo_after_child_destroy = abandoned demo_world /\
  (forall x, x <> 8192 ->
     heaps demo_after_child_destroy !! x = heaps demo_world !! x) /\
  (exists hp', heaps demo_after_child_destroy !! 8192 = Some hp' /\
     page_count hp' = 0 /\ thread_delayed_free hp' = 0 /\
     forall j, pages hp' j = []) /\
  default_heap demo_after_child_destroy =
    (if 8192 =? default_heap demo_world then heap_backing (mk_tld 4096)
     else default_heap demo_world).
Proof.
  apply (destroy_releases_without_transfer (E := demo) (EO := demo_ok) 8 8192
           demo_world demo_after_child_destroy demo_child (mk_tld 4096)).
  - reflexivity.
  - discriminate.
  - reflexivity.
  - discriminate.
  - reflexivity.
  - vm_compute. reflexivity.
Defined.

(** ** Delete and destroy, path by path *)

Section DefaultSame.
Context {E : Externals} {EO : ExternalsOk}.

#[local] Instance default_same_preorder : PreOrder default_same.
Proof.
  split; [intros w; reflexivity|].
  intros w1 w2 w3 H1 H2. unfold default_same in *. congruence.
Qed.

Lemma quiet_default_same (S : list N) (w w' : world) :
  quiet S w w' -> default_same w w'.
Proof. intros (_ & _ & D & _). exact D. Qed.

(** A state change by a collaborator, or one that leaves the default heap
    alone. *)
Ltac default_change :=
  apply steps_modify; intros;
  first [ reflexivity
        | eapply quiet_default_same;
          first [ apply deferred_free_quiet | apply delayed_free_quiet
                | apply collect_retired_quiet
                | apply segment_thread_collect_quiet | apply mem_collect_quiet
                | apply stats_done_quiet | apply segments_absorb_quiet ] ].

#[local] Hint Extern 1 (steps default_same (modify _)) => default_change : steps.
#[local] Hint Extern 1 (steps default_same (record_call _)) =>
  default_change : steps.
#[local] Hint Extern 1 (steps default_same (heap_upd _ _)) =>
  (unfold heap_upd; apply steps_bind;
   [typeclasses eauto | apply steps_heap_get; typeclasses eauto
   | intros ?; default_change]) : steps.

Lemma default_same_absorb (fuel : nat) (heap from : N) :
  steps default_same (mi_heap_absorb fuel heap from).
Proof.
  apply (steps_weaken (quiet [heap; from])); [apply quiet_default_same|].
  apply quiet_absorb; [now left | right; now left].
Qed.

Lemma default_same_abandoned_last (n : nat) (last : N) :
  steps default_same (abandoned_last n last).
Proof. revert last. induction n; intros last; cbn [abandoned_last]; steps_go. Qed.

Lemma default_same_prepend_publish (n : nat) (first last : N) :
  steps default_same (prepend_publish n first last).
Proof.
  induction n; cbn [prepend_publish]; unfold cas_abandoned; steps_go.
Qed.

#[local] Hint Resolve default_same_absorb default_same_abandoned_last
  default_same_prepend_publish : steps.

Lemma default_same_reclaim_all (n fuel : nat) (heap reclaim : N) :
  steps default_same (reclaim_all n fuel heap reclaim).
Proof.
  revert reclaim. induction n; intros reclaim; cbn [reclaim_all];
    unfold _mi_heap_backing_free; steps_go.
Qed.

#[local] Hint Resolve default_same_reclaim_all : steps.

(** A collect leaves the default heap of the thread as it is. *)
Lemma default_same_collect_ex (fuel : nat) (heap : N) (c : mi_collect_t) :
  steps default_same (mi_heap_collect_ex fuel heap c).
Proof.
  unfold mi_heap_collect_ex, mi_heap_is_initialized,
    _mi_heap_try_reclaim_abandoned, exchange_abandoned,
    mi_heap_prepend_abandoned, cas_abandoned.
  steps_go.
Qed.

End DefaultSame.

Section DeletePaths.
Context {E : Externals} {EO : ExternalsOk}.

#[local] Existing Instance quiet_preorder.

(** Pushing a heap on the abandoned list: the state it leaves. *)
Lemma abandon_push_run (fuel : nat) (h : N) (w1 : world) hp1 :
  h <> 0 -> (0 < fuel)%nat -> heaps w1 !! h = Some hp1 ->
  bind (heap_upd h (set_abandoned_next 0))
       (fun _ => mi_heap_prepend_abandoned fuel h) w1
  = Some (tt, set_abandoned h
                (set_heaps <[h := set_abandoned_next (abandoned w1) hp1]> w1)).
Proof.
  intros Hh0 Hfuel Hh. destruct fuel as [|n]; [lia|].
  rewrite (bind_Some _ _ _ _ _ (heap_upd_Some h _ w1 hp1 Hh)).
  unfold mi_heap_prepend_abandoned, cas_abandoned.
  apply N.eqb_neq in Hh0 as Hh0'. rewrite Hh0'.
  unfold_m. run_maps.
  destruct (abandoned w1 =? 0) eqn:Ha; run_maps.
  - apply N.eqb_eq in Ha. rewrite Ha. reflexivity.
  - cbn [abandoned_last prepend_publish]. unfold cas_abandoned.
    unfold_m. run_maps. cbn [abandoned_next set_abandoned_next N.eqb].
    run_maps. rewrite N.eqb_refl. run_maps.
    unfold set_abandoned, set_heaps.
    cbn [heaps tlds page_store segments blocks abandoned default_heap freed
         calls].
    now rewrite insert_insert_eq.
Qed.

(** The delete of the backing heap, once its collect has returned in the
    state [w0]: the heap is released when it holds no page then, and is
    pushed on the abandoned list with its pages otherwise. *)
Lemma delete_backing_run (fuel : nat) (heap : N) (w w0 : world) hp td hp0 :
  heap <> 0 -> (0 < fuel)%nat ->
  heaps w !! heap = Some hp -> tld hp <> 0 ->
  tlds w !! tld hp = Some td -> heap_backing td = heap ->
  mi_heap_collect_ex fuel heap ABANDON w = Some (tt, w0) ->
  heaps w0 !! heap = Some hp0 ->
  exists w1,
    heaps w1 = heaps w0 /\ freed w1 = freed w0 /\
    abandoned w1 = abandoned w0 /\ default_heap w1 = default_heap w /\
    mi_heap_delete fuel heap w
    = Some (tt, if page_count hp0 =? 0
                then add_freed heap (add_call (Call_backing_free heap) w1)
                else set_abandoned heap
                       (set_heaps
                          <[heap := set_abandoned_next (abandoned w1) hp0]>
                          w1)).
Proof.
  intros Hz Hfuel Hh Hi Ht Hb Hc Hh0.
  set (w1 := _mi_stats_done (tld hp0) w0).
  destruct (stats_done_quiet (tld hp0) w0) as [(_ & QA & QD & QF & QH) _].
  fold w1 in QA, QD, QF, QH.
  assert (Hhs : heaps w1 = heaps w0).
  { apply map_eq. intros x. apply (proj1 (QH x)). intros Hin. inversion Hin. }
  assert (Hh1 : heaps w1 !! heap = Some hp0) by (now rewrite Hhs).
  exists w1. split; [exact Hhs|]. split; [exact QF|]. split; [exact QA|].
  split.
  { rewrite QD. exact (default_same_collect_ex fuel heap ABANDON w tt w0 Hc). }
  rewrite (delete_backing_is_abandon fuel heap w hp td Hh Hi Ht Hb).
  unfold _mi_heap_collect_abandon.
  rewrite (bind_Some _ _ _ _ _ Hc).
  rewrite (bind_Some _ _ _ _ _ (heap_get_Some _ _ _ Hh0)).
  rewrite (bind_Some _ _ _ tt w1) by reflexivity.
  rewrite (bind_Some _ _ _ _ _ (heap_get_Some _ _ _ Hh1)).
  destruct (page_count hp0 =? 0); [reflexivity|].
  now apply abandon_push_run.
Qed.

(** The delete of a heap that is not the backing heap: the backing heap
    takes over its pages, no page is given up, and the heap is released. *)
Lemma delete_other_run (fuel : nat) (heap : N) (w : world) hp td hpB
    (l : list N) :
  heap <> 0 -> heaps w !! heap = Some hp -> tld hp <> 0 ->
  tlds w !! tld hp = Some td -> heap_backing td <> heap ->
  heaps w !! heap_backing td = Some hpB -> page_count_ok hp ->
  block_seg (blocks w) heap (key0 hp) (key1 hp)
            (thread_delayed_free hp) l 0 ->
  (length l < fuel)%nat ->
  exists w' hp' hpB',
    mi_heap_delete fuel heap w = Some (tt, w') /\
    heaps w' !! heap = Some hp' /\ page_count hp' = 0 /\
    freed w' = heap :: freed w /\
    heaps w' !! heap_backing td = Some hpB' /\
    (forall j, (j <= MI_BIN_FULL)%nat ->
       pages hpB' j = pages hpB j ++ pages hp j) /\
    segments w' = segments w /\
    (forall x,
       page_store w' !! x =
         if decide (Exists (fun i => x ∈ pages hp i) (seq 0 (S MI_BIN_FULL)))
         then set_xheap (heap_backing td) <$> page_store w !! x
         else page_store w !! x).
Proof.
  intros Hh0 Hh Hi Ht Hb HB Hok Hs Hn.
  rewrite (delete_other_eq fuel heap w hp td Hh Hi Ht Hb).
  destruct (N.eq_dec (page_count hp) 0) as [Hz|Hnz].
  - assert (Habs : mi_heap_absorb fuel (heap_backing td) heap w = Some (tt, w)).
    { unfold mi_heap_absorb. apply N.eqb_neq in Hh0 as ->.
      now rewrite (bind_Some _ _ _ _ _ (heap_get_Some _ _ _ Hh)), Hz. }
    rewrite (bind_Some _ _ _ _ _ Habs).
    destruct (heap_free_other heap w hp td Hh Ht Hb)
      as (w' & Hr & Hhs & _ & _ & Hfr & _).
    pose proof (heap_free_keeps_pages heap w tt w' Hr) as [P S].
    exists w', hp, hpB. rewrite Hhs, P, S.
    assert (Hempty : forall j, (j <= MI_BIN_FULL)%nat -> pages hp j = []).
    { intros j Hj. apply total_pages_zero; [red in Hok; lia | exact Hj]. }
    repeat split; try assumption.
    + intros j Hj. now rewrite (Hempty j Hj), app_nil_r.
    + intros x. rewrite decide_False; [reflexivity|].
      intros (i & Hin & Hx)%Exists_exists. apply elem_of_seq in Hin.
      rewrite (Hempty i) in Hx by lia. inversion Hx.
  - destruct (absorb_spec (heap_backing td) heap Hb fuel w hpB hp l
                Hh0 HB Hh Hnz Hs Hn)
      as (w1 & hpB1 & hp1 & Hr1 & HB1 & Hh1 & R1 & R2 & R3 & P & _).
    rewrite (bind_Some _ _ _ _ _ Hr1).
    destruct (absorb_owner fuel (heap_backing td) heap w w1 hpB hp
                Hb Hh0 HB Hh Hnz Hr1) as [Hseg1 Hps1].
    pose proof (quiet_absorb [heap_backing td; heap] (heap_backing td) heap
                  ltac:(now left) ltac:(right; now left) fuel w tt w1 Hr1)
      as (QT & _ & _ & QF & QH).
    pose proof (proj2 (QH heap)) as Hid. rewrite Hh, Hh1 in Hid.
    destruct Hid as (Htld & _).
    assert (Ht1 : tlds w1 !! tld hp1 = Some td) by (now rewrite QT, Htld).
    destruct (heap_free_other heap w1 hp1 td Hh1 Ht1 Hb)
      as (w' & Hr & Hhs & _ & _ & Hfr & _).
    pose proof (heap_free_keeps_pages heap w1 tt w' Hr) as [P' S'].
    exists w', hp1, hpB1. rewrite Hhs, Hfr, QF, P', S'.
    repeat split; assumption.
Qed.

(** C4.  What [mi_heap_delete] leaves of an initialized heap.  A heap that
    is not the backing heap, whose [page_count] counts its pages and whose
    delayed-free list can be walked, ends with [page_count] 0 and its
    storage released, and every queue of the backing heap is what it was
    followed by the pages of the same queue of the heap.  The backing heap
    runs the collect of the abandon first; if it holds no page after that,
    it is released with [page_count] 0.  If it still holds pages, delete
    returns with the heap as it is: its [page_count] is not 0, its queues
    hold their pages, its storage is not released, and it heads the
    abandoned list. *)
Theorem delete_releases_or_abandons (fuel : nat) (heap : N) (w : world)
    hp td :
  heap <> 0 -> (0 < fuel)%nat ->
  heaps w !! heap = Some hp -> tld hp <> 0 ->
  tlds w !! tld hp = Some td ->
  (heap_backing td <> heap ->
   forall hpB l,
     heaps w !! heap_backing td = Some hpB -> page_count_ok hp ->
     block_seg (blocks w) heap (key0 hp) (key1 hp)
               (thread_delayed_free hp) l 0 ->
     (length l < fuel)%nat ->
     exists w' hp' hpB',
       mi_heap_delete fuel heap w = Some (tt, w') /\
       heaps w' !! heap = Some hp' /\ page_count hp' = 0 /\
       freed w' = heap :: freed w /\
       heaps w' !! heap_backing td = Some hpB' /\
       (forall j, (j <= MI_BIN_FULL)%nat ->
          pages hpB' j = pages hpB j ++ pages hp j)) /\
  (heap_backing td = heap ->
   forall w0 hp0,
     mi_heap_collect_ex fuel heap ABANDON w = Some (tt, w0) ->
     heaps w0 !! heap = Some hp0 ->
     exists w' hp',
       mi_heap_delete fuel heap w = Some (tt, w') /\
       heaps w' !! heap = Some hp' /\
       page_count hp' = page_count hp0 /\ pages hp' = pages hp0 /\
       (page_count hp0 = 0 ->
          freed w' = heap :: freed w0 /\ abandoned w' = abandoned w0) /\
       (page_count hp0 <> 0 ->
          freed w' = freed w0 /\ abandoned w' = heap)).
Proof.
  intros Hz Hfuel Hh Hi Ht. split.
  - intros Hb hpB l HB Hok Hs Hn.
    destruct (delete_other_run fuel heap w hp td hpB l Hz Hh Hi Ht Hb HB Hok
                Hs Hn)
      as (w' & hp' & hpB' & Hr & H1 & H2 & H3 & H4 & H5 & _).
    now exists w', hp', hpB'.
  - intros Hb w0 hp0 Hc Hh0.
    destruct (delete_backing_run fuel heap w w0 hp td hp0 Hz Hfuel Hh Hi Ht Hb
                Hc Hh0) as (w1 & Hhs & Hf & Ha & _ & Hr).
    destruct (N.eqb_spec (page_count hp0) 0) as [Hpc|Hpc].
    + eexists _, hp0. split; [exact Hr|].
      cbn [heaps freed abandoned add_freed add_call].
      rewrite Hhs, Hf, Ha. repeat split; try assumption;
        intros; contradiction.
    + eexists _, _. split; [exact Hr|].
      cbn [heaps freed abandoned set_abandoned set_heaps].
      rewrite lookup_insert_eq, Hf. repeat split; intros; contradiction.
Qed.

(** C6.  What [mi_heap_destroy] does with an initialized heap.  With
    [no_reclaim] false it is the delete.  On a heap that is not the
    backing heap the pages go to the backing heap and none is destroyed:
    every queue of the backing heap is what it was followed by the pages
    of the same queue of the heap, every page keeps its record but for
    the owner of the pages that moved, no segment changes, the heap is
    released, and the bulk destruction is not entered.  On the backing
    heap that still holds pages after the collect of the abandon no page
    goes to another heap: the heap keeps its pages and its [page_count]
    and heads the abandoned list.  And whatever the heap, a destroy that
    returns has entered the bulk destruction of pages exactly when
    [no_reclaim] is true. *)
Theorem destroy_downgrades_to_delete (fuel : nat) (heap : N) (w : world)
    hp td :
  heap <> 0 -> (0 < fuel)%nat ->
  heaps w !! heap = Some hp -> tld hp <> 0 ->
  tlds w !! tld hp = Some td ->
  (no_reclaim hp = false -> heap_backing td <> heap ->
   forall hpB l,
     heaps w !! heap_backing td = Some hpB -> page_count_ok hp ->
     block_seg (blocks w) heap (key0 hp) (key1 hp)
               (thread_delayed_free hp) l 0 ->
     (length l < fuel)%nat ->
     exists w' hp' hpB' cs,
       mi_heap_destroy fuel heap w = Some (tt, w') /\
       heaps w' !! heap = Some hp' /\ page_count hp' = 0 /\
       freed w' = heap :: freed w /\
       heaps w' !! heap_backing td = Some hpB' /\
       (forall j, (j <= MI_BIN_FULL)%nat ->
          pages hpB' j = pages hpB j ++ pages hp j) /\
       segments w' = segments w /\
       (forall x,
          page_store w' !! x =
            if decide (Exists (fun i => x ∈ pages hp i)
                              (seq 0 (S MI_BIN_FULL)))
            then set_xheap (heap_backing td) <$> page_store w !! x
            else page_store w !! x) /\
       calls w' = cs ++ calls w /\
       (forall h, Call_destroy_pages h ∉ cs)) /\
  (no_reclaim hp = false -> heap_backing td = heap ->
   forall w0 hp0,
     mi_heap_collect_ex fuel heap ABANDON w = Some (tt, w0) ->
     heaps w0 !! heap = Some hp0 -> page_count hp0 <> 0 ->
     exists w' hp',
       mi_heap_destroy fuel heap w = Some (tt, w') /\
       heaps w' !! heap = Some hp' /\
       page_count hp' = page_count hp0 /\ pages hp' = pages hp0 /\
       freed w' = freed w0 /\ abandoned w' = heap) /\
  (forall w', mi_heap_destroy fuel heap w = Some (tt, w') ->
     exists cs, calls w' = cs ++ calls w /\
       ((exists h, Call_destroy_pages h ∈ cs) -> no_reclaim hp = true) /\
       (no_reclaim hp = true -> Call_destroy_pages heap ∈ cs)).
Proof.
  intros Hz Hfuel Hh Hi Ht.
  assert (Hd : mi_heap_destroy fuel heap w =
               if no_reclaim hp
               then bind (_mi_heap_destroy_pages heap)
                      (fun _ => mi_heap_free heap) w
               else mi_heap_delete fuel heap w).
  { unfold mi_heap_destroy.
    rewrite (bind_Some _ _ _ _ _ (is_initialized_Some heap w hp Hh)).
    apply N.eqb_neq in Hi as Hi'. rewrite Hi'. cbn [negb].
    rewrite (bind_Some _ _ _ _ _ (heap_get_Some _ _ _ Hh)).
    now destruct (no_reclaim hp). }
  split; [|split].
  - intros Hn Hb hpB l HB Hok Hs Hl. rewrite Hd, Hn.
    destruct (delete_other_run fuel heap w hp td hpB l Hz Hh Hi Ht Hb HB Hok
                Hs Hl)
      as (w' & hp' & hpB' & Hr & H1 & H2 & H3 & H4 & H5 & H6 & H7).
    pose proof Hr as Hr'.
    apply (calls_grow_delete (fun c => forall h, c <> Call_destroy_pages h))
      in Hr' as (cs & Hc & F); try easy.
    exists w', hp', hpB', cs. repeat split; try assumption.
    intros h Hin. rewrite Forall_forall in F. now apply (F _ Hin h).
  - intros Hn Hb w0 hp0 Hc Hh0 Hpc. rewrite Hd, Hn.
    destruct (delete_backing_run fuel heap w w0 hp td hp0 Hz Hfuel Hh Hi Ht Hb
                Hc Hh0) as (w1 & Hhs & Hf & Ha & _ & Hr).
    apply N.eqb_neq in Hpc. rewrite Hpc in Hr.
    eexists _, _. split; [exact Hr|].
    cbn [heaps freed abandoned set_abandoned set_heaps].
    rewrite lookup_insert_eq, Hf. now repeat split.
  - intros w' H. rewrite Hd in H. destruct (no_reclaim hp) eqn:Hn.
    + apply (destroy_pages_calls (fun _ => True)) in H
        as (cs & Hc & _); try easy.
      exists (cs ++ [Call_destroy_pages heap]).
      rewrite <- app_assoc. split; [exact Hc|]. split; [easy|].
      intros _. apply elem_of_app. right. now left.
    + apply (calls_grow_delete (fun c => forall h, c <> Call_destroy_pages h))
        in H as (cs & Hc & F); try easy.
      exists cs. split; [exact Hc|]. split; [|discriminate].
      intros (h & Hin). rewrite Forall_forall in F.
      exfalso. now apply (F _ Hin h).
Qed.

(** C10.  [mi_heap_free] and the default heap.  [mi_heap_free] leaves the
    backing heap alone: on it the state is what it was.  On any other heap
    it releases the storage of that heap, after it has reset the default
    heap to the backing heap when the heap was the default one; so when a
    heap that is not the backing heap is deleted or destroyed while the
    backing heap and the default heap are live, the default heap is live
    afterwards.  The delete of the backing heap does not go that way: when
    the backing heap is the default heap and holds no page after the
    collect of the abandon, the abandon releases its storage, and delete
    returns with the default heap still that heap, whose storage is
    gone. *)
Theorem release_and_default_heap (fuel : nat) (heap : N) (w : world) hp td :
  heap <> 0 -> (0 < fuel)%nat ->
  heaps w !! heap = Some hp -> tld hp <> 0 ->
  tlds w !! tld hp = Some td ->
  (heap_backing td = heap -> mi_heap_free heap w = Some (tt, w)) /\
  (heap_backing td <> heap ->
   exists w',
     mi_heap_free heap w = Some (tt, w') /\
     freed w' = heap :: freed w /\
     default_heap w' =
       (if heap =? default_heap w then heap_backing td else default_heap w) /\
     calls w' =
       Call_free heap ::
       (if heap =? default_heap w
        then [Call_set_default_direct (heap_backing td)] else [])
       ++ calls w) /\
  (heap_backing td <> heap ->
   heap_live w (heap_backing td) -> heap_live w (default_heap w) ->
   forall w',
     mi_heap_delete fuel heap w = Some (tt, w') \/
     mi_heap_destroy fuel heap w = Some (tt, w') ->
     heap_live w' (default_heap w')) /\
  (heap_backing td = heap -> default_heap w = heap ->
   forall w0 hp0,
     mi_heap_collect_ex fuel heap ABANDON w = Some (tt, w0) ->
     heaps w0 !! heap = Some hp0 -> page_count hp0 = 0 ->
     exists w',
       mi_heap_delete fuel heap w = Some (tt, w') /\
       freed w' = heap :: freed w0 /\
       default_heap w' = heap /\
       ~ heap_live w' (default_heap w')).
Proof.
  intros Hz Hfuel Hh Hi Ht. split; [|split; [|split]].
  - intros Hb. now apply (heap_free_backing heap w hp td).
  - intros Hb.
    destruct (heap_free_other heap w hp td Hh Ht Hb)
      as (w' & Hr & _ & _ & _ & Hfr & Hdef & Hc).
    now exists w'.
  - intros Hb LB LD w'.
    assert (Hdel : mi_heap_delete fuel heap w = Some (tt, w') ->
                   heap_live w' (default_heap w')).
    { intros H. rewrite (delete_other_eq fuel heap w hp td Hh Hi Ht Hb) in H.
      apply bind_inv in H as ([] & w1 & H1 & H).
      apply (quiet_absorb [heap_backing td; heap]) in H1;
        [|now left|right; now left].
      now apply (quiet_then_free_live [heap_backing td; heap] heap w w1 w' hp td). }
    intros [H|H]; [now apply Hdel|].
    unfold mi_heap_destroy in H.
    rewrite (bind_Some _ _ _ _ _ (is_initialized_Some heap w hp Hh)) in H.
    apply N.eqb_neq in Hi as Hi'. rewrite Hi' in H. cbn [negb] in H.
    rewrite (bind_Some _ _ _ _ _ (heap_get_Some _ _ _ Hh)) in H.
    destruct (no_reclaim hp); cbn [negb] in H; [|now apply Hdel].
    apply bind_inv in H as ([] & w1 & H1 & H).
    apply (quiet_destroy_pages [heap]) in H1; [|now left].
    now apply (quiet_then_free_live [heap] heap w w1 w' hp td).
  - intros Hb Hdef w0 hp0 Hc Hh0 Hpc.
    destruct (delete_backing_run fuel heap w w0 hp td hp0 Hz Hfuel Hh Hi Ht Hb
                Hc Hh0) as (w1 & Hhs & Hf & Ha & Hd & Hr).
    apply N.eqb_eq in Hpc. rewrite Hpc in Hr.
    eexists. split; [exact Hr|].
    cbn [freed default_heap add_freed add_call].
    rewrite Hf, Hd, Hdef. repeat split.
    intros [_ Hn]. apply Hn. now left.
Qed.

End DeletePaths.

Lemma demo_collect_run :
  mi_heap_collect_ex (E := demo) 8 4096 ABANDON demo_world
  = Some (tt, demo_collected).
Proof. vm_compute. reflexivity. Defined.

Lemma demo_collect_run3 :
  mi_heap_collect_ex (E := demo) 8 4096 ABANDON demo_world3
  = Some (tt, demo_collected3).
Proof. vm_compute. reflexivity. Defined.

Lemma demo_child_count : page_count_ok (E := demo) demo_child.
Proof. reflexivity. Defined.

Lemma delete_releases_or_abandons_witness :
  (exists w' hp' hpB',
     mi_heap_delete (E := demo) 8 8192 demo_world = Some (tt, w') /\
     heaps w' !! 8192 = Some hp' /\ page_count hp' = 0 /\
     freed w' = 8192 :: freed demo_world /\
     heaps w' !! heap_backing (mk_tld 4096) = Some hpB' /\
     (forall j, (j <= 2)%nat ->
        pages hpB' j = pages demo_backing j ++ pages demo_child j)) /\
  (exists w' hp',
     mi_heap_delete (E := demo) 8 4096 demo_world = Some (tt, w') /\
     heaps w' !! 4096 = Some hp' /\
     page_count hp' = page_count demo_backing /\
     pages hp' = pages demo_backing /\
     freed w' = freed demo_collected /\ abandoned w' = 4096) /\
  (exists w' hp',
     mi_heap_delete (E := demo) 8 4096 demo_world3 = Some (tt, w') /\
     heaps w' !! 4096 = Some hp' /\
     page_count hp' = page_count demo_idle /\
     pages hp' = pages demo_idle /\
     freed w' = 4096 :: freed demo_collected3 /\
     abandoned w' = abandoned demo_collected3).
Proof.
  split; [|split].
  - apply (delete_releases_or_abandons (E := demo) (EO := demo_ok) 8 8192
             demo_world demo_child (mk_tld 4096)
             ltac:(discriminate) ltac:(lia) eq_refl ltac:(discriminate) eq_refl)
      with (l := [20480; 20512]).
    + discriminate.
    + reflexivity.
    + exact demo_child_count.
    + exact demo_child_list.
    + cbn. lia.
  - destruct (delete_releases_or_abandons (E := demo) (EO := demo_ok) 8 4096
                demo_world demo_backing (mk_tld 4096)
                ltac:(discriminate) ltac:(lia) eq_refl ltac:(discriminate)
                eq_refl) as [_ H].
    destruct (H eq_refl demo_collected demo_backing demo_collect_run eq_refl)
      as (w' & hp' & Hr & Hh & Hc & Hp & _ & Hne).
    destruct (Hne ltac:(discriminate)) as [Hf Ha].
    exists w', hp'. repeat split; assumption.
  - destruct (delete_releases_or_abandons (E := demo) (EO := demo_ok) 8 4096
                demo_world3 demo_idle (mk_tld 4096)
                ltac:(discriminate) ltac:(lia) eq_refl ltac:(discriminate)
                eq_refl) as [_ H].
    destruct (H eq_refl demo_collected3 demo_idle demo_collect_run3 eq_refl)
      as (w' & hp' & Hr & Hh & Hc & Hp & Hz & _).
    destruct (Hz eq_refl) as [Hf Ha].
    exists w', hp'. repeat split; assumption.
Defined.

(** C4 at a concrete input.  In the first configuration the backing heap
    at 4096 holds one page.  Deleting it abandons it: when delete returns,
    the heap heads the abandoned list, its [page_count] is still 1 and its
    storage is not released. *)
Example delete_backing_with_pages_abandons :
  mi_heap_delete (E := demo) 8 4096 demo_world = Some (tt, demo_after_delete) /\
  (page_count <$> heaps demo_after_delete !! 4096) = Some 1 /\
  freed demo_after_delete = [] /\
  abandoned demo_after_delete = 4096.
Proof. vm_compute. repeat split. Qed.

Lemma demo_open_child_count : page_count_ok (E := demo) demo_open_child.
Proof. reflexivity. Defined.

Lemma demo_open_child_list :
  block_seg (E := demo) (blocks demo_world6) 8192 (key0 demo_open_child)
            (key1 demo_open_child) (thread_delayed_free demo_open_child)
            [20480; 20512] 0.
Proof. exact demo_child_list. Defined.

Lemma destroy_downgrades_to_delete_witness :
  (exists w' hp' hpB' cs,
     mi_heap_destroy (E := demo) 8 8192 demo_world6 = Some (tt, w') /\
     heaps w' !! 8192 = Some hp' /\ page_count hp' = 0 /\
     freed w' = 8192 :: freed demo_world6 /\
     heaps w' !! heap_backing (mk_tld 4096) = Some hpB' /\
     (forall j, (j <= 2)%nat ->
        pages hpB' j = pages demo_backing j ++ pages demo_open_child j) /\
     segments w' = segments demo_world6 /\
     (forall x,
        page_store w' !! x =
          if decide (Exists (fun i => x ∈ pages demo_open_child i) (seq 0 3))
          then set_xheap (heap_backing (mk_tld 4096))
                 <$> page_store demo_world6 !! x
          else page_store demo_world6 !! x) /\
     calls w' = cs ++ calls demo_world6 /\
     (forall h, Call_destroy_pages h ∉ cs)) /\
  (exists w' hp',
     mi_heap_destroy (E := demo) 8 4096 demo_world = Some (tt, w') /\
     heaps w' !! 4096 = Some hp' /\
     page_count hp' = page_count demo_backing /\
     pages hp' = pages demo_backing /\
     freed w' = freed demo_collected /\ abandoned w' = 4096) /\
  (exists cs, calls demo_after_child_destroy = cs ++ calls demo_world /\
     ((exists h, Call_destroy_pages h ∈ cs) -> no_reclaim demo_child = true) /\
     (no_reclaim demo_child = true -> Call_destroy_pages 8192 ∈ cs)) /\
  (exists cs, calls demo_after_open_destroy = cs ++ calls demo_world6 /\
     ((exists h, Call_destroy_pages h ∈ cs) ->
        no_reclaim demo_open_child = true) /\
     (no_reclaim demo_open_child = true -> Call_destroy_pages 8192 ∈ cs)).
Proof.
  split; [|split; [|split]].
  - apply (destroy_downgrades_to_delete (E := demo) (EO := demo_ok) 8 8192
             demo_world6 demo_open_child (mk_tld 4096)
             ltac:(discriminate) ltac:(lia) eq_refl ltac:(discriminate) eq_refl)
      with (l := [20480; 20512]).
    + reflexivity.
    + discriminate.
    + reflexivity.
    + exact demo_open_child_count.
    + exact demo_open_child_list.
    + cbn. lia.
  - apply (destroy_downgrades_to_delete (E := demo) (EO := demo_ok) 8 4096
             demo_world demo_backing (mk_tld 4096)
             ltac:(discriminate) ltac:(lia) eq_refl ltac:(discriminate) eq_refl).
    + reflexivity.
    + reflexivity.
    + exact demo_collect_run.
    + reflexivity.
    + discriminate.
  - apply (destroy_downgrades_to_delete (E := demo) (EO := demo_ok) 8 8192
             demo_world demo_child (mk_tld 4096)
             ltac:(discriminate) ltac:(lia) eq_refl ltac:(discriminate) eq_refl).
    vm_compute. reflexivity.
  - apply (destroy_downgrades_to_delete (E := demo) (EO := demo_ok) 8 8192
             demo_world6 demo_open_child (mk_tld 4096)
             ltac:(discriminate) ltac:(lia) eq_refl ltac:(discriminate) eq_refl).
    vm_compute. reflexivity.
Defined.

(** C6 at a concrete input.  In the first configuration the backing heap
    at 4096 has [no_reclaim] false and holds the page 64 in its queue 1.
    Destroying it is deleting it, which abandons it: the page is still in
    queue 1 of the heap at 4096, whose [page_count] is still 1, the queues
    of the other heaps are what they were, and the heap heads the
    abandoned list. *)
Example destroy_backing_keeps_its_pages :
  no_reclaim demo_backing = false /\
  mi_heap_destroy (E := demo) 8 4096 demo_world = Some (tt, demo_after_delete) /\
  (pages <$> heaps demo_after_delete !! 4096) = Some (pages demo_backing) /\
  pages demo_backing 1%nat = [64] /\
  (page_count <$> heaps demo_after_delete !! 4096) = Some 1 /\
  (pages <$> heaps demo_after_delete !! 8192) = Some (pages demo_child) /\
  (pages <$> heaps demo_after_delete !! 16384) = Some (pages demo_stray) /\
  abandoned demo_after_delete = 4096 /\
  freed demo_after_delete = [].
Proof. vm_compute. repeat split. Qed.

Lemma demo_backing_live : heap_live demo_world (heap_backing (mk_tld 4096)).
Proof. split; [now eexists | intros H; inversion H]. Defined.

Lemma demo_default_live : heap_live demo_world (default_heap demo_world).
Proof. split; [now eexists | intros H; inversion H]. Defined.

Lemma release_and_default_heap_witness :
  mi_heap_free 4096 demo_world3 = Some (tt, demo_world3) /\
  (exists w',
     mi_heap_free 8192 demo_world = Some (tt, w') /\
     freed w' = 8192 :: freed demo_world /\
     default_heap w' =
       (if 8192 =? default_heap demo_world
        then heap_backing (mk_tld 4096) else default_heap demo_world) /\
     calls w' =
       Call_free 8192 ::
       (if 8192 =? default_heap demo_world
        then [Call_set_default_direct (heap_backing (mk_tld 4096))] else [])
       ++ calls demo_world) /\
  heap_live demo_after_child_delete (default_heap demo_after_child_delete) /\
  heap_live demo_after_child_destroy (default_heap demo_after_child_destroy) /\
  (exists w',
     mi_heap_delete (E := demo) 8 4096 demo_world3 = Some (tt, w') /\
     freed w' = 4096 :: freed demo_collected3 /\
     default_heap w' = 4096 /\
     ~ heap_live w' (default_heap w')).
Proof.
  split; [|split; [|split; [|split]]].
  - apply (release_and_default_heap (E := demo) (EO := demo_ok) 8 4096
             demo_world3 demo_idle (mk_tld 4096)
             ltac:(discriminate) ltac:(lia) eq_refl ltac:(discriminate) eq_refl).
    reflexivity.
  - apply (release_and_default_heap (E := demo) (EO := demo_ok) 8 8192
             demo_world demo_child (mk_tld 4096)
             ltac:(discriminate) ltac:(lia) eq_refl ltac:(discriminate) eq_refl).
    discriminate.
  - apply (release_and_default_heap (E := demo) (EO := demo_ok) 8 8192
             demo_world demo_child (mk_tld 4096)
             ltac:(discriminate) ltac:(lia) eq_refl ltac:(discriminate) eq_refl).
    + discriminate.
    + exact demo_backing_live.
    + exact demo_default_live.
    + left. vm_compute. reflexivity.
  - apply (release_and_default_heap (E := demo) (EO := demo_ok) 8 8192
             demo_world demo_child (mk_tld 4096)
             ltac:(discriminate) ltac:(lia) eq_refl ltac:(discriminate) eq_refl).
    + discriminate.
    + exact demo_backing_live.
    + exact demo_default_live.
    + right. vm_compute. reflexivity.
  - apply (release_and_default_heap (E := demo) (EO := demo_ok) 8 4096
             demo_world3 demo_idle (mk_tld 4096)
             ltac:(discriminate) ltac:(lia) eq_refl ltac:(discriminate) eq_refl)
      with (hp0 := demo_idle).
    + reflexivity.
    + reflexivity.
    + exact demo_collect_run3.
    + reflexivity.
    + reflexivity.
Defined.

(** C10 at a concrete input.  In the third configuration the backing heap
    at 4096 is the default heap and holds no page.  Deleting it goes
    through the abandon, which releases it; [mi_heap_free] then leaves it
    alone, and the default heap is still 4096, whose storage is gone. *)
Example delete_backing_releases_default :
  heap_live demo_world3 (default_heap demo_world3) /\
  mi_heap_delete (E := demo) 8 4096 demo_world3
  = Some (tt, demo_after_delete3) /\
  default_heap demo_after_delete3 = 4096 /\
  freed demo_after_delete3 = [4096] /\
  calls demo_after_delete3
  = [Call_backing_free 4096; Call_try_reclaim_abandoned 4096 false] /\
  ~ heap_live demo_after_delete3 (default_heap demo_after_delete3).
Proof.
  split; [|split; [|split; [|split; [|split]]]].
  - split; [now eexists | intros H; inversion H].
  - vm_compute. reflexivity.
  - vm_compute. reflexivity.
  - vm_compute. reflexivity.
  - vm_compute. reflexivity.
  - intros [_ H]. apply H. vm_compute. left.
Qed.

(** ** Owned ranges across an absorb *)

Section OwnedRanges.
Context {E : Externals} {EO : ExternalsOk}.

#[local] Existing Instance quiet_preorder.

(** The answer of [mi_heap_check_owned] on an initialized heap. *)
Lemma check_owned_value (heap p : N) (w : world) hp :
  heap <> 0 -> heaps w !! heap = Some hp -> tld hp <> 0 ->
  page_count_ok hp ->
  (forall i page, (i <= MI_BIN_FULL)%nat -> page ∈ pages hp i ->
     is_Some (page_store w !! page)) ->
  mi_heap_check_owned heap p w
  = Some ((N.land p (MI_INTPTR_SIZE - 1) =? 0)
          && existsb (fun i => existsb (in_page_area w p) (pages hp i))
                     (seq 0 (S MI_BIN_FULL)), w).
Proof.
  intros Hz Hh Ht Hok Hps. unfold mi_heap_check_owned.
  rewrite (bind_Some _ _ _ _ _ (is_initialized_Some heap w hp Hh)).
  apply N.eqb_neq in Ht. rewrite Ht. cbn [negb].
  destruct (N.land p (MI_INTPTR_SIZE - 1) =? 0); cbn [negb andb];
    [|reflexivity].
  unfold mi_heap_visit_pages. apply N.eqb_neq in Hz. rewrite Hz.
  unfold bind at 1. rewrite (bind_Some _ _ _ _ _ (heap_get_Some _ _ _ Hh)).
  destruct (page_count hp =? 0) eqn:Hc.
  - unfold ret. cbn [snd]. f_equal. f_equal. symmetry.
    apply N.eqb_eq in Hc. red in Hok. rewrite Hc in Hok.
    apply not_true_is_false. intros Hex.
    apply existsb_exists in Hex as (i & Hi & Hex).
    apply in_seq in Hi.
    rewrite (total_pages_zero hp i) in Hex by lia. discriminate.
  - rewrite (visit_bins_check_owned p heap _ w hp Hh); [reflexivity|].
    intros i page Hi. apply Hps. apply elem_of_seq in Hi. lia.
Qed.

Lemma total_pages_app (hp hp1 hp2 : mi_heap_t) :
  (forall j, (j <= MI_BIN_FULL)%nat -> pages hp j = pages hp1 j ++ pages hp2 j) ->
  total_pages hp = (total_pages hp1 + total_pages hp2)%nat.
Proof.
  intros H. unfold total_pages.
  assert (Hin : forall j, j ∈ seq 0 (S MI_BIN_FULL) ->
            pages hp j = pages hp1 j ++ pages hp2 j).
  { intros j Hj. apply H. apply elem_of_seq in Hj. lia. }
  revert Hin. generalize (seq 0 (S MI_BIN_FULL)) as bins.
  induction bins as [|i bins IH]; intros Hin; [reflexivity|].
  simpl. rewrite (Hin i) by (now left).
  rewrite length_app, IH; [lia|]. intros j Hj. apply Hin. now right.
Qed.

Lemma in_page_area_same (w w' : world) (h p x : N) :
  page_store w' !! x = set_xheap h <$> page_store w !! x \/
  page_store w' !! x = page_store w !! x ->
  in_page_area w' p x = in_page_area w p x.
Proof.
  unfold in_page_area. intros [-> | ->]; [|reflexivity].
  now destruct (page_store w !! x).
Qed.

Lemma owned_ranges_app (w w' : world) (p : N) (hp hp1 hp2 : mi_heap_t)
    (bins : list nat) :
  (forall j, j ∈ bins -> pages hp j = pages hp1 j ++ pages hp2 j) ->
  (forall x, in_page_area w' p x = in_page_area w p x) ->
  existsb (fun i => existsb (in_page_area w' p) (pages hp i)) bins
  = existsb (fun i => existsb (in_page_area w p) (pages hp1 i)) bins
    || existsb (fun i => existsb (in_page_area w p) (pages hp2 i)) bins.
Proof.
  intros Hp Ha.
  assert (Hq : forall q, existsb (in_page_area w' p) q
                         = existsb (in_page_area w p) q).
  { induction q as [|x q IH]; [reflexivity|]. cbn. now rewrite Ha, IH. }
  induction bins as [|i bins IH]; [reflexivity|].
  cbn [existsb]. rewrite IH by (intros j Hj; apply Hp; now right).
  rewrite Hq, (Hp i) by (now left). rewrite existsb_app.
  repeat match goal with |- context [existsb ?f ?l] =>
    generalize (existsb f l); intro end.
  repeat match goal with b : bool |- _ => destruct b end; reflexivity.
Qed.

(** X17.  Absorb moves the owned ranges with the pages.  For two
    initialized heaps whose [page_count] counts their pages, with pages in
    the store, the answer of [mi_heap_check_owned] for a pointer on [to]
    after [mi_heap_absorb to from] is its answer on [to] or its answer on
    [from] before; on [from] the answer is false afterwards. *)
Theorem absorb_adds_owned_ranges (fuel : nat) (to from p : N) (w : world)
    hpt hpf (l : list N) :
  to <> from -> to <> 0 -> from <> 0 ->
  heaps w !! to = Some hpt -> heaps w !! from = Some hpf ->
  tld hpt <> 0 -> tld hpf <> 0 ->
  page_count_ok hpt -> page_count_ok hpf ->
  page_count hpt + page_count hpf < 2 ^ MI_INTPTR_BITS ->
  (forall i page, (i <= MI_BIN_FULL)%nat ->
     page ∈ pages hpt i ++ pages hpf i -> is_Some (page_store w !! page)) ->
  block_seg (blocks w) from (key0 hpf) (key1 hpf)
            (thread_delayed_free hpf) l 0 ->
  (length l < fuel)%nat ->
  exists w' bt bf,
    mi_heap_check_owned to p w = Some (bt, w) /\
    mi_heap_check_owned from p w = Some (bf, w) /\
    mi_heap_absorb fuel to from w = Some (tt, w') /\
    mi_heap_check_owned to p w' = Some (bt || bf, w') /\
    mi_heap_check_owned from p w' = Some (false, w').
Proof.
  intros Hne Hzt Hzf Hh Hf Htt Htf Hokt Hokf Hlt Hps Hs Hn.
  assert (Hpt : forall i page, (i <= MI_BIN_FULL)%nat -> page ∈ pages hpt i ->
            is_Some (page_store w !! page)).
  { intros i page Hi Hin. apply (Hps i page Hi). apply elem_of_app. now left. }
  assert (Hpf : forall i page, (i <= MI_BIN_FULL)%nat -> page ∈ pages hpf i ->
            is_Some (page_store w !! page)).
  { intros i page Hi Hin. apply (Hps i page Hi). apply elem_of_app. now right. }
  pose proof (check_owned_value to p w hpt Hzt Hh Htt Hokt Hpt) as Vt.
  pose proof (check_owned_value from p w hpf Hzf Hf Htf Hokf Hpf) as Vf.
  set (al := N.land p (MI_INTPTR_SIZE - 1) =? 0) in *.
  set (Et := existsb _ _) in Vt. set (Ef := existsb _ _) in Vf.
  destruct (N.eq_dec (page_count hpf) 0) as [Hc|Hc].
  - assert (Hef : Ef = false).
    { apply not_true_is_false. intros Hex.
      apply existsb_exists in Hex as (i & Hi & Hex). apply in_seq in Hi.
      red in Hokf. rewrite Hc in Hokf.
      rewrite (total_pages_zero hpf i) in Hex by lia. discriminate. }
    exists w, (al && Et), (al && Ef).
    split; [exact Vt|]. split; [exact Vf|]. split.
    { unfold mi_heap_absorb. apply N.eqb_neq in Hzf as ->.
      now rewrite (bind_Some _ _ _ _ _ (heap_get_Some _ _ _ Hf)), Hc. }
    rewrite Hef, andb_false_r, orb_false_r. split; [exact Vt|].
    rewrite Vf, Hef. now rewrite andb_false_r.
  - destruct (absorb_spec to from Hne fuel w hpt hpf l Hzf Hh Hf Hc Hs Hn)
      as (w' & hpt' & hpf' & Hr & Hh' & Hf' & R1 & _ & R3 & P & C & _).
    destruct (absorb_owner fuel to from w w' hpt hpf Hne Hzf Hh Hf Hc Hr)
      as [_ Hpg].
    pose proof (quiet_absorb [to; from] to from ltac:(now left)
                  ltac:(right; now left) fuel w tt w' Hr) as Q.
    destruct (quiet_lookup _ _ _ _ _ Q Hh) as (hx & Hx & Htt' & _).
    rewrite Hh' in Hx. injection Hx as <-.
    destruct (quiet_lookup _ _ _ _ _ Q Hf) as (hy & Hy & Htf' & _).
    rewrite Hf' in Hy. injection Hy as <-.
    assert (Hsame : forall x, in_page_area w' p x = in_page_area w p x).
    { intros x. apply (in_page_area_same w w' to). rewrite Hpg.
      destruct (decide _); [now left | now right]. }
    assert (Hpres : forall x, is_Some (page_store w !! x) ->
              is_Some (page_store w' !! x)).
    { intros x [pg Hx]. rewrite Hpg, Hx. destruct (decide _); now eexists. }
    assert (Vt' : mi_heap_check_owned to p w'
                  = Some (al && (Et || Ef), w')).
    { rewrite (check_owned_value to p w' hpt' Hzt Hh').
      - fold al. f_equal. f_equal. f_equal.
        apply owned_ranges_app; [|exact Hsame].
        intros j Hj. apply P. apply elem_of_seq in Hj. lia.
      - congruence.
      - red. rewrite C, (total_pages_app hpt' hpt hpf P).
        red in Hokt, Hokf. unfold total_pages in *.
        rewrite absorbed_count_exact by lia. lia.
      - intros i page Hi Hin. rewrite (P i Hi) in Hin.
        apply Hpres, (Hps i page Hi Hin). }
    assert (Vf' : mi_heap_check_owned from p w' = Some (false, w')).
    { rewrite (check_owned_value from p w' hpf' Hzf Hf').
      - f_equal. f_equal.
        assert (He : existsb
                  (fun i => existsb (in_page_area w' p) (pages hpf' i))
                  (seq 0 (S MI_BIN_FULL)) = false).
        { apply not_true_is_false. intros Hex.
          apply existsb_exists in Hex as (i & _ & Hex).
          rewrite R3 in Hex. discriminate. }
        rewrite He. apply andb_false_r.
      - congruence.
      - red. rewrite R1. unfold total_pages.
        assert (Hz : forall bins,
                  sum_list (map (fun i => length (pages hpf' i)) bins) = 0%nat).
        { induction bins as [|i bins IH]; [reflexivity|].
          simpl. now rewrite R3, IH. }
        now rewrite Hz.
      - intros i page _ Hin. rewrite R3 in Hin. inversion Hin. }
    exists w', (al && Et), (al && Ef).
    split; [exact Vt|]. split; [exact Vf|]. split; [exact Hr|].
    split; [|exact Vf'].
    rewrite Vt'. f_equal. f_equal. apply andb_orb_distrib_r.
Qed.

End OwnedRanges.

Lemma demo_both_pages_present (i : nat) (page : N) :
  (i <= 2)%nat -> page ∈ pages demo_backing i ++ pages demo_child i ->
  is_Some (page_store demo_world !! page).
Proof.
  intros Hi Hin. apply elem_of_app in Hin as [Hin|Hin].
  - now apply (demo_backing_pages_present i).
  - now apply (demo_child_pages_present i).
Defined.

Lemma absorb_adds_owned_ranges_witness :
  exists w' bt bf,
    mi_heap_check_owned (E := demo) 4096 20512 demo_world
    = Some (bt, demo_world) /\
    mi_heap_check_owned (E := demo) 8192 20512 demo_world
    = Some (bf, demo_world) /\
    mi_heap_absorb (E := demo) 8 4096 8192 demo_world = Some (tt, w') /\
    mi_heap_check_owned (E := demo) 4096 20512 w' = Some (bt || bf, w') /\
    mi_heap_check_owned (E := demo) 8192 20512 w' = Some (false, w').
Proof.
  apply (absorb_adds_owned_ranges (E := demo) (EO := demo_ok) 8 4096 8192
           20512 demo_world demo_backing demo_child [20480; 20512]).
  - discriminate.
  - discriminate.
  - discriminate.
  - reflexivity.
  - reflexivity.
  - discriminate.
  - discriminate.
  - reflexivity.
  - reflexivity.
  - reflexivity.
  - exact demo_both_pages_present.
  - exact demo_child_list.
  - cbn. lia.
Defined.

(** ** A new heap *)

Section New.
Context {E : Externals} {C : Creation}.

(** The run of [mi_heap_new] when the allocation gives the storage [p]. *)
Lemma heap_new_run (s : heap_seeds) (w w1 : world) hd td hb ctx (p : N) :
  heaps (mi_thread_init w) !! default_heap (mi_thread_init w) = Some hd ->
  tlds (mi_thread_init w) !! tld hd = Some td ->
  mi_heap_malloc_tp (heap_backing td) (mi_thread_init w) = (p, w1) ->
  p <> 0 -> p <> heap_backing td ->
  heaps w1 !! heap_backing td = Some hb ->
  random s !! heap_backing td = Some ctx ->
  exists s' k0 k1 c,
    mi_heap_new s w
    = Some ((p, s'),
            set_heaps
              <[p := mk_heap (tld hb) (fun _ => 0) (fun _ => []) 0
                             _mi_thread_id k0 k1 0 true 0]> w1) /\
    cookie s' !! p = Some (N.lor c 1) /\
    (forall x, x <> p -> cookie s' !! x = cookie s !! x) /\
    (forall x, x <> p -> x <> heap_backing td ->
       random s' !! x = random s !! x) /\
    random s' !! heap_backing td
    = Some (fst (_mi_random_split (heap_backing td) ctx p random_empty)).
Proof.
  intros Hd Ht Hm Hp Hpb Hb Hctx.
  unfold mi_heap_new, mi_heap_get_backing, mi_heap_get_default,
    mi_get_default_heap, defined, _mi_heap_random_next.
  unfold_m. cbn beta iota. rewrite Hd. cbn beta iota. rewrite Ht.
  cbn beta iota. rewrite Hm.
  apply N.eqb_neq in Hp as Hp'. rewrite Hp'.
  run_maps. cbn [random cookie set_random set_cookie].
  run_maps. cbn [random cookie set_random set_cookie fst snd].
  run_maps. cbn [random cookie set_random set_cookie fst snd].
  run_maps.
  eexists _, _, _, _. split; [|split; [|split; [|split]]].
  - f_equal. f_equal. unfold set_heaps. cbn [heaps tlds page_store segments
      blocks abandoned default_heap freed calls].
    rewrite !insert_insert_eq. reflexivity.
  - cbn [cookie set_cookie set_random]. apply lookup_insert_eq.
  - intros x Hx. cbn [cookie set_cookie set_random].
    now rewrite !lookup_insert_ne by congruence.
  - intros x Hx Hxb. cbn [random set_cookie set_random].
    now rewrite !lookup_insert_ne by congruence.
  - cbn [random set_cookie set_random].
    rewrite !lookup_insert_ne by congruence. apply lookup_insert_eq.
Qed.


Context {EO : ExternalsOk}.

#[local] Existing Instance quiet_preorder.

(** X19.  A heap from [mi_heap_new] can be given back at once.  Destroying
    it goes the way of the bulk destruction, is not turned into a delete,
    and releases it; deleting it releases it as well.  In both cases the
    record of every other heap in the store is what the allocation left,
    nothing else is released, and the abandoned list is untouched.  What
    [mi_heap_new] wrote beside the new heap stays: the random context of
    the backing heap is the one that the split advanced, and neither
    destroy nor delete touches a random context or a cookie; the other
    random contexts and cookies are what they were before the call. *)
Theorem new_heap_can_be_given_back (fuel : nat) (s : heap_seeds)
    (w w1 : world) hd td hb tdb ctx (p : N) :
  heaps (mi_thread_init w) !! default_heap (mi_thread_init w) = Some hd ->
  tlds (mi_thread_init w) !! tld hd = Some td ->
  mi_heap_malloc_tp (heap_backing td) (mi_thread_init w) = (p, w1) ->
  p <> 0 -> p <> heap_backing td ->
  heaps w1 !! heap_backing td = Some hb ->
  random s !! heap_backing td = Some ctx ->
  tld hb <> 0 -> tlds w1 !! tld hb = Some tdb -> heap_backing tdb <> p ->
  exists s' w2,
    mi_heap_new s w = Some ((p, s'), w2) /\
    random s' !! heap_backing td
    = Some (fst (_mi_random_split (heap_backing td) ctx p random_empty)) /\
    (forall x, x <> p -> x <> heap_backing td ->
       random s' !! x = random s !! x) /\
    (forall x, x <> p -> cookie s' !! x = cookie s !! x) /\
    (exists w3,
       mi_heap_destroy fuel p w2 = Some (tt, w3) /\
       Call_destroy_pages p ∈ calls w3 /\
       freed w3 = p :: freed w1 /\ abandoned w3 = abandoned w1 /\
       forall x, x <> p -> heaps w3 !! x = heaps w1 !! x) /\
    (exists w3,
       mi_heap_delete fuel p w2 = Some (tt, w3) /\
       freed w3 = p :: freed w1 /\ abandoned w3 = abandoned w1 /\
       forall x, x <> p -> heaps w3 !! x = heaps w1 !! x).
Proof.
  intros Hd Ht Hm Hp Hpb Hb Hctx Htb Htdb Hbp.
  destruct (heap_new_run s w w1 hd td hb ctx p Hd Ht Hm Hp Hpb Hb Hctx)
    as (s' & k0 & k1 & c & Hr & _ & Hck & Hrs & Hrb).
  eexists s', _. split; [exact Hr|].
  split; [exact Hrb|]. split; [exact Hrs|]. split; [exact Hck|].
  set (hp := mk_heap (tld hb) _ _ _ _ _ _ _ _ _).
  set (w2 := set_heaps <[p := hp]> w1).
  assert (Hh2 : heaps w2 !! p = Some hp) by (unfold w2; now run_maps).
  assert (Ht2 : tlds w2 !! tld hp = Some tdb) by exact Htdb.
  assert (Hx2 : forall x, x <> p -> heaps w2 !! x = heaps w1 !! x).
  { intros x Hx. unfold w2. cbn [heaps set_heaps]. now apply lookup_insert_ne. }
  apply N.eqb_neq in Htb as Htb'. apply N.eqb_neq in Hp as Hp'.
  split.
  - assert (Heq : mi_heap_destroy fuel p w2
                  = bind (_mi_heap_destroy_pages p)
                         (fun _ => mi_heap_free p) w2).
    { unfold mi_heap_destroy.
      rewrite (bind_Some _ _ _ _ _ (is_initialized_Some p w2 hp Hh2)).
      cbn [tld hp]. rewrite Htb'. cbn [negb].
      now rewrite (bind_Some _ _ _ _ _ (heap_get_Some _ _ _ Hh2)). }
    assert (Hdp : exists w4, _mi_heap_destroy_pages p w2 = Some (tt, w4)).
    { unfold _mi_heap_destroy_pages.
      set (w0 := add_call (Call_destroy_pages p) w2).
      rewrite (bind_Some _ _ _ tt w0) by reflexivity.
      assert (Hh0 : heaps w0 !! p = Some hp) by exact Hh2.
      rewrite (bind_Some _ _ _ _ _
                 (visit_pages_empty p _mi_heap_page_destroy tt w0
                    (or_intror (ex_intro _ hp (conj Hh0 eq_refl))))).
      destruct (reset_pages_spec p w0 hp Hh0) as (w4 & hp4 & Hr4 & _).
      now exists w4. }
    destruct Hdp as (w4 & Hr4).
    pose proof (quiet_destroy_pages [p] p ltac:(now left) w2 tt w4 Hr4) as Q.
    destruct (quiet_lookup _ _ _ _ _ Q Hh2) as (hp4 & Hh4 & Htld4 & _).
    destruct Q as (QT & QA & _ & QF & QH).
    assert (Ht4 : tlds w4 !! tld hp4 = Some tdb) by (now rewrite QT, Htld4).
    destruct (heap_free_other p w4 hp4 tdb Hh4 Ht4 Hbp)
      as (w3 & Hr3 & Hhs & _ & Hab & Hfr & _).
    assert (Hrun : mi_heap_destroy fuel p w2 = Some (tt, w3))
      by (now rewrite Heq, (bind_Some _ _ _ _ _ Hr4)).
    exists w3. split; [exact Hrun|]. split; [|split; [|split]].
    + rewrite Heq in Hrun.
      apply (destroy_pages_calls (fun _ => True)) in Hrun
        as (cs & Hc & _); try easy.
      rewrite Hc. apply elem_of_app. right. now left.
    + now rewrite Hfr, QF.
    + now rewrite Hab, QA.
    + intros x Hx. rewrite Hhs, <- (Hx2 x Hx). apply (proj1 (QH x)).
      intros Hin. apply list_elem_of_singleton in Hin. contradiction.
  - rewrite (delete_other_eq fuel p w2 hp tdb Hh2 Htb Ht2 Hbp).
    assert (Habs : mi_heap_absorb fuel (heap_backing tdb) p w2 = Some (tt, w2)).
    { unfold mi_heap_absorb. rewrite Hp'.
      now rewrite (bind_Some _ _ _ _ _ (heap_get_Some _ _ _ Hh2)). }
    rewrite (bind_Some _ _ _ _ _ Habs).
    destruct (heap_free_other p w2 hp tdb Hh2 Ht2 Hbp)
      as (w3 & Hr3 & Hhs & _ & Hab & Hfr & _).
    exists w3. split; [exact Hr3|]. rewrite Hfr, Hab, Hhs.
    repeat split. exact Hx2.
Qed.

End New.


Lemma new_heap_can_be_given_back_witness :
  exists s' w2,
    mi_heap_new (C := demo_creation) demo_seeds demo_world
    = Some ((28672, s'), w2) /\
    random s' !! heap_backing (mk_tld 4096)
    = Some (fst (_mi_random_split (Creation := demo_creation)
                   (heap_backing (mk_tld 4096)) 11 28672
                   (random_empty (Creation := demo_creation)))) /\
    (forall x, x <> 28672 -> x <> heap_backing (mk_tld 4096) ->
       random s' !! x = random demo_seeds !! x) /\
    (forall x, x <> 28672 -> cookie s' !! x = cookie demo_seeds !! x) /\
    (exists w3,
       mi_heap_destroy (E := demo) 8 28672 w2 = Some (tt, w3) /\
       Call_destroy_pages 28672 ∈ calls w3 /\
       freed w3 = 28672 :: freed demo_world /\
       abandoned w3 = abandoned demo_world /\
       forall x, x <> 28672 -> heaps w3 !! x = heaps demo_world !! x) /\
    (exists w3,
       mi_heap_delete (E := demo) 8 28672 w2 = Some (tt, w3) /\
       freed w3 = 28672 :: freed demo_world /\
       abandoned w3 = abandoned demo_world /\
       forall x, x <> 28672 -> heaps w3 !! x = heaps demo_world !! x).
Proof.
  apply (new_heap_can_be_given_back (E := demo) (C := demo_creation)
           (EO := demo_ok) 8 demo_seeds demo_world demo_world demo_child
           (mk_tld 4096) demo_backing (mk_tld 4096) 11 28672).
  - reflexivity.
  - reflexivity.
  - reflexivity.
  - discriminate.
  - discriminate.
  - reflexivity.
  - reflexivity.
  - discriminate.
  - reflexivity.
  - discriminate.
Defined.
